(** * Wings: a shallow embedding of the runtime (wings.cpp) and of the
      integer builtins, with the properties the specification states.

    Layout:
    - [IntBuiltins]: the integer methods [Int_Mod] of the builtins library
      (the older object model, a [WObj] with a type enumeration).
    - The runtime of wings.cpp: values, attribute tables, the context, the
      call machinery, exceptions, iteration, operators, modules and the
      garbage collector.
    - Theorems, after the definitions. *)

From Stdlib Require Import ZArith String List Lia Bool QArith.
From Stdlib Require SpecFloat.
From stdpp Require Import base option gmap strings list fin_maps pretty.

Local Open Scope string_scope.
Local Open Scope list_scope.
Local Open Scope Z_scope.
Set Warnings "-register-all,-clear-no-such-hyp".

(** ** Integer builtins (Int_Mod) *)

Module IntBuiltins.

(** [wint]: the signed machine integer of the data model (64 bits), as a [Z]
    with the wrap-around written out. *)
Definition wint_bits : Z := 64.
Definition wint_min : Z := - 2 ^ (wint_bits - 1).
Definition wint_max : Z := 2 ^ (wint_bits - 1) - 1.
Definition wint_wrap (z : Z) : Z :=
  (z + 2 ^ (wint_bits - 1)) mod 2 ^ wint_bits - 2 ^ (wint_bits - 1).
Definition in_wint (z : Z) : Prop := wint_min <= z <= wint_max.

(** The payload of a [WObj] as the integer methods see it: the [Type] tag
    with the member of the union that is live for it. Floats are carried by
    an abstract type [F]. *)
Inductive WObj (F : Type) : Type :=
| WNull
| WBool (b : bool)
| WInt (i : Z)
| WFloat (f : F)
| WString (s : string)
| WOther.
Arguments WNull {F}.
Arguments WBool {F} b.
Arguments WInt {F} i.
Arguments WFloat {F} f.
Arguments WString {F} s.
Arguments WOther {F}.

(** What a method hands back: the Value it created, or null with the error
    it raised. *)
Inductive WError : Type :=
| InvalidArgumentCount (given expected : Z)
| InvalidType (paramIndex : nat) (expected : string)
| DivisionByZero
| AssertionFailure.

Inductive WResult (F : Type) : Type :=
| Created (v : WObj F)
| Raised (e : WError)
| Undefined.
Arguments Created {F} v.
Arguments Raised {F} e.
Arguments Undefined {F}.

Section Methods.
(** The float operations the integer methods use; [wfloat] itself is
    declared in a header that is not among the sources. *)
Variable F : Type.
Variable float_of_wint : Z -> F.          (* (wfloat)i *)
Variable float_is_zero : F -> bool.       (* f == 0 *)
Variable float_div : F -> F -> F.         (* f / g *)
Variable float_floor : F -> F.            (* std::floor *)
Variable float_fmod : F -> F -> F.        (* std::fmod *)
Variable wint_of_float : F -> option Z.   (* (wint)f, undefined out of range *)

Definition WIsInt (o : WObj F) : bool :=
  match o with WInt _ => true | _ => false end.
Definition WIsIntOrFloat (o : WObj F) : bool :=
  match o with WInt _ | WFloat _ => true | _ => false end.

(** WGetInt and WGetFloat assert the type of their argument. *)
Definition WGetInt (o : WObj F) : option Z :=
  match o with WInt i => Some i | _ => None end.
Definition WGetFloat (o : WObj F) : option F :=
  match o with
  | WInt i => Some (float_of_wint i)
  | WFloat f => Some f
  | _ => None
  end.

(** C++ [%] on signed integers truncates towards zero: the remainder has
    the sign of the dividend ([Z.rem]). *)
Definition cpp_rem (a b : Z) : Z := Z.rem a b.

(** Int_FloorDiv (part_000, lines 592-607). The quotient is computed on
    floats, also when both operands are integers. *)
Definition Int_FloorDiv (argv : list (WObj F)) : WResult F :=
  match argv with
  | [a0; a1] =>
      if negb (WIsInt a0) then Raised (InvalidType 0 "int")
      else if negb (WIsIntOrFloat a1) then Raised (InvalidType 1 "int or float")
      else
        match WGetFloat a1, WGetFloat a0 with
        | Some f1, Some f0 =>
            if float_is_zero f1 then Raised DivisionByZero
            else if WIsInt a1 then
              match wint_of_float (float_floor (float_div f0 f1)) with
              | Some q => Created (WInt q)
              | None => Undefined
              end
            else Created (WFloat (float_floor (float_div f0 f1)))
        | _, _ => Raised AssertionFailure
        end
  | _ => Raised (InvalidArgumentCount (Z.of_nat (length argv)) 2)
  end.

(** Int_Mod (part_000, lines 609-628). *)
Definition Int_Mod (argv : list (WObj F)) : WResult F :=
  match argv with
  | [a0; a1] =>
      if negb (WIsInt a0) then Raised (InvalidType 0 "int")
      else if negb (WIsIntOrFloat a1) then Raised (InvalidType 1 "int or float")
      else
        match WGetFloat a1, WGetInt a0, WGetFloat a0 with
        | Some f1, Some i0, Some f0 =>
            if float_is_zero f1 then Raised DivisionByZero
            else if WIsInt a1 then
              match WGetInt a1 with
              | Some mod_ =>
                  let m := cpp_rem i0 mod_ in
                  let m := if m <? 0 then wint_wrap (m + mod_) else m in
                  Created (WInt m)
              | None => Raised AssertionFailure
              end
            else Created (WFloat (float_fmod f0 f1))
        | _, _, _ => Raised AssertionFailure
        end
  | _ => Raised (InvalidArgumentCount (Z.of_nat (length argv)) 2)
  end.

End Methods.

(** Modelled from the spec: "Float: 64-bit IEEE-754". The operations are
    those of binary64, over the specification floats of the Standard
    Library; a conversion to [wint] is defined only for a value in range. *)
Module Double.

Definition prec : Z := 53.
Definition emax : Z := 1024.

Definition of_wint (i : Z) : SpecFloat.spec_float :=
  SpecFloat.binary_normalize prec emax i 0 false.

Definition is_zero (f : SpecFloat.spec_float) : bool :=
  SpecFloat.SFeqb f (SpecFloat.S754_zero false).

Definition div : SpecFloat.spec_float -> SpecFloat.spec_float -> SpecFloat.spec_float :=
  SpecFloat.SFdiv prec emax.

Definition signed (s : bool) (m : positive) : Z :=
  if s then Z.neg m else Z.pos m.

Definition floorZ (s : bool) (m : positive) (e : Z) : Z :=
  if 0 <=? e then signed s m * 2 ^ e else signed s m / 2 ^ (- e).

Definition truncZ (s : bool) (m : positive) (e : Z) : Z :=
  if 0 <=? e then signed s m * 2 ^ e else Z.quot (signed s m) (2 ^ (- e)).

Definition floor (f : SpecFloat.spec_float) : SpecFloat.spec_float :=
  match f with
  | SpecFloat.S754_finite s m e =>
      SpecFloat.binary_normalize prec emax (floorZ s m e) 0 s
  | _ => f
  end.

Definition to_wint (f : SpecFloat.spec_float) : option Z :=
  match f with
  | SpecFloat.S754_zero _ => Some 0
  | SpecFloat.S754_finite s m e =>
      let z := truncZ s m e in
      if (wint_min <=? z) && (z <=? wint_max) then Some z else None
  | _ => None
  end.

Definition fmod (x y : SpecFloat.spec_float) : SpecFloat.spec_float :=
  match x, y with
  | SpecFloat.S754_nan, _ | _, SpecFloat.S754_nan => SpecFloat.S754_nan
  | SpecFloat.S754_infinity _, _ | _, SpecFloat.S754_zero _ => SpecFloat.S754_nan
  | SpecFloat.S754_zero _, _ | _, SpecFloat.S754_infinity _ => x
  | SpecFloat.S754_finite sx mx ex, SpecFloat.S754_finite _ my ey =>
      let e := Z.min ex ey in
      let r := Z.rem (Z.pos mx * 2 ^ (ex - e)) (Z.pos my * 2 ^ (ey - e)) in
      SpecFloat.binary_normalize prec emax (if sx then - r else r) e sx
  end.

Definition Int_FloorDiv : list (WObj SpecFloat.spec_float) -> WResult SpecFloat.spec_float :=
  IntBuiltins.Int_FloorDiv SpecFloat.spec_float of_wint is_zero div floor to_wint.

Definition Int_Mod : list (WObj SpecFloat.spec_float) -> WResult SpecFloat.spec_float :=
  IntBuiltins.Int_Mod SpecFloat.spec_float of_wint is_zero fmod.

End Double.

(** The floored remainder the specification asks for: a - b * floor(a / b).
    [Z.div] rounds towards minus infinity. *)
Definition floored_mod (a b : Z) : Z := a - b * (a / b).

(** The floored quotient the specification asks for. *)
Definition floored_div (a b : Z) : Z := a / b.

End IntBuiltins.

(** ** The runtime of wings.cpp: data model *)

(** A [Wg_Obj*] that is not null is an address; [nullptr] is [None]. *)
Definition addr : Type := positive.
Abbreviation ptr := (option addr).

(** A [void*]: null, a pointer to a Value (a class stores itself as the
    userdata of its constructor), or a handle of the host. *)
Inductive voidp : Type :=
| VNull
| VObj (p : addr)
| VHost (h : N).

(** *** Attribute tables

    Modelled from the spec: attributetable.h is not among the sources. A
    table is a local mapping from names to handles, kept in insertion order,
    with an ordered list of parent tables (data model, "Attribute Table");
    a parent is held here by value. *)
Inductive AttributeTable : Type :=
| MkTable (entries : list (string * addr)) (parents : list AttributeTable).

Definition entries (t : AttributeTable) : list (string * addr) :=
  match t with MkTable es _ => es end.
Definition parents (t : AttributeTable) : list AttributeTable :=
  match t with MkTable _ ps => ps end.

Definition empty_table : AttributeTable := MkTable [] [].

Fixpoint assoc_get {V : Type} (name : string) (es : list (string * V)) : option V :=
  match es with
  | [] => None
  | (k, v) :: es' => if String.eqb k name then Some v else assoc_get name es'
  end.

Fixpoint assoc_set {V : Type} (name : string) (v : V) (es : list (string * V))
  : list (string * V) :=
  match es with
  | [] => [(name, v)]
  | (k, w) :: es' =>
      if String.eqb k name then (k, v) :: es' else (k, w) :: assoc_set name v es'
  end.

(** get(name): the local map first, then each parent in order, depth first;
    the first hit wins. *)
Fixpoint Get (t : AttributeTable) (name : string) : ptr :=
  match t with
  | MkTable es ps =>
      match assoc_get name es with
      | Some v => Some v
      | None =>
          (fix first (ps : list AttributeTable) : ptr :=
             match ps with
             | [] => None
             | p :: ps' =>
                 match Get p name with
                 | Some v => Some v
                 | None => first ps'
                 end
             end) ps
      end
  end.

(** get_from_base(name): skip the local map, search the parents. *)
Fixpoint first_parent (ps : list AttributeTable) (name : string) : ptr :=
  match ps with
  | [] => None
  | p :: ps' =>
      match Get p name with
      | Some v => Some v
      | None => first_parent ps' name
      end
  end.

Definition GetFromBase (t : AttributeTable) (name : string) : ptr :=
  first_parent (parents t) name.

(** set(name, value): writes always go to the local map. *)
Definition Set_ (t : AttributeTable) (name : string) (v : addr) : AttributeTable :=
  MkTable (assoc_set name v (entries t)) (parents t).

(** add_parent(table, prepend = false). *)
Definition AddParent (t parent : AttributeTable) (prepend : bool) : AttributeTable :=
  MkTable (entries t)
          (if prepend then parent :: parents t else parents t ++ [parent]).

(** copy(): clones the local map and shares the parent list. *)
Definition Copy (t : AttributeTable) : AttributeTable :=
  MkTable (entries t) (parents t).

(** for_each(callback): the local entries only, in insertion order. *)
Definition ForEach (t : AttributeTable) : list addr := map snd (entries t).

(** *** Values *)

(** The function pointers a Function or Class can hold: the three lambdas
    of [Wg_NewClass] (constructor thunk, default [__init__], [__str__]) and
    the functions of the host and of the builtin library, by handle. *)
Inductive Fptr : Type :=
| ClassCtor
| ClassInit
| ClassStr
| NativeFn (id : N).

(** [Wg_Obj::Func]. *)
Record Func : Type := MkFunc {
  self : ptr;
  fptr : Fptr;
  fn_userdata : voidp;
  isMethod : bool;
  fn_module : string;
  prettyName : string;
}.

(** [Wg_Obj::Class]. *)
Record Class : Type := MkClass {
  name : string;
  bases : list addr;
  instanceAttributes : AttributeTable;
  ctor : Fptr;
  cls_userdata : voidp;
  cls_module : string;
}.

(** What [obj->data] points to. [obj->Get<T>()] reads it at type [T]; the
    string [obj->type] says which [T] the runtime expects. *)
Inductive Data : Type :=
| DNull
| DBool (b : bool)
| DInt (i : Z)
| DFloat (bits : Z)
| DString (s : string)
| DVector (v : list addr)                 (* tuple and list *)
| DDict (d : list (addr * addr))          (* wings::WDict, insertion order *)
| DSet (s : list addr)                    (* wings::WSet *)
| DFunc (f : Func)
| DClass (k : Class)
| DHost (h : N).

(** [Wg_FinalizerDesc]: a finalizer of the host by handle, or the finalizer
    [Wg_NewClass] installs (it deletes the class data). *)
Inductive FinalizerFn : Type :=
| FinDeleteClass
| FinHost (id : N).

Record Wg_FinalizerDesc : Type := MkFinalizer {
  fin_fptr : option FinalizerFn;
  fin_userdata : voidp;
}.

(** [Wg_Obj]. The back pointer to the context is left out: the model has
    one context. *)
Record Wg_Obj : Type := MkObj {
  type : string;
  data : Data;
  attributes : AttributeTable;
  finalizer : Wg_FinalizerDesc;
  references : list addr;
}.

Definition default_obj : Wg_Obj :=
  {| type := "__null"; data := DNull; attributes := empty_table;
     finalizer := MkFinalizer None VNull; references := [] |}.

(** *** The context *)

(** [Wg_Exc]: the closed set of exception kinds. *)
Inductive Wg_Exc : Type :=
| WG_EXC_BASEEXCEPTION | WG_EXC_SYSTEMEXIT | WG_EXC_EXCEPTION
| WG_EXC_STOPITERATION | WG_EXC_ARITHMETICERROR | WG_EXC_OVERFLOWERROR
| WG_EXC_ZERODIVISIONERROR | WG_EXC_ATTRIBUTEERROR | WG_EXC_IMPORTERROR
| WG_EXC_LOOKUPERROR | WG_EXC_INDEXERROR | WG_EXC_KEYERROR
| WG_EXC_MEMORYERROR | WG_EXC_NAMEERROR | WG_EXC_OSERROR
| WG_EXC_ISADIRECTORYERROR | WG_EXC_RUNTIMEERROR
| WG_EXC_NOTIMPLEMENTEDERROR | WG_EXC_RECURSIONERROR | WG_EXC_SYNTAXERROR
| WG_EXC_TYPEERROR | WG_EXC_VALUEERROR.

Definition all_exceptions : list Wg_Exc :=
  [ WG_EXC_BASEEXCEPTION; WG_EXC_SYSTEMEXIT; WG_EXC_EXCEPTION;
    WG_EXC_STOPITERATION; WG_EXC_ARITHMETICERROR; WG_EXC_OVERFLOWERROR;
    WG_EXC_ZERODIVISIONERROR; WG_EXC_ATTRIBUTEERROR; WG_EXC_IMPORTERROR;
    WG_EXC_LOOKUPERROR; WG_EXC_INDEXERROR; WG_EXC_KEYERROR;
    WG_EXC_MEMORYERROR; WG_EXC_NAMEERROR; WG_EXC_OSERROR;
    WG_EXC_ISADIRECTORYERROR; WG_EXC_RUNTIMEERROR;
    WG_EXC_NOTIMPLEMENTEDERROR; WG_EXC_RECURSIONERROR; WG_EXC_SYNTAXERROR;
    WG_EXC_TYPEERROR; WG_EXC_VALUEERROR ].

(** The members of [context->builtins] that wings.cpp names; the struct is
    declared in a header that is not among the sources, so it is a table
    from member to pointer. [B_exc e] is the class of the exception kind
    [e] ([baseException], [stopIteration], [typeError], ...). *)
Inductive Builtin : Type :=
| B_none | B_true | B_false
| B_bool | B_int | B_float | B_str | B_tuple | B_list | B_dict | B_set
| B_func | B_object | B_moduleObject
| B_hash | B_len | B_repr
| B_exc (e : Wg_Exc).

Definition all_builtins : list Builtin :=
  [ B_none; B_true; B_false; B_bool; B_int; B_float; B_str; B_tuple; B_list;
    B_dict; B_set; B_func; B_object; B_moduleObject; B_hash; B_len; B_repr ]
  ++ map B_exc all_exceptions.

(** [Wg_Config]. The run factor of the collector is a ratio. *)
Record Wg_Config : Type := MkConfig {
  maxAlloc : Z;
  maxRecursion : Z;
  maxCollectionSize : Z;
  gcRunFactor : Q;
  enableOSAccess : bool;
  isatty : bool;
}.

Record TraceFrame : Type := MkFrame {
  srcPos : option (nat * nat);
  lineText : string;
  frame_module : string;
  frame_func : string;
  syntaxError : bool;
}.

(** [Wg_Context]. Stacks ([currentModule], [userdata], [kwargs],
    [currentTrace]) are lists whose head is the top (the back of the
    vector). [finalized] records the finalizer calls the collector made, in
    order: a finalizer is a function of the host. *)
Record Wg_Context : Type := MkContext {
  config : Wg_Config;
  currentModule : list string;
  globals : gmap string (gmap string addr);
  moduleLoaders : gmap string N;
  importPath : string;
  builtins : Builtin -> ptr;
  kwargs : list ptr;
  userdata : list voidp;
  currentTrace : list TraceFrame;
  exceptionTrace : list TraceFrame;
  currentException : ptr;
  traceMessage : string;
  mem : list (addr * Wg_Obj);
  protectedObjects : gmap addr positive;
  argv : ptr;
  lastObjectCountAfterGC : nat;
  finalized : list (addr * FinalizerFn);
}.

(** Field updates of the context. *)
Definition set_mem (m : list (addr * Wg_Obj)) (c : Wg_Context) : Wg_Context :=
  MkContext (config c) (currentModule c) (globals c) (moduleLoaders c)
    (importPath c) (builtins c) (kwargs c) (userdata c) (currentTrace c)
    (exceptionTrace c) (currentException c) (traceMessage c) m
    (protectedObjects c) (argv c) (lastObjectCountAfterGC c) (finalized c).

Definition set_protectedObjects (p : gmap addr positive) (c : Wg_Context)
  : Wg_Context :=
  MkContext (config c) (currentModule c) (globals c) (moduleLoaders c)
    (importPath c) (builtins c) (kwargs c) (userdata c) (currentTrace c)
    (exceptionTrace c) (currentException c) (traceMessage c) (mem c)
    p (argv c) (lastObjectCountAfterGC c) (finalized c).

Definition set_globals (g : gmap string (gmap string addr)) (c : Wg_Context)
  : Wg_Context :=
  MkContext (config c) (currentModule c) g (moduleLoaders c)
    (importPath c) (builtins c) (kwargs c) (userdata c) (currentTrace c)
    (exceptionTrace c) (currentException c) (traceMessage c) (mem c)
    (protectedObjects c) (argv c) (lastObjectCountAfterGC c) (finalized c).

Definition set_moduleLoaders (l : gmap string N) (c : Wg_Context) : Wg_Context :=
  MkContext (config c) (currentModule c) (globals c) l
    (importPath c) (builtins c) (kwargs c) (userdata c) (currentTrace c)
    (exceptionTrace c) (currentException c) (traceMessage c) (mem c)
    (protectedObjects c) (argv c) (lastObjectCountAfterGC c) (finalized c).

Definition set_currentModule (s : list string) (c : Wg_Context) : Wg_Context :=
  MkContext (config c) s (globals c) (moduleLoaders c)
    (importPath c) (builtins c) (kwargs c) (userdata c) (currentTrace c)
    (exceptionTrace c) (currentException c) (traceMessage c) (mem c)
    (protectedObjects c) (argv c) (lastObjectCountAfterGC c) (finalized c).

Definition set_kwargs (k : list ptr) (c : Wg_Context) : Wg_Context :=
  MkContext (config c) (currentModule c) (globals c) (moduleLoaders c)
    (importPath c) (builtins c) k (userdata c) (currentTrace c)
    (exceptionTrace c) (currentException c) (traceMessage c) (mem c)
    (protectedObjects c) (argv c) (lastObjectCountAfterGC c) (finalized c).

Definition set_userdata (u : list voidp) (c : Wg_Context) : Wg_Context :=
  MkContext (config c) (currentModule c) (globals c) (moduleLoaders c)
    (importPath c) (builtins c) (kwargs c) u (currentTrace c)
    (exceptionTrace c) (currentException c) (traceMessage c) (mem c)
    (protectedObjects c) (argv c) (lastObjectCountAfterGC c) (finalized c).

Definition set_currentTrace (t : list TraceFrame) (c : Wg_Context) : Wg_Context :=
  MkContext (config c) (currentModule c) (globals c) (moduleLoaders c)
    (importPath c) (builtins c) (kwargs c) (userdata c) t
    (exceptionTrace c) (currentException c) (traceMessage c) (mem c)
    (protectedObjects c) (argv c) (lastObjectCountAfterGC c) (finalized c).

(** The three fields of the exception state are written together. *)
Definition set_exception (e : ptr) (t : list TraceFrame) (msg : string)
  (c : Wg_Context) : Wg_Context :=
  MkContext (config c) (currentModule c) (globals c) (moduleLoaders c)
    (importPath c) (builtins c) (kwargs c) (userdata c) (currentTrace c)
    t e msg (mem c)
    (protectedObjects c) (argv c) (lastObjectCountAfterGC c) (finalized c).

Definition set_config (k : Wg_Config) (c : Wg_Context) : Wg_Context :=
  MkContext k (currentModule c) (globals c) (moduleLoaders c)
    (importPath c) (builtins c) (kwargs c) (userdata c) (currentTrace c)
    (exceptionTrace c) (currentException c) (traceMessage c) (mem c)
    (protectedObjects c) (argv c) (lastObjectCountAfterGC c) (finalized c).

(** The result of the sweep: the arena, the live count and the finalizer
    calls. *)
Definition set_swept (m : list (addr * Wg_Obj)) (fin : list (addr * FinalizerFn))
  (c : Wg_Context) : Wg_Context :=
  MkContext (config c) (currentModule c) (globals c) (moduleLoaders c)
    (importPath c) (builtins c) (kwargs c) (userdata c) (currentTrace c)
    (exceptionTrace c) (currentException c) (traceMessage c) m
    (protectedObjects c) (argv c) (length m) (finalized c ++ fin).

(** *** Outcomes

    A run of a runtime function returns, or leaves defined behaviour (a
    failed [WG_ASSERT], a null or dangling pointer followed, a [Get<T>()] at
    the wrong type, a [WG_UNREACHABLE]), or exhausts the fuel that bounds
    the loops and the call depth of the model. *)
Inductive Fault : Type :=
| AssertFailed
| NullDereference
| DanglingPointer
| BadCast
| OutOfRange
| Unreachable.

Inductive result (A : Type) : Type :=
| Done (a : A)
| Crashed (f : Fault)
| Exhausted.
Arguments Done {A} a.
Arguments Crashed {A} f.
Arguments Exhausted {A}.

Definition M (A : Type) : Type := Wg_Context -> result (A * Wg_Context).

Definition ret {A : Type} (a : A) : M A := fun c => Done (a, c).
Definition bind {A B : Type} (m : M A) (k : A -> M B) : M B :=
  fun c =>
    match m c with
    | Done (a, c') => k a c'
    | Crashed f => Crashed f
    | Exhausted => Exhausted
    end.
Definition crash {A : Type} (f : Fault) : M A := fun _ => Crashed f.
Definition exhausted {A : Type} : M A := fun _ => Exhausted.
Definition get : M Wg_Context := fun c => Done (c, c).
Definition gets {A : Type} (f : Wg_Context -> A) : M A := fun c => Done (f c, c).
Definition modify (f : Wg_Context -> Wg_Context) : M unit := fun c => Done (tt, f c).

Notation "'let*' x ':=' m 'in' k" := (bind m (fun x => k))
  (at level 10, x name, m at level 100, k at level 200).
Notation "m '>>' k" := (bind m (fun _ => k))
  (at level 100, k at level 200, right associativity).

(** [WG_ASSERT(cond)]: the macro is declared in a header that is not among
    the sources; a failed assertion ends the run. *)
Definition WG_ASSERT (cond : bool) : M unit :=
  if cond then ret tt else crash AssertFailed.

(** *** The arena *)

Fixpoint lookup_obj (m : list (addr * Wg_Obj)) (p : addr) : option Wg_Obj :=
  match m with
  | [] => None
  | (q, o) :: m' => if Pos.eqb q p then Some o else lookup_obj m' p
  end.

Fixpoint replace_obj (m : list (addr * Wg_Obj)) (p : addr) (o : Wg_Obj)
  : list (addr * Wg_Obj) :=
  match m with
  | [] => []
  | (q, o') :: m' =>
      if Pos.eqb q p then (q, o) :: m' else (q, o') :: replace_obj m' p o
  end.

(** [*p] for a pointer that is not null. *)
Definition deref (p : addr) : M Wg_Obj :=
  fun c =>
    match lookup_obj (mem c) p with
    | Some o => Done (o, c)
    | None => Crashed DanglingPointer
    end.

(** [*p = o]. *)
Definition store (p : addr) (o : Wg_Obj) : M unit :=
  fun c =>
    match lookup_obj (mem c) p with
    | Some _ => Done (tt, set_mem (replace_obj (mem c) p o) c)
    | None => Crashed DanglingPointer
    end.

(** A pointer that must not be null. *)
Definition nonnull (p : ptr) : M addr :=
  match p with
  | Some a => ret a
  | None => crash AssertFailed
  end.

(** The type predicates, on the object. *)
Definition has_type (o : Wg_Obj) (t : string) : bool := String.eqb (type o) t.
Definition IsInt (o : Wg_Obj) : bool := has_type o "__int".
Definition IsString (o : Wg_Obj) : bool := has_type o "__str".
Definition IsTuple (o : Wg_Obj) : bool := has_type o "__tuple".
Definition IsList (o : Wg_Obj) : bool := has_type o "__list".
Definition IsDictionary (o : Wg_Obj) : bool := has_type o "__map".
Definition IsSet (o : Wg_Obj) : bool := has_type o "__set".
Definition IsClass (o : Wg_Obj) : bool := has_type o "__class".
Definition IsFunction (o : Wg_Obj) : bool := has_type o "__func".

(** [obj->Get<T>()]: the data read at type [T]. *)
Definition Get_vector (o : Wg_Obj) : option (list addr) :=
  match data o with DVector v => Some v | _ => None end.
Definition Get_dict (o : Wg_Obj) : option (list (addr * addr)) :=
  match data o with DDict d => Some d | _ => None end.
Definition Get_set (o : Wg_Obj) : option (list addr) :=
  match data o with DSet s => Some s | _ => None end.
Definition Get_func (o : Wg_Obj) : option Func :=
  match data o with DFunc f => Some f | _ => None end.
Definition Get_class (o : Wg_Obj) : option Class :=
  match data o with DClass k => Some k | _ => None end.
Definition Get_string (o : Wg_Obj) : option string :=
  match data o with DString s => Some s | _ => None end.
Definition Get_bool (o : Wg_Obj) : option bool :=
  match data o with DBool b => Some b | _ => None end.

Definition cast {A : Type} (x : option A) : M A :=
  match x with
  | Some a => ret a
  | None => crash BadCast
  end.

Definition set_data (d : Data) (o : Wg_Obj) : Wg_Obj :=
  MkObj (type o) d (attributes o) (finalizer o) (references o).
Definition set_type (t : string) (o : Wg_Obj) : Wg_Obj :=
  MkObj t (data o) (attributes o) (finalizer o) (references o).
Definition set_attributes (a : AttributeTable) (o : Wg_Obj) : Wg_Obj :=
  MkObj (type o) (data o) a (finalizer o) (references o).
Definition set_self (s : ptr) (f : Func) : Func :=
  MkFunc s (fptr f) (fn_userdata f) (isMethod f) (fn_module f) (prettyName f).

(** ** The garbage collector (Wg_CollectGarbage, wings.cpp 1331-1415) *)

Definition option_list {A : Type} (o : option A) : list A :=
  match o with Some a => [a] | None => [] end.

(** The roots, in the order the collector pushes them. The two hash maps
    are walked in the order of their listing. *)
Definition roots (c : Wg_Context) : list addr :=
  option_list (currentException c)
  ++ map fst (map_to_list (protectedObjects c))
  ++ flat_map (fun mg => map snd (map_to_list (snd mg))) (map_to_list (globals c))
  ++ flat_map option_list (rev (kwargs c))
  ++ flat_map (fun b => option_list (builtins c b)) all_builtins
  ++ option_list (argv c).

(** What the collector pushes for one object it traverses, in order: the
    payload by type, then the attribute table, then the linked references.
    [None]: the data is not what the type says. *)
Definition payload_children (o : Wg_Obj) : option (list addr) :=
  if IsTuple o || IsList o then Get_vector o
  else if IsDictionary o then
    match Get_dict o with
    | Some d => Some (flat_map (fun kv => [fst kv; snd kv]) d)
    | None => None
    end
  else if IsSet o then Get_set o
  else if IsFunction o then
    match Get_func o with
    | Some f => Some (option_list (self f))
    | None => None
    end
  else if IsClass o then
    match Get_class o with
    | Some k => Some (bases k ++ ForEach (instanceAttributes k))
    | None => None
    end
  else Some [].

Definition children (o : Wg_Obj) : option (list addr) :=
  match payload_children o with
  | Some l => Some (l ++ ForEach (attributes o) ++ references o)
  | None => None
  end.

(** The marking loop. [inUse] is the deque, its back at the head of the
    list: the loop pops the back and pushes to the back. *)
Fixpoint mark (fuel : nat) (m : list (addr * Wg_Obj)) (inUse : list addr)
  (traversed : gset addr) : result (gset addr) :=
  match inUse with
  | [] => Done traversed
  | obj :: rest =>
      match fuel with
      | O => Exhausted
      | S fuel' =>
          if decide (obj ∈ traversed) then mark fuel' m rest traversed
          else
            match lookup_obj m obj with
            | None => Crashed DanglingPointer
            | Some o =>
                match children o with
                | None => Crashed BadCast
                | Some l => mark fuel' m (rev l ++ rest) ({[obj]} ∪ traversed)
                end
            end
      end
  end.

(** The finalizer calls of the sweep, in arena order. *)
Definition finalizer_calls (m : list (addr * Wg_Obj)) (traversed : gset addr)
  : list (addr * FinalizerFn) :=
  flat_map (fun po =>
              match fin_fptr (finalizer (snd po)) with
              | Some f => if decide (fst po ∈ traversed) then [] else [(fst po, f)]
              | None => []
              end) m.

Definition sweep (m : list (addr * Wg_Obj)) (traversed : gset addr)
  : list (addr * Wg_Obj) :=
  List.filter (fun po => bool_decide (fst po ∈ traversed)) m.

Definition Wg_CollectGarbage (fuel : nat) : M unit :=
  fun c =>
    match mark fuel (mem c) (rev (roots c)) ∅ with
    | Done traversed =>
        Done (tt, set_swept (sweep (mem c) traversed)
                            (finalizer_calls (mem c) traversed) c)
    | Crashed f => Crashed f
    | Exhausted => Exhausted
    end.

(** ** The runtime functions *)

(** The functions the modelled ones call back into. A function of the host
    (a native function, a module loader) receives them too, so it can
    re-enter the runtime. *)
Record Handles : Type := MkHandles {
  h_call : ptr -> list addr -> ptr -> M ptr;        (* Wg_Call *)
  h_raise : Wg_Exc -> string -> M unit;             (* Wg_RaiseException *)
  h_importAll : string -> M bool;                   (* Wg_ImportAllFromModule *)
}.

(** What wings.cpp uses and the sources do not define: the identifier test
    of the lexer, the type name printer, the functions behind the function
    pointers, the module loaders, the file system, the compiler, and the
    insertion into a [WDict] (it hashes the key through [__hash__];
    [None] is a [HashException]). *)
Record Host : Type := MkHost {
  IsValidIdentifier : string -> bool;
  WObjTypeToString : Wg_Obj -> string;
  native : N -> Handles -> list addr -> M ptr;
  loader : N -> Handles -> M bool;
  ReadFromFile : string -> option string;
  Compile : string -> string -> string -> bool -> M ptr;
  dict_insert : Handles -> list (addr * addr) -> addr -> addr
                -> M (option (list (addr * addr)));
}.

Inductive Wg_UnOp : Type :=
| WG_UOP_POS | WG_UOP_NEG | WG_UOP_BITNOT | WG_UOP_NOT | WG_UOP_HASH
| WG_UOP_LEN | WG_UOP_BOOL | WG_UOP_INT | WG_UOP_FLOAT | WG_UOP_STR
| WG_UOP_REPR | WG_UOP_INDEX.

Inductive Wg_BinOp : Type :=
| WG_BOP_ADD | WG_BOP_SUB | WG_BOP_MUL | WG_BOP_DIV | WG_BOP_FLOORDIV
| WG_BOP_MOD | WG_BOP_POW | WG_BOP_BITAND | WG_BOP_BITOR | WG_BOP_BITXOR
| WG_BOP_SHL | WG_BOP_SHR | WG_BOP_IN | WG_BOP_NOTIN
| WG_BOP_EQ | WG_BOP_NE | WG_BOP_LT | WG_BOP_LE | WG_BOP_GT | WG_BOP_GE
| WG_BOP_AND | WG_BOP_OR.

(** OP_METHOD_NAMES (wings.cpp 1030-1050). *)
Definition OP_METHOD_NAMES (op : Wg_BinOp) : option string :=
  match op with
  | WG_BOP_ADD => Some "__add__"
  | WG_BOP_SUB => Some "__sub__"
  | WG_BOP_MUL => Some "__mul__"
  | WG_BOP_DIV => Some "__truediv__"
  | WG_BOP_FLOORDIV => Some "__floordiv__"
  | WG_BOP_MOD => Some "__mod__"
  | WG_BOP_POW => Some "__pow__"
  | WG_BOP_BITAND => Some "__and__"
  | WG_BOP_BITOR => Some "__or__"
  | WG_BOP_BITXOR => Some "__not__"
  | WG_BOP_SHL => Some "__lshift__"
  | WG_BOP_SHR => Some "__rshift__"
  | WG_BOP_IN => Some "__contains__"
  | WG_BOP_EQ => Some "__eq__"
  | WG_BOP_NE => Some "__ne__"
  | WG_BOP_LT => Some "__lt__"
  | WG_BOP_LE => Some "__le__"
  | WG_BOP_GT => Some "__gt__"
  | WG_BOP_GE => Some "__ge__"
  | WG_BOP_NOTIN | WG_BOP_AND | WG_BOP_OR => None
  end.

(** *** Protection (wings.cpp 1417-1432) *)

Definition protect (obj : addr) (c : Wg_Context) : Wg_Context :=
  set_protectedObjects
    (<[obj := match protectedObjects c !! obj with
              | Some n => Pos.succ n
              | None => 1%positive
              end]> (protectedObjects c)) c.

Definition Wg_ProtectObject (obj : addr) : M unit := modify (protect obj).

Definition Wg_UnprotectObject (obj : addr) : M unit :=
  let* c := get in
  match protectedObjects c !! obj with
  | None => crash AssertFailed
  | Some n =>
      if Pos.eqb n 1
      then modify (set_protectedObjects (delete obj (protectedObjects c)))
      else modify (set_protectedObjects (<[obj := Pos.pred n]> (protectedObjects c)))
  end.

Fixpoint protect_all (objs : list addr) : M unit :=
  match objs with
  | [] => ret tt
  | o :: objs' => Wg_ProtectObject o >> protect_all objs'
  end.

Fixpoint unprotect_all (objs : list addr) : M unit :=
  match objs with
  | [] => ret tt
  | o :: objs' => Wg_UnprotectObject o >> unprotect_all objs'
  end.

(** [Wg_ObjRef]: the scoped acquisition. The objects are protected for the
    extent of [body] and released on every return from it. *)
Definition with_refs {A : Type} (objs : list addr) (body : M A) : M A :=
  protect_all objs >>
  let* r := body in
  unprotect_all objs >>
  ret r.

(** *** Type tests on pointers (wings.cpp 592-646) *)

Definition Wg_IsNone (obj : ptr) : M bool :=
  let* o := nonnull obj in
  let* c := get in
  ret (bool_decide (Some o = builtins c B_none)).

Definition Wg_IsBool (obj : ptr) : M bool :=
  let* o := nonnull obj in
  let* c := get in
  ret (bool_decide (Some o = builtins c B_true)
       || bool_decide (Some o = builtins c B_false)).

Definition Wg_IsInt (obj : ptr) : M bool :=
  let* p := nonnull obj in let* o := deref p in ret (IsInt o).
Definition Wg_IsString (obj : ptr) : M bool :=
  let* p := nonnull obj in let* o := deref p in ret (IsString o).
Definition Wg_IsTuple (obj : ptr) : M bool :=
  let* p := nonnull obj in let* o := deref p in ret (IsTuple o).
Definition Wg_IsDictionary (obj : ptr) : M bool :=
  let* p := nonnull obj in let* o := deref p in ret (IsDictionary o).
Definition Wg_IsClass (obj : ptr) : M bool :=
  let* p := nonnull obj in let* o := deref p in ret (IsClass o).
Definition Wg_IsFunction (obj : ptr) : M bool :=
  let* p := nonnull obj in let* o := deref p in ret (IsFunction o).

Definition Wg_GetBool (obj : ptr) : M bool :=
  let* b := Wg_IsBool obj in
  WG_ASSERT b >>
  let* p := nonnull obj in
  let* o := deref p in
  cast (Get_bool o).

(** *** The current exception (wings.cpp 1176-1186) *)

Definition Wg_GetCurrentException : M ptr := gets currentException.

Definition Wg_ClearCurrentException : M unit :=
  modify (set_exception None [] "").

Section Layer.
(** One level of the runtime: [fuel] bounds the loops at this level, and
    [H] holds the functions the level calls back into (one level down). *)
Variable host : Host.
Variable fuel : nat.
Variable H : Handles.

(** *** Allocation

    Modelled from the spec: Alloc (gc.h, gc.cpp are not among the sources).
    "Allocation returns a default-initialized Value (tag = None) registered
    in the arena"; "maxAlloc: hard cap on live Value count; exceeding it
    raises MemoryError"; "a new collection is run when the live count
    exceeds last_live_count x gcRunFactor". The new address is one no live
    object has. *)
Definition fresh_addr (m : list (addr * Wg_Obj)) : addr :=
  Pos.succ (fold_right Pos.max 1%positive (map fst m)).

Definition gc_due (c : Wg_Context) : bool :=
  negb (Qle_bool (inject_Z (Z.of_nat (length (mem c))))
                 (inject_Z (Z.of_nat (lastObjectCountAfterGC c))
                  * gcRunFactor (config c))).

Definition Alloc : M ptr :=
  let* c := get in
  if maxAlloc (config c) <=? Z.of_nat (length (mem c)) then
    h_raise H WG_EXC_MEMORYERROR "" >> ret None
  else
    (if gc_due c then Wg_CollectGarbage fuel else ret tt) >>
    let* c := get in
    let p := fresh_addr (mem c) in
    modify (set_mem (mem c ++ [(p, default_obj)])) >>
    ret (Some p).

(** *** Attributes (wings.cpp 698-737) *)

(** The binding step of the three lookups: a Function with [isMethod] gets
    the receiver as its [self]. *)
Definition bind_method (obj : addr) (mem_ : addr) : M unit :=
  let* mo := deref mem_ in
  if IsFunction mo then
    let* f := cast (Get_func mo) in
    if isMethod f then store mem_ (set_data (DFunc (set_self (Some obj) f)) mo)
    else ret tt
  else ret tt.

Definition Wg_HasAttribute (obj : addr) (member : string) : M ptr :=
  WG_ASSERT (IsValidIdentifier host member) >>
  let* o := deref obj in
  let mem_ := Get (attributes o) member in
  match mem_ with
  | Some m => bind_method obj m >> ret mem_
  | None => ret mem_
  end.

Definition Wg_SetAttribute (obj : addr) (member : string) (value : addr) : M unit :=
  WG_ASSERT (IsValidIdentifier host member) >>
  let* o := deref obj in
  store obj (set_attributes (Set_ (attributes o) member value) o).

Definition Wg_GetAttributeFromBase (obj : addr) (member : string) (baseClass : ptr)
  : M ptr :=
  WG_ASSERT (IsValidIdentifier host member) >>
  let* mem_ :=
    match baseClass with
    | None => let* o := deref obj in ret (GetFromBase (attributes o) member)
    | Some b =>
        let* bo := deref b in
        let* k := cast (Get_class bo) in
        ret (Get (instanceAttributes k) member)
    end in
  match mem_ with
  | Some m => bind_method obj m >> ret mem_
  | None => ret mem_
  end.

(** *** Wg_IsInstance (wings.cpp 739-767) *)

(** The loop over the queue [toCheck] (front at the head). Every queued
    pointer is held by a [Wg_ObjRef]. *)
Fixpoint IsInstance_loop (n : nat) (types : list addr) (toCheck : list addr)
  : M ptr :=
  match toCheck with
  | [] => ret None
  | front :: rest =>
      match n with
      | O => exhausted
      | S n' =>
          if existsb (Pos.eqb front) types then
            unprotect_all toCheck >> ret (Some front)
          else
            let* bases_ := Wg_HasAttribute front "__bases__" in
            let* new :=
              match bases_ with
              | None => ret []
              | Some b =>
                  let* bo := deref b in
                  if IsTuple bo then cast (Get_vector bo) else ret []
              end in
            protect_all new >>
            Wg_UnprotectObject front >>
            IsInstance_loop n' types (rest ++ new)
      end
  end.

Fixpoint assert_classes (types : list ptr) : M (list addr) :=
  match types with
  | [] => ret []
  | t :: ts =>
      let* b := Wg_IsClass t in
      WG_ASSERT b >>
      let* p := nonnull t in
      let* ps := assert_classes ts in
      ret (p :: ps)
  end.

Definition Wg_IsInstance (instance : addr) (types : list ptr) : M ptr :=
  let* types := assert_classes types in
  let* io := deref instance in
  match Get (attributes io) "__class__" with
  | None => ret None
  | Some klass =>
      with_refs [klass]
        (Wg_ProtectObject klass >> IsInstance_loop fuel types [klass])
  end.

(** *** Keyword arguments and userdata of the running call (834-845) *)

Definition Wg_NewString (value : string) : M ptr :=
  let* c := get in
  let* v := h_call H (builtins c B_str) [] None in
  match v with
  | Some p =>
      let* o := deref p in
      let* _ := cast (Get_string o) in
      store p (set_data (DString value) o) >>
      ret (Some p)
  | None => ret None
  end.

(** The insertion loop of Wg_NewDictionary: each round adds a [Wg_ObjRef]
    on the dictionary, released when the function returns. *)
Fixpoint dict_insert_all (p : addr) (kvs : list (addr * addr)) : M bool :=
  match kvs with
  | [] => ret true
  | (k, v) :: kvs' =>
      Wg_ProtectObject p >>
      let* o := deref p in
      let* d := cast (Get_dict o) in
      let* d' := dict_insert host H d k v in
      let* ok :=
        match d' with
        | None => ret false
        | Some d'' =>
            let* o := deref p in
            store p (set_data (DDict d'') o) >>
            dict_insert_all p kvs'
        end in
      Wg_UnprotectObject p >>
      ret ok
  end.

(** Wg_NewDictionary (wings.cpp 375-408). *)
Definition Wg_NewDictionary (kvs : list (addr * addr)) : M ptr :=
  with_refs (flat_map (fun kv => [fst kv; snd kv]) kvs)
    (let* dummyKwargs := Alloc in
     match dummyKwargs with
     | None => ret None
     | Some dk =>
         let* o := deref dk in
         store dk (set_data (DDict []) (set_type "__map" o)) >>
         let* c := get in
         let* v := h_call H (builtins c B_dict) [] (Some dk) in
         match v with
         | Some p =>
             let* ok := dict_insert_all p kvs in
             if ok then ret (Some p) else ret None
         | None => ret None
         end
     end).

Definition Wg_GetKwargs : M ptr :=
  let* c := get in
  match kwargs c with
  | [] => crash AssertFailed
  | Some k :: _ => ret (Some k)
  | None :: rest =>
      let* d := Wg_NewDictionary [] in
      let* c := get in
      match kwargs c with
      | [] => crash OutOfRange
      | _ :: rest' => modify (set_kwargs (d :: rest')) >> ret d
      end
  end.

Definition Wg_GetFunctionUserdata : M voidp :=
  let* c := get in
  WG_ASSERT (negb (bool_decide (kwargs c = []))) >>
  match userdata c with
  | [] => crash OutOfRange
  | u :: _ => ret u
  end.

(** *** Raising (wings.cpp 1188-1291) *)

Definition Wg_RaiseExceptionObject (exception : addr) : M unit :=
  let* c := get in
  let* r := Wg_IsInstance exception [builtins c (B_exc WG_EXC_BASEEXCEPTION)] in
  match r with
  | Some _ =>
      modify (fun c => set_exception (Some exception) (currentTrace c)
                                     (traceMessage c) c)
  | None =>
      h_raise H WG_EXC_TYPEERROR "exceptions must derive from BaseException"
  end.

Definition Wg_RaiseExceptionClass (type_ : ptr) (message : string) : M unit :=
  let* t := nonnull type_ in
  with_refs [t]
    (let* msg := Wg_NewString message in
     match msg with
     | None => ret tt
     | Some m =>
         (* If exception creation was successful then set the exception.
            Otherwise the exception will already be set by some other code. *)
         let* exceptionObject := h_call H (Some t) [m] None in
         match exceptionObject with
         | Some e => Wg_RaiseExceptionObject e
         | None => ret tt
         end
     end).

Definition Wg_RaiseException (type_ : Wg_Exc) (message : string) : M unit :=
  let* c := get in
  Wg_RaiseExceptionClass (builtins c (B_exc type_)) message.

Definition Wg_RaiseArgumentCountError (given expected : Z) : M unit :=
  WG_ASSERT ((0 <=? given) && (-1 <=? expected)) >>
  let msg :=
    if negb (expected =? -1) then
      "Function takes " +:+ pretty expected +:+ " argument(s) but "
      +:+ pretty given +:+ (if given =? 1 then " was given" else " were given")
    else
      "function does not take " +:+ pretty given +:+ " argument(s)" in
  Wg_RaiseException WG_EXC_TYPEERROR msg.

(** Wg_RaiseAttributeError (1293-1298) and Wg_GetAttribute (707-716). *)
Definition Wg_RaiseAttributeError (obj : addr) (attribute : string) : M unit :=
  let* o := deref obj in
  let msg := "'" +:+ WObjTypeToString host o
             +:+ "' object has no attribute '" +:+ attribute +:+ "'" in
  Wg_RaiseException WG_EXC_ATTRIBUTEERROR msg.

Definition Wg_GetAttribute (obj : addr) (member : string) : M ptr :=
  WG_ASSERT (IsValidIdentifier host member) >>
  let* o := deref obj in
  let mem_ := Get (attributes o) member in
  match mem_ with
  | None => Wg_RaiseAttributeError obj member >> ret mem_
  | Some m => bind_method obj m >> ret mem_
  end.

(** *** The lambdas of Wg_NewClass (wings.cpp 502-576) *)

Definition userdata_obj (u : voidp) : M addr :=
  match u with
  | VObj p => ret p
  | VNull => crash NullDereference
  | VHost _ => crash BadCast
  end.

(** The construction function of a class (wings.cpp 519-547). It forwards
    to [__init__]. *)
Definition class_ctor (argv_ : list addr) : M ptr :=
  let* ud := Wg_GetFunctionUserdata in
  let* _classObj := userdata_obj ud in
  let* instance := Alloc in
  match instance with
  | None => ret None
  | Some inst =>
      with_refs [inst]
        (let* ko := deref _classObj in
         let* k := cast (Get_class ko) in
         let* io := deref inst in
         store inst (set_attributes (Copy (instanceAttributes k)) io) >>
         let* io := deref inst in
         store inst (set_type (name k) io) >>
         let* init := Wg_HasAttribute inst "__init__" in
         match init with
         | None => ret (Some inst)
         | Some i =>
             let* isfn := Wg_IsFunction init in
             if isfn then
               let* kw := Wg_GetKwargs in
               match kw with
               | None => ret None
               | Some _ =>
                   let* r := h_call H init argv_ kw in
                   match r with
                   | None => ret None
                   | Some _ =>
                       let* isnone := Wg_IsNone r in
                       if negb isnone then
                         Wg_RaiseException WG_EXC_TYPEERROR
                           "__init__() returned a non NoneType type" >>
                         ret None
                       else ret (Some inst)
                   end
               end
             else ret (Some inst)
         end)
  end.

(** The default [__init__] of a class (wings.cpp 550-576): it forwards to
    the [__init__] of the first base. *)
Definition class_init (argv_ : list addr) : M ptr :=
  let* ud := Wg_GetFunctionUserdata in
  let* klass := userdata_obj ud in
  match argv_ with
  | [] =>
      Wg_RaiseArgumentCountError 0 (-1) >> ret None
  | self_ :: rest =>
      let* ko := deref klass in
      let* k := cast (Get_class ko) in
      match bases k with
      | [] => ret None
      | base0 :: _ =>
          let* baseInit := Wg_GetAttributeFromBase self_ "__init__" (Some base0) in
          match baseInit with
          | None => gets (fun c => builtins c B_none)
          | Some _ =>
              let* kw := Wg_GetKwargs in
              match kw with
              | None => ret None
              | Some _ =>
                  let* r := h_call H baseInit rest kw in
                  match r with
                  | None => ret None
                  | Some _ =>
                      let* isnone := Wg_IsNone r in
                      if negb isnone then
                        Wg_RaiseException WG_EXC_TYPEERROR
                          "__init__() returned a non NoneType type" >>
                        ret None
                      else gets (fun c => builtins c B_none)
                  end
              end
          end
      end
  end.

(** The [__str__] of a class (wings.cpp 502-509). *)
Definition class_str (argv_ : list addr) : M ptr :=
  match argv_ with
  | [a] =>
      let* o := deref a in
      let* k := cast (Get_class o) in
      Wg_NewString ("<class '" +:+ name k +:+ "'>")
  | _ =>
      Wg_RaiseArgumentCountError (Z.of_nat (length argv_)) 1 >> ret None
  end.

(** The call through a function pointer. *)
Definition invoke (f : Fptr) (args : list addr) : M ptr :=
  match f with
  | ClassCtor => class_ctor args
  | ClassInit => class_init args
  | ClassStr => class_str args
  | NativeFn id => native host id H args
  end.

(** *** Calls (wings.cpp 847-936) *)

Definition Wg_CallMethod (obj : addr) (member : string) (argv_ : list addr)
  (kwargsDict : ptr) : M ptr :=
  WG_ASSERT (IsValidIdentifier host member) >>
  let* method := Wg_GetAttribute obj member in
  match method with
  | Some _ => h_call H method argv_ kwargsDict
  | None => ret None
  end.

(** The loop over the keys of the keyword dictionary: whether some key is
    not a string. *)
Fixpoint has_nonstring_key (d : list (addr * addr)) : M bool :=
  match d with
  | [] => ret false
  | (key, _) :: d' =>
      let* s := Wg_IsString (Some key) in
      if negb s then ret true else has_nonstring_key d'
  end.

(** The check of [kwargsDict]: the message of the TypeError to raise, if
    any. *)
Definition check_kwargs (kwargsDict : ptr) : M (option string) :=
  match kwargsDict with
  | None => ret None
  | Some kw =>
      let* isdict := Wg_IsDictionary kwargsDict in
      if negb isdict then ret (Some "Keyword arguments must be a dictionary")
      else
        let* ko := deref kw in
        let* d := cast (Get_dict ko) in
        let* bad := has_nonstring_key d in
        if bad then
          ret (Some "Keyword arguments dictionary must only contain string keys")
        else ret None
  end.

Definition push_call (module_ : string) (ud : voidp) (kw : ptr) (c : Wg_Context)
  : Wg_Context :=
  set_kwargs (kw :: kwargs c)
    (set_userdata (ud :: userdata c)
       (set_currentModule (module_ :: currentModule c) c)).

Definition pop_call (c : Wg_Context) : Wg_Context :=
  set_currentModule (tail (currentModule c))
    (set_userdata (tail (userdata c))
       (set_kwargs (tail (kwargs c)) c)).

Definition Wg_Call (callable : ptr) (argv_ : list addr) (kwargsDict : ptr)
  : M ptr :=
  let* callee := nonnull callable in
  let* co := deref callee in
  if IsFunction co || IsClass co then
    let* bad := check_kwargs kwargsDict in
    match bad with
    | Some msg => Wg_RaiseException WG_EXC_TYPEERROR msg >> ret None
    | None =>
        with_refs (callee :: argv_)
          (let* target :=
             if IsFunction co then
               let* func := cast (Get_func co) in
               modify (fun c =>
                 set_currentTrace
                   (MkFrame None "" (fn_module func) (prettyName func) false
                    :: currentTrace c) c) >>
               ret (fptr func, fn_userdata func, self func, fn_module func)
             else
               let* k := cast (Get_class co) in
               ret (ctor k, cls_userdata k, None, cls_module k) in
           let '(fptr_, userdata_, self_, module_) := target in
           with_refs (option_list self_)
             (modify (push_call module_ userdata_ kwargsDict) >>
              let* r := invoke fptr_ (option_list self_ ++ argv_) in
              modify pop_call >>
              let* isfn := Wg_IsFunction callable in
              (if isfn
               then modify (fun c => set_currentTrace (tail (currentTrace c)) c)
               else ret tt) >>
              ret r))
    end
  else Wg_CallMethod callee "__call__" argv_ None.

(** *** Iteration (wings.cpp 769-796) *)

(** The [while (true)] loop of Wg_Iterate; [callback] is the
    [Wg_IterationCallback] with its userdata. *)
Fixpoint Iterate_loop (n : nat) (iter : addr) (callback : addr -> M bool)
  : M bool :=
  match n with
  | O => exhausted
  | S n' =>
      let* yielded := Wg_CallMethod iter "__next__" [] None in
      let* exc := Wg_GetCurrentException in
      match exc with
      | Some e =>
          let* c := get in
          let* r := Wg_IsInstance e [builtins c (B_exc WG_EXC_STOPITERATION)] in
          match r with
          | Some _ => Wg_ClearCurrentException >> ret true
          | None => ret false
          end
      | None =>
          (* If no exception was thrown then a value must be yielded *)
          let* y := nonnull yielded in
          Wg_ProtectObject y >>
          let* continue_ := callback y in
          if negb continue_ then
            let* exc' := Wg_GetCurrentException in
            Wg_UnprotectObject y >>
            ret (bool_decide (exc' = None))
          else
            Wg_UnprotectObject y >>
            Iterate_loop n' iter callback
      end
  end.

Definition Wg_Iterate (obj : addr) (callback : addr -> M bool) : M bool :=
  let* iter := Wg_CallMethod obj "__iter__" [] None in
  match iter with
  | None => ret false
  | Some it => with_refs [it] (Iterate_loop fuel it callback)
  end.

(** *** Operators (wings.cpp 990-1115) *)

Definition Wg_UnaryOp (op : Wg_UnOp) (arg : addr) : M ptr :=
  let* c := get in
  match op with
  | WG_UOP_POS => Wg_CallMethod arg "__pos__" [] None
  | WG_UOP_NEG => Wg_CallMethod arg "__neg__" [] None
  | WG_UOP_BITNOT => Wg_CallMethod arg "__invert__" [] None
  | WG_UOP_HASH => Wg_Call (builtins c B_hash) [arg] None
  | WG_UOP_LEN => Wg_Call (builtins c B_len) [arg] None
  | WG_UOP_BOOL => Wg_Call (builtins c B_bool) [arg] None
  | WG_UOP_INT => Wg_Call (builtins c B_int) [arg] None
  | WG_UOP_FLOAT => Wg_Call (builtins c B_float) [arg] None
  | WG_UOP_STR => Wg_Call (builtins c B_str) [arg] None
  | WG_UOP_REPR => Wg_Call (builtins c B_repr) [arg] None
  | WG_UOP_INDEX =>
      let* index := Wg_CallMethod arg "__index__" [] None in
      match index with
      | None => ret None
      | Some _ =>
          let* isint := Wg_IsInt index in
          if negb isint then
            Wg_RaiseException WG_EXC_TYPEERROR
              "__index__() returned a non integer type" >>
            ret None
          else ret index
      end
  | WG_UOP_NOT => crash Unreachable
  end.

(** The comparison and [in] cases of Wg_BinaryOp (1074-1089). *)
Definition BinaryOp_bool (method : string) (lhs rhs : addr) : M ptr :=
  let* boolResult := Wg_CallMethod lhs method [rhs] None in
  let* isbool := Wg_IsBool boolResult in
  if negb isbool then
    let message := method +:+ "() returned a non bool type" in
    let* _ := nonnull boolResult in        (* boolResult->context *)
    Wg_RaiseException WG_EXC_TYPEERROR message >>
    ret None
  else ret boolResult.

(** Wg_BinaryOp: [WG_BOP_NOTIN] calls Wg_BinaryOp once more, with
    [WG_BOP_IN]; that call is written out. *)
Definition Wg_BinaryOp (op : Wg_BinOp) (lhs rhs : addr) : M ptr :=
  let '(lhs, rhs) :=
    match op with WG_BOP_IN => (rhs, lhs) | _ => (lhs, rhs) end in
  let method := OP_METHOD_NAMES op in
  match op with
  | WG_BOP_ADD | WG_BOP_SUB | WG_BOP_MUL | WG_BOP_DIV | WG_BOP_FLOORDIV
  | WG_BOP_MOD | WG_BOP_POW | WG_BOP_BITAND | WG_BOP_BITOR | WG_BOP_BITXOR
  | WG_BOP_SHL | WG_BOP_SHR =>
      let* m := cast method in
      Wg_CallMethod lhs m [rhs] None
  | WG_BOP_EQ | WG_BOP_NE | WG_BOP_LT | WG_BOP_LE | WG_BOP_GT | WG_BOP_GE
  | WG_BOP_IN =>
      let* m := cast method in
      BinaryOp_bool m lhs rhs
  | WG_BOP_NOTIN =>
      let* in_ := BinaryOp_bool "__contains__" rhs lhs in
      match in_ with
      | Some i => Wg_UnaryOp WG_UOP_NOT i
      | None => ret None
      end
  | WG_BOP_AND =>
      let* lhsb := Wg_UnaryOp WG_UOP_BOOL lhs in
      match lhsb with
      | None => ret None
      | Some _ =>
          let* b := Wg_GetBool lhsb in
          if negb b then ret lhsb else Wg_UnaryOp WG_UOP_BOOL rhs
      end
  | WG_BOP_OR =>
      let* lhsb := Wg_UnaryOp WG_UOP_BOOL lhs in
      match lhsb with
      | None => ret None
      | Some _ =>
          let* b := Wg_GetBool lhsb in
          if b then ret lhsb else Wg_UnaryOp WG_UOP_BOOL rhs
      end
  end.

(** *** Globals and modules (wings.cpp 131-273) *)

Definition current_globals : M (string * gmap string addr) :=
  let* c := get in
  match currentModule c with
  | [] => crash OutOfRange
  | module_ :: _ =>
      match globals c !! module_ with
      | None => crash OutOfRange
      | Some g => ret (module_, g)
      end
  end.

Definition Wg_GetGlobal (name_ : string) : M ptr :=
  WG_ASSERT (IsValidIdentifier host name_) >>
  let* mg := current_globals in
  ret (snd mg !! name_).

Definition Wg_SetGlobal (name_ : string) (value : addr) : M unit :=
  WG_ASSERT (IsValidIdentifier host name_) >>
  let* mg := current_globals in
  modify (fun c =>
    set_globals (<[fst mg := <[name_ := value]> (snd mg)]> (globals c)) c).

Definition Wg_RegisterModule (name_ : string) (l : N) : M unit :=
  WG_ASSERT (IsValidIdentifier host name_) >>
  modify (fun c =>
    match moduleLoaders c !! name_ with
    | Some _ => c
    | None => set_moduleLoaders (<[name_ := l]> (moduleLoaders c)) c
    end).

Definition LoadFileModule (module_ : string) : M bool :=
  let* c := get in
  let path := importPath c +:+ module_ +:+ ".py" in
  match ReadFromFile host path with
  | None =>
      Wg_RaiseException WG_EXC_IMPORTERROR
        ("No module named '" +:+ module_ +:+ "'") >>
      ret false
  | Some source =>
      let* fn := Compile host source module_ module_ false in
      match fn with
      | None => ret false
      | Some _ =>
          let* r := Wg_Call fn [] None in
          ret (bool_decide (r <> None))
      end
  end.

(** LoadModule (wings.cpp 191-214). *)
Definition LoadModule (name_ : string) : M bool :=
  let* c := get in
  match globals c !! name_ with
  | Some _ => ret true
  | None =>
      modify (fun c =>
        set_currentModule (name_ :: currentModule c)
          (set_globals (<[name_ := ∅]> (globals c)) c)) >>
      (if negb (String.eqb name_ "__builtins__")
       then let* _ := h_importAll H "__builtins__" in ret tt
       else ret tt) >>
      let* c := get in
      let* success :=
        match moduleLoaders c !! name_ with
        | Some l => loader host l H
        | None => LoadFileModule name_
        end in
      modify (fun c => set_currentModule (tail (currentModule c)) c) >>
      if negb success then
        modify (fun c => set_globals (delete name_ (globals c)) c) >>
        ret false
      else ret true
  end.

Fixpoint SetGlobal_all (vars : list (string * addr)) : M unit :=
  match vars with
  | [] => ret tt
  | (var, val) :: vars' => Wg_SetGlobal var val >> SetGlobal_all vars'
  end.

Definition Wg_ImportAllFromModule (module_ : string) : M bool :=
  WG_ASSERT (IsValidIdentifier host module_) >>
  let* ok := LoadModule module_ in
  if negb ok then ret false
  else
    let* c := get in
    match globals c !! module_ with
    | None => crash OutOfRange
    | Some mod_ => SetGlobal_all (map_to_list mod_) >> ret true
    end.

End Layer.

(** *** The levels

    [level host n] holds the runtime functions with [n] levels of calls
    below them; at level 0 every call back exhausts the fuel. *)
Definition bottom : Handles :=
  MkHandles (fun _ _ _ => exhausted) (fun _ _ => exhausted) (fun _ => exhausted).

Fixpoint level (host : Host) (n : nat) : Handles :=
  match n with
  | O => bottom
  | S n' =>
      MkHandles (Wg_Call host n' (level host n'))
                (Wg_RaiseException host n' (level host n'))
                (Wg_ImportAllFromModule host n' (level host n'))
  end.

(** ** Reachability, as the specification states it *)

Definition arena (c : Wg_Context) : list addr := map fst (mem c).

(** The roots of a collection. *)
Inductive root (c : Wg_Context) (r : addr) : Prop :=
| root_exception : currentException c = Some r -> root c r
| root_protected : is_Some (protectedObjects c !! r) -> root c r
| root_global (module_ : string) (g : gmap string addr) (var : string) :
    globals c !! module_ = Some g -> g !! var = Some r -> root c r
| root_kwargs : In (Some r) (kwargs c) -> root c r
| root_builtin (b : Builtin) : builtins c b = Some r -> root c r
| root_argv : argv c = Some r -> root c r.

(** The traversal edges [a -> b] over the arena [m]. *)
Inductive edge (m : list (addr * Wg_Obj)) (a b : addr) : Prop :=
| edge_element (o : Wg_Obj) (v : list addr) :
    lookup_obj m a = Some o -> IsTuple o || IsList o = true ->
    data o = DVector v -> In b v -> edge m a b
| edge_key (o : Wg_Obj) (d : list (addr * addr)) (x : addr) :
    lookup_obj m a = Some o -> IsDictionary o = true ->
    data o = DDict d -> In (b, x) d -> edge m a b
| edge_value (o : Wg_Obj) (d : list (addr * addr)) (k : addr) :
    lookup_obj m a = Some o -> IsDictionary o = true ->
    data o = DDict d -> In (k, b) d -> edge m a b
| edge_set_element (o : Wg_Obj) (s : list addr) :
    lookup_obj m a = Some o -> IsSet o = true ->
    data o = DSet s -> In b s -> edge m a b
| edge_self (o : Wg_Obj) (f : Func) :
    lookup_obj m a = Some o -> IsFunction o = true ->
    data o = DFunc f -> self f = Some b -> edge m a b
| edge_base (o : Wg_Obj) (k : Class) :
    lookup_obj m a = Some o -> IsClass o = true ->
    data o = DClass k -> In b (bases k) -> edge m a b
| edge_template (o : Wg_Obj) (k : Class) (n : string) :
    lookup_obj m a = Some o -> IsClass o = true ->
    data o = DClass k -> In (n, b) (entries (instanceAttributes k)) -> edge m a b
| edge_attribute (o : Wg_Obj) (n : string) :
    lookup_obj m a = Some o -> In (n, b) (entries (attributes o)) -> edge m a b
| edge_reference (o : Wg_Obj) :
    lookup_obj m a = Some o -> In b (references o) -> edge m a b.

Inductive reachable (c : Wg_Context) : addr -> Prop :=
| reach_root (r : addr) : root c r -> reachable c r
| reach_edge (a b : addr) :
    reachable c a -> edge (mem c) a b -> reachable c b.

(** The fuel that suffices for a collection: one round per pointer pushed. *)
Definition fanout (o : Wg_Obj) : nat :=
  match children o with Some l => length l | None => O end.

Definition weight (m : list (addr * Wg_Obj)) (traversed : gset addr) : nat :=
  fold_right (fun po n =>
                if decide (fst po ∈ traversed) then n
                else (fanout (snd po) + n)%nat) O m.

Definition gc_bound (c : Wg_Context) : nat :=
  (length (roots c) + weight (mem c) ∅)%nat.

(** The arena is closed and its data are what the types say: every root
    and every pointer held by a live object is a live object, and
    [children] reads every object. *)
Definition in_arena (m : list (addr * Wg_Obj)) (p : addr) : bool :=
  match lookup_obj m p with Some _ => true | None => false end.

Definition heap_ok (c : Wg_Context) : bool :=
  forallb (in_arena (mem c)) (roots c)
  && forallb (fun po =>
                match children (snd po) with
                | Some l => forallb (in_arena (mem c)) l
                | None => false
                end) (mem c).

(** ** Instances, as the specification states them *)

(** The direct bases of a class: the elements of the tuple its
    [__bases__] attribute names. *)
Definition bases_of (m : list (addr * Wg_Obj)) (k : addr) : list addr :=
  match lookup_obj m k with
  | Some o =>
      match Get (attributes o) "__bases__" with
      | Some b =>
          match lookup_obj m b with
          | Some bo =>
              if IsTuple bo
              then match Get_vector bo with Some v => v | None => [] end
              else []
          | None => []
          end
      | None => []
      end
  | None => []
  end.

(** [subclass m k t]: [t] is [k] or is reached from [k] through bases. *)
Inductive subclass (m : list (addr * Wg_Obj)) : addr -> addr -> Prop :=
| subclass_refl (k : addr) : subclass m k k
| subclass_step (k b t : addr) :
    In b (bases_of m k) -> subclass m b t -> subclass m k t.

(** [instance_of m v t]: the Value [v] is an instance of the class [t],
    directly or through the bases of its class. *)
Definition instance_of (m : list (addr * Wg_Obj)) (v t : addr) : Prop :=
  exists o k,
    lookup_obj m v = Some o
    /\ Get (attributes o) "__class__" = Some k
    /\ subclass m k t.

(** A component of the context that neither the arena nor the protection
    multiset is part of. *)
Definition outside_protection {X : Type} (f : Wg_Context -> X) : Prop :=
  forall p c, f (set_protectedObjects p c) = f c.

Definition outside_heap {X : Type} (f : Wg_Context -> X) : Prop :=
  (forall m c, f (set_mem m c) = f c) /\ outside_protection f.

(** ** Iteration, as the specification states it *)

(** [rounds k c c']: [k] rounds of the loop of Wg_Iterate take the state
    [c] to [c']; in each, [__next__] yields a value and leaves no
    exception, and the callback asks to go on. *)
Inductive rounds (host : Host) (fuel : nat) (H : Handles) (iter : addr)
  (callback : addr -> M bool) : nat -> Wg_Context -> Wg_Context -> Prop :=
| rounds_done (c : Wg_Context) : rounds host fuel H iter callback O c c
| rounds_next (k : nat) (c c1 c2 c3 c' : Wg_Context) (y : addr) :
    Wg_CallMethod host fuel H iter "__next__" [] None c = Done (Some y, c1) ->
    currentException c1 = None ->
    callback y (protect y c1) = Done (true, c2) ->
    Wg_UnprotectObject y c2 = Done (tt, c3) ->
    rounds host fuel H iter callback k c3 c' ->
    rounds host fuel H iter callback (S k) c c'.

(** ** Construction, as the specification states it *)

(** The raw instance of a class: the tag is the class name and the
    attribute table a copy of the instance-attribute template. *)
Definition new_instance (k : Class) : Wg_Obj :=
  MkObj (name k) DNull (Copy (instanceAttributes k)) (MkFinalizer None VNull) [].

(** The state in which the constructor looks up [__init__]: the instance
    is in the arena at [inst], held by a [Wg_ObjRef]. *)
Definition with_instance (inst : addr) (k : Class) (c : Wg_Context) : Wg_Context :=
  set_mem (replace_obj (mem c) inst (new_instance k)) (protect inst c).

(** ** Attribute lookup, as the specification states it *)

(** The three lookups that bind a method. *)
Inductive Lookup : Type :=
| ByHasAttribute
| ByGetAttribute
| ByGetAttributeFromBase (baseClass : ptr).

Definition run_lookup (host : Host) (fuel : nat) (H : Handles) (l : Lookup)
  (obj : addr) (member : string) : M ptr :=
  match l with
  | ByHasAttribute => Wg_HasAttribute host obj member
  | ByGetAttribute => Wg_GetAttribute host fuel H obj member
  | ByGetAttributeFromBase b => Wg_GetAttributeFromBase host obj member b
  end.

(** The Value the attribute tables resolve [member] to, before any
    binding: on the receiver, or on its parents, or on the template of a
    base class. *)
Definition resolve (l : Lookup) (m : list (addr * Wg_Obj)) (obj : addr)
  (member : string) : ptr :=
  match l with
  | ByHasAttribute | ByGetAttribute =>
      match lookup_obj m obj with
      | Some o => Get (attributes o) member
      | None => None
      end
  | ByGetAttributeFromBase None =>
      match lookup_obj m obj with
      | Some o => GetFromBase (attributes o) member
      | None => None
      end
  | ByGetAttributeFromBase (Some b) =>
      match lookup_obj m b with
      | Some bo =>
          match Get_class bo with
          | Some k => Get (instanceAttributes k) member
          | None => None
          end
      | None => None
      end
  end.

(** The Function [mo] bound to the receiver [obj]. *)
Definition bound_to (obj : addr) (f : Func) (mo : Wg_Obj) : Wg_Obj :=
  set_data (DFunc (set_self (Some obj) f)) mo.

(** ** The call of a Function, in two halves

    The state in which Wg_Call runs the function pointer of a Function,
    and what it does with the result. *)

Definition protect_list (objs : list addr) (c : Wg_Context) : Wg_Context :=
  fold_left (fun c o => protect o c) objs c.

Definition enter_call (callee : addr) (func : Func) (argv_ : list addr)
  (kw : ptr) (c : Wg_Context) : Wg_Context :=
  let c1 := protect_list (callee :: argv_) c in
  let frame := MkFrame None "" (fn_module func) (prettyName func) false in
  push_call (fn_module func) (fn_userdata func) kw
    (protect_list (option_list (self func))
       (set_currentTrace (frame :: currentTrace c1) c1)).

Definition leave_call (callee : addr) (func : Func) (argv_ : list addr)
  (r : ptr) : M ptr :=
  modify pop_call >>
  let* isfn := Wg_IsFunction (Some callee) in
  (if isfn
   then modify (fun c => set_currentTrace (tail (currentTrace c)) c)
   else ret tt) >>
  unprotect_all (option_list (self func)) >>
  unprotect_all (callee :: argv_) >>
  ret r.

(** The trace depth a call would reach, against the configured bound. *)
Definition depth_exceeded (c : Wg_Context) : Prop :=
  Z.of_nat (length (currentTrace c)) + 1 > maxRecursion (config c).

(** What a caller observes of a run: the value returned and the exception
    left pending. *)
Definition observe {A : Type} (r : result (A * Wg_Context)) : result (A * ptr) :=
  match r with
  | Done (a, c) => Done (a, currentException c)
  | Crashed f => Crashed f
  | Exhausted => Exhausted
  end.

(** The state a run ends in ([c] itself when the run does not return). *)
Definition final {A : Type} (r : result (A * Wg_Context)) (c : Wg_Context)
  : Wg_Context :=
  match r with
  | Done (_, c') => c'
  | _ => c
  end.

(** ** Module loading, in two halves

    The state in which LoadModule runs the loader of a module that is not
    loaded yet, and the loader run itself (the import of the builtins into
    the new module, then the registered loader or the file). *)
Definition enter_module (name_ : string) (c : Wg_Context) : Wg_Context :=
  set_currentModule (name_ :: currentModule c)
    (set_globals (<[name_ := ∅]> (globals c)) c).

Definition run_loader (host : Host) (fuel : nat) (H : Handles) (name_ : string)
  : M bool :=
  (if negb (String.eqb name_ "__builtins__")
   then let* _ := h_importAll H "__builtins__" in ret tt
   else ret tt) >>
  let* c := get in
  match moduleLoaders c !! name_ with
  | Some l => loader host l H
  | None => LoadFileModule host fuel H name_
  end.

Definition leave_module (c : Wg_Context) : Wg_Context :=
  set_currentModule (tail (currentModule c)) c.

Definition unregister (name_ : string) (c : Wg_Context) : Wg_Context :=
  set_globals (delete name_ (globals c)) c.

(** ** Invariants of the proofs *)

(** The invariant of the marking loop: an edge out of a traversed object
    leads to a traversed object or to a pending one. *)
Definition covered (m : list (addr * Wg_Obj)) (traversed : gset addr)
  (inUse : list addr) : Prop :=
  forall a b, a ∈ traversed -> edge m a b -> b ∈ traversed \/ In b inUse.

(** [keeps f m]: a run of [m] that returns leaves the component [f] of
    the context as it was. *)
Definition keeps {A X : Type} (f : Wg_Context -> X) (m : M A) : Prop :=
  forall c a c', m c = Done (a, c') -> f c' = f c.

(** ** Concrete contexts

    Small contexts on which the definitions are evaluated. *)

Module Examples.

Definition no_builtins : Builtin -> ptr := fun _ => None.

Definition default_config : Wg_Config :=
  MkConfig 100000 100 1000000000 (2 # 1) false false.

Definition empty_context : Wg_Context :=
  {| config := default_config;
     currentModule := ["__main__"];
     globals := {[ "__main__" := ∅ ]};
     moduleLoaders := ∅;
     importPath := "";
     builtins := no_builtins;
     kwargs := [];
     userdata := [];
     currentTrace := [];
     exceptionTrace := [];
     currentException := None;
     traceMessage := "";
     mem := [];
     protectedObjects := ∅;
     argv := None;
     lastObjectCountAfterGC := 0;
     finalized := [] |}.

Definition obj (t : string) (d : Data) : Wg_Obj :=
  MkObj t d empty_table (MkFinalizer None VNull) [].

(** The scenario [d = {}; d["k"] = d]: a dictionary (2) that holds itself
    under the key "k" (3) and is bound to the global [d]; a list (4) that
    holds itself and nothing refers to, with a finalizer. *)
Definition cyclic_arena : list (addr * Wg_Obj) :=
  [ (1%positive, obj "__null" DNull);
    (2%positive, obj "__map" (DDict [(3%positive, 2%positive)]));
    (3%positive, obj "__str" (DString "k"));
    (4%positive, MkObj "__list" (DVector [4%positive]) empty_table
                   (MkFinalizer (Some (FinHost 0)) VNull) []) ].

Definition set_builtins (b : Builtin -> ptr) (c : Wg_Context) : Wg_Context :=
  MkContext (config c) (currentModule c) (globals c) (moduleLoaders c)
    (importPath c) b (kwargs c) (userdata c) (currentTrace c)
    (exceptionTrace c) (currentException c) (traceMessage c) (mem c)
    (protectedObjects c) (argv c) (lastObjectCountAfterGC c) (finalized c).

Definition only_none : Builtin -> ptr :=
  fun b => match b with B_none => Some 1%positive | _ => None end.

Definition cyclic_context : Wg_Context :=
  set_builtins only_none
    (set_globals {[ "__main__" := {[ "d" := 2%positive ]} ]}
       (set_mem cyclic_arena empty_context)).

End Examples.

(** A context with the builtin classes a run needs ([str], [dict], the
    exception classes built the way Wg_NewClass builds a class), a few
    functions of the host, and objects that use them. *)
Module World.


Definition is_ident_start (a : Ascii.ascii) : bool :=
  let n := Ascii.nat_of_ascii a in
  ((65 <=? n) && (n <=? 90) || (97 <=? n) && (n <=? 122) || (n =? 95))%nat.

Definition is_ident_char (a : Ascii.ascii) : bool :=
  let n := Ascii.nat_of_ascii a in
  (is_ident_start a || (48 <=? n) && (n <=? 57))%nat.

Fixpoint all_ident_chars (s : string) : bool :=
  match s with
  | EmptyString => true
  | String a s' => is_ident_char a && all_ident_chars s'
  end.

Definition is_identifier (s : string) : bool :=
  match s with
  | EmptyString => false
  | String a s' => is_ident_start a && all_ident_chars s'
  end.

Local Open Scope positive_scope.

(** A constructor of a builtin class: a fresh Value with the given tag and
    data. *)
Definition new_object (H : Handles) (t : string) (d : Data) : M ptr :=
  let* p := Alloc 10%nat H in
  match p with
  | Some a =>
      let* o := deref a in
      store a (set_data d (set_type t o)) >> ret (Some a)
  | None => ret None
  end.

(** [__next__] of an iterator that holds the elements still to come: it
    hands out the first one, or raises StopIteration when none is left. *)
Definition next_element (H : Handles) (args : list addr) : M ptr :=
  match args with
  | [self_] =>
      let* o := deref self_ in
      let* v := cast (Get_vector o) in
      match v with
      | [] => h_raise H WG_EXC_STOPITERATION "" >> ret None
      | x :: rest => store self_ (set_data (DVector rest) o) >> ret (Some x)
      end
  | _ => h_raise H WG_EXC_TYPEERROR "" >> ret None
  end.

Definition native_fn (id : N) (H : Handles) (args : list addr) : M ptr :=
  match id with
  | 0%N => gets (fun c => builtins c B_none)
  | 1%N => new_object H "__str" (DString "")
  | 2%N => new_object H "__map" (DDict [])
  | 3%N => h_raise H WG_EXC_STOPITERATION "" >> ret None
  | 4%N => ret (head args)
  | 5%N => h_raise H WG_EXC_VALUEERROR "boom" >> ret None
  | 6%N => next_element H args
  | _ => crash Unreachable
  end.

Definition loader_fn (id : N) (H : Handles) : M bool :=
  match id with
  | 0%N => ret true
  | _ => h_raise H WG_EXC_IMPORTERROR "broken" >> ret false
  end.

Definition host : Host :=
  {| IsValidIdentifier := is_identifier;
     WObjTypeToString := type;
     native := native_fn;
     loader := loader_fn;
     ReadFromFile := fun _ => None;
     Compile := fun _ _ _ _ => ret None;
     dict_insert := fun _ d k v => ret (Some (d ++ [(k, v)])%list) |}.

Definition plain (t : string) (d : Data) : Wg_Obj :=
  MkObj t d empty_table (MkFinalizer None VNull) [].

Definition with_attrs (t : string) (d : Data) (es : list (string * addr)) : Wg_Obj :=
  MkObj t d (MkTable es []) (MkFinalizer None VNull) [].

Definition function_obj (f : N) (method : bool) (n : string) : Wg_Obj :=
  plain "__func" (DFunc (MkFunc None (NativeFn f) VNull method "__main__" n)).

Definition builtin_class (n : string) (f : N) : Wg_Obj :=
  plain "__class" (DClass (MkClass n [] empty_table (NativeFn f) VNull "__builtins__")).

(** A class as Wg_NewClass builds it: the template names the class, the
    class stores itself as the userdata of its constructor, and
    [__bases__] is a tuple. *)
Definition template (self_ : addr) (es : list (string * addr))
  (ps : list AttributeTable) : AttributeTable :=
  MkTable (("__class__", self_) :: es) ps.

Definition class_obj (self_ : addr) (n : string) (bs : list addr)
  (tmpl : AttributeTable) (bases_tuple : addr) : Wg_Obj :=
  with_attrs "__class"
    (DClass (MkClass n bs tmpl ClassCtor (VObj self_) "__main__"))
    [("__bases__", bases_tuple)].

Definition base_template : AttributeTable := template 20 [] [].

Definition arena0 : list (addr * Wg_Obj) :=
  [ (1, plain "__null" DNull);
    (2, plain "__bool" (DBool true));
    (3, plain "__bool" (DBool false));
    (10, builtin_class "str" 1%N);
    (11, builtin_class "dict" 2%N);
    (20, class_obj 20 "BaseException" [] base_template 30);
    (21, class_obj 21 "TypeError" [20]
                    (template 21 [] [base_template]) 31);
    (22, class_obj 22 "StopIteration" [20]
                    (template 22 [] [base_template]) 31);
    (23, class_obj 23 "ValueError" [20]
                    (template 23 [] [base_template]) 31);
    (24, class_obj 24 "AttributeError" [20]
                    (template 24 [] [base_template]) 31);
    (25, class_obj 25 "ImportError" [20]
                    (template 25 [] [base_template]) 31);
    (30, plain "__tuple" (DVector []));
    (31, plain "__tuple" (DVector [20]));
    (40, function_obj 0%N false "f");
    (41, function_obj 3%N true "__next__");
    (42, function_obj 4%N true "__iter__");
    (43, function_obj 5%N true "__eq__");
    (44, function_obj 0%N true "__call__");
    (45, function_obj 4%N true "__init__");
    (50, with_attrs "range_iterator" DNull
                    [("__iter__", 42); ("__next__", 41)]);
    (51, with_attrs "Callable" DNull [("__call__", 44)]);
    (52, plain "__int" (DInt 7%Z));
    (53, with_attrs "Broken" DNull [("__eq__", 43)]);
    (46, function_obj 6%N true "__next__");
    (47, function_obj 0%N true "__init__");
    (54, class_obj 54 "Widget" []
                    (template 54 [("__init__", 45)] []) 30);
    (55, class_obj 55 "Point" [] (template 55 [] []) 30);
    (56, with_attrs "list_iterator" (DVector [52; 60])
           [("__iter__", 42); ("__next__", 46)]);
    (57, class_obj 57 "Gadget" []
           (template 57 [("__init__", 47)] []) 30);
    (60, plain "__str" (DString "oops"));
    (61, MkObj "ValueError" DNull (template 23 [] [base_template])
                    (MkFinalizer None VNull) []) ].

Definition builtins0 (b : Builtin) : ptr :=
  match b with
  | B_none => Some 1
  | B_true => Some 2
  | B_false => Some 3
  | B_str => Some 10
  | B_dict => Some 11
  | B_exc WG_EXC_BASEEXCEPTION => Some 20
  | B_exc WG_EXC_TYPEERROR => Some 21
  | B_exc WG_EXC_STOPITERATION => Some 22
  | B_exc WG_EXC_VALUEERROR => Some 23
  | B_exc WG_EXC_ATTRIBUTEERROR => Some 24
  | B_exc WG_EXC_IMPORTERROR => Some 25
  | _ => None
  end.

Definition context0 : Wg_Context :=
  {| config := MkConfig 100000%Z 100%Z 1000000000%Z (2 # 1)%Q false false;
     currentModule := ["__main__"];
     globals := {[ "__main__" := ∅; "__builtins__" := ∅ ]};
     moduleLoaders := {[ "good" := 0%N; "bad" := 1%N ]};
     importPath := "";
     builtins := builtins0;
     kwargs := [];
     userdata := [];
     currentTrace := [];
     exceptionTrace := [];
     currentException := None;
     traceMessage := "";
     mem := arena0;
     protectedObjects := ∅;
     argv := None;
     lastObjectCountAfterGC := 1000%nat;
     finalized := [] |}.

(** Three calls deep, with [maxRecursion] 2. *)
Definition deep_context : Wg_Context :=
  set_currentTrace
    [ MkFrame None "" "__main__" "h" false;
      MkFrame None "" "__main__" "g" false;
      MkFrame None "" "__main__" "f" false ]
    (set_config (MkConfig 100000%Z 2%Z 1000000000%Z (2 # 1)%Q false false)
       context0).

(** Inside the call of the class [klass]: Wg_Call has pushed the class as
    the userdata and the keyword arguments [kw] of the call. *)
Definition constructing (klass : addr) (kw : ptr) : Wg_Context :=
  push_call "__main__" (VObj klass) kw context0.

End World.

(** * Further definitions *)

(** How many times [x] is protected: the reference count that
    Wg_ProtectObject and Wg_UnprotectObject keep for it. *)
Definition protection (c : Wg_Context) (x : addr) : nat :=
  match protectedObjects c !! x with
  | Some n => Pos.to_nat n
  | None => O
  end.

Definition one_if (b : bool) : nat := if b then 1%nat else 0%nat.

(** A context with a library module that is loaded. *)
Definition with_library : Wg_Context :=
  set_globals
    (<["lib" := {[ "answer" := 52%positive; "f" := 40%positive ]}]>
       (<["__main__" := {[ "f" := 1%positive; "g" := 2%positive ]}]>
          (globals World.context0)))
    World.context0.

(** [same_frames c c']: the stacks of the running calls (module, userdata,
    keyword arguments, trace) and the protection counts are the same in
    both states. *)
Definition same_frames (c c' : Wg_Context) : Prop :=
  currentModule c' = currentModule c
  /\ userdata c' = userdata c
  /\ kwargs c' = kwargs c
  /\ currentTrace c' = currentTrace c
  /\ protectedObjects c' = protectedObjects c.

(** *** Linked references (wings.cpp 1434-1448) *)

Definition set_references (r : list addr) (o : Wg_Obj) : Wg_Obj :=
  MkObj (type o) (data o) (attributes o) (finalizer o) r.

(** [v.erase(std::find(v.begin(), v.end(), x))]: the first occurrence goes. *)
Fixpoint erase_first (x : addr) (l : list addr) : list addr :=
  match l with
  | [] => []
  | y :: l' => if Pos.eqb y x then l' else y :: erase_first x l'
  end.

Definition Wg_LinkReference (parent child : ptr) : M unit :=
  let* p := nonnull parent in
  let* ch := nonnull child in
  let* o := deref p in
  store p (set_references (references o ++ [ch]) o).

Definition Wg_UnlinkReference (parent child : ptr) : M unit :=
  let* p := nonnull parent in
  let* ch := nonnull child in
  let* o := deref p in
  WG_ASSERT (existsb (Pos.eqb ch) (references o)) >>
  store p (set_references (erase_first ch (references o)) o).

(** ** The string methods of the builtin library (part_000) *)

Module StrBuiltins.
Import Stdlib.Strings.Ascii.

(** What a method of the library raises: the helpers that format the
    message ([SetInvalidArgumentCountError], [SetInvalidTypeError]) by
    name, and [WRaiseError] with its message. *)
Inductive Raise : Type :=
| InvalidArgumentCount (given expected : Z)
| InvalidType (paramIndex : nat) (expected : string)
| Error (message : string).

Inductive Res (A : Type) : Type :=
| Ok (a : A)
| Raises (r : Raise).
Arguments Ok {A} a.
Arguments Raises {A} r.

(** The bases [Str_Int] distinguishes; the lambdas [isDigit] and
    [digitValueOf] are unreachable on any other. *)
Inductive Base : Type := Base2 | Base8 | Base10 | Base16.

Definition radix (b : Base) : Z :=
  match b with Base2 => 2 | Base8 => 8 | Base10 => 10 | Base16 => 16 end.

Definition code (c : Ascii.ascii) : Z := Z.of_N (Ascii.N_of_ascii c).

Definition within (lo hi c : Ascii.ascii) : bool :=
  (code lo <=? code c) && (code c <=? code hi).

Definition isDigit (c : Ascii.ascii) (base : Base) : bool :=
  match base with
  | Base2 => within "0"%char "1"%char c
  | Base8 => within "0"%char "7"%char c
  | Base10 => within "0"%char "9"%char c
  | Base16 => within "0"%char "9"%char c || within "a"%char "f"%char c || within "A"%char "F"%char c
  end.

Definition digitValueOf (c : Ascii.ascii) (base : Base) : Z :=
  match base with
  | Base2 | Base8 | Base10 => code c - code "0"%char
  | Base16 =>
      if within "0"%char "9"%char c then code c - code "0"%char
      else if within "a"%char "f"%char c then code c - code "a"%char + 10
      else code c - code "A"%char + 10
  end.

(** [uintmax_t]: 64 bits, unsigned; [wuint] is the unsigned counterpart of
    [wint]. *)
Definition uintmax_wrap (z : Z) : Z := z mod 2 ^ 64.
Definition wuint_max : Z := 2 ^ IntBuiltins.wint_bits - 1.

(** The test of [*p] on the C string: the end of the string, or a NUL
    inside it. *)
Definition at_end (p : string) : bool :=
  match p with
  | EmptyString => true
  | String c _ => code c =? 0
  end.

(** The digit loop: it advances while the string has not ended and the
    character is a digit of the base; the value read and the rest of the
    string. *)
Fixpoint read_digits (base : Base) (p : string) (value : Z) : Z * string :=
  match p with
  | EmptyString => (value, p)
  | String c p' =>
      if negb (at_end p) && isDigit c base
      then read_digits base p'
             (uintmax_wrap (radix base * value + digitValueOf c base))
      else (value, p)
  end.

(** The base a string announces: a leading zero is followed by [b], [x] or
    an octal number. *)
Definition announced_base (p : string) : Base :=
  match p with
  | String "0"%char rest =>
      match rest with
      | String "b"%char _ | String "B"%char _ => Base2
      | String "x"%char _ | String "X"%char _ => Base16
      | _ => Base8
      end
  | _ => Base10
  end.

Definition drop2 (p : string) : string :=
  match p with
  | String _ (String _ r) => r
  | _ => EmptyString
  end.

Definition starts_with_digit (p : string) (base : Base) : bool :=
  match p with
  | String c _ => isDigit c base
  | EmptyString => false
  end.

(** Str_Int (part_000, lines 778-852). *)
Definition Str_Int {F : Type} (argv : list (IntBuiltins.WObj F))
  : Res (IntBuiltins.WObj F) :=
  match argv with
  | [a0] =>
      match a0 with
      | IntBuiltins.WString s =>
          let base := announced_base s in
          let prefixed := match base with Base2 | Base16 => true | _ => false end in
          let p := if prefixed then drop2 s else s in
          if prefixed && negb (starts_with_digit p base) then
            Raises (Error (match base with
                           | Base2 => "Invalid binary string"
                           | _ => "Invalid hexadecimal string"
                           end))
          else
            let '(value, rest) := read_digits base p 0 in
            if value >? wuint_max then Raises (Error "Integer string is too large")
            else
              if negb (at_end rest) then Raises (Error "Invalid integer string")
              else Ok (IntBuiltins.WInt (IntBuiltins.wint_wrap value))
      | _ => Raises (InvalidType 0 "str")
      end
  | _ => Raises (InvalidArgumentCount (Z.of_nat (length argv)) 1)
  end.

(** [std::to_string] of an integer: the decimal digits, with a minus sign
    for a negative number. *)
Definition to_string (i : Z) : string := pretty i.

End StrBuiltins.

(** ** The list methods of the builtin library (part_000) *)

Module ListBuiltins.

(** The payload of a [WObj] as the list methods see it: the [Type] tag
    and, for a list or a tuple, the vector [v] of element pointers. *)
Inductive WObj : Type :=
| Int (i : Z)
| List (v : list addr)
| Tuple (v : list addr)
| Other.

(** The objects the pointers of [argv] point to. The methods change a list
    in place, so two pointers to one list see the same elements. *)
#[warnings="-notation-for-abbreviation"] Notation Heap := (gmap addr WObj).

Inductive Raise : Type :=
| InvalidArgumentCount (given expected : Z)   (* expected = -1: not given *)
| InvalidType (paramIndex : nat) (expected : string)
| IndexOutOfRange (paramIndex : nat).

(** What a method hands back: the pointer it returns with the heap it
    leaves, null with the error it raised (every raise of these methods
    comes before the first change), or undefined behaviour: a read past
    the end of [argv] or through a pointer that is not to an object. *)
Inductive Res : Type :=
| Ok (r : addr) (h : Heap)
| Raises (e : Raise)
| Undefined.

(** [size_t]: 64 bits, unsigned. *)
Definition size_wrap (z : Z) : Z := z mod 2 ^ 64.

Definition size (v : list addr) : Z := Z.of_nat (length v).

(** ConvertNegativeIndex (part_000, lines 87-93). *)
Definition ConvertNegativeIndex (index size : Z) : Z :=
  if index <? 0 then size_wrap (size + index) else index.

(** [std::vector::insert] before the position and [erase] at it. *)
Definition vector_insert (k : nat) (x : addr) (v : list addr) : list addr :=
  take k v ++ x :: drop k v.
Definition vector_erase (k : nat) (v : list addr) : list addr :=
  take k v ++ drop (S k) v.

Definition argc (argv : list addr) : Z := Z.of_nat (length argv).

Section Methods.
(** The slice branch of TupleList_GetItem (lines 973-1045): it reads the
    attributes start, stop and step and creates a list. *)
Variable slice : list addr -> Heap -> Res.

(** TupleList_GetItem (part_000, lines 958-1046). *)
Definition TupleList_GetItem (IsList : bool) (argv : list addr) (h : Heap)
  : Res :=
  match argv with
  | [a0; a1] =>
      match h !! a0 with
      | None => Undefined
      | Some o0 =>
          match (if IsList then match o0 with List v => Some v | _ => None end
                 else match o0 with Tuple v => Some v | _ => None end) with
          | None => Raises (InvalidType 0 (if IsList then "list" else "tuple"))
          | Some v =>
              match h !! a1 with
              | None => Undefined
              | Some (Int i) =>
                  let listIndex := ConvertNegativeIndex i (size v) in
                  if size v <=? listIndex then Raises (IndexOutOfRange 1)
                  else match v !! Z.to_nat listIndex with
                       | Some x => Ok x h
                       | None => Undefined
                       end
              | Some _ => slice argv h
              end
          end
      end
  | _ => Raises (InvalidArgumentCount (argc argv) 2)
  end.

(** The head of List_SetItem and List_Insert: three arguments, a list, an
    Int, and GET_LIST_INDEX (lines 156-161). *)
Definition with_list_index (argv : list addr) (h : Heap)
    (k : addr -> list addr -> nat -> addr -> Res) : Res :=
  match argv with
  | [a0; a1; a2] =>
      match h !! a0 with
      | None => Undefined
      | Some (List v) =>
          match h !! a1 with
          | None => Undefined
          | Some (Int i) =>
              let listIndex := ConvertNegativeIndex i (size v) in
              if size v <=? listIndex then Raises (IndexOutOfRange 1)
              else k a0 v (Z.to_nat listIndex) a2
          | Some _ => Raises (InvalidType 1 "int")
          end
      | Some _ => Raises (InvalidType 0 "list")
      end
  | _ => Raises (InvalidArgumentCount (argc argv) 3)
  end.

(** List_SetItem (part_000, lines 1048-1056). *)
Definition List_SetItem (argv : list addr) (h : Heap) : Res :=
  with_list_index argv h (fun a0 v listIndex a2 =>
    Ok a0 (<[a0 := List (<[listIndex := a2]> v)]> h)).

(** List_Append (part_000, lines 1070-1075). *)
Definition List_Append (argv : list addr) (h : Heap) : Res :=
  match argv with
  | [a0; a1] =>
      match h !! a0 with
      | None => Undefined
      | Some (List v) => Ok a0 (<[a0 := List (v ++ [a1])]> h)
      | Some _ => Raises (InvalidType 0 "list")
      end
  | _ => Raises (InvalidArgumentCount (argc argv) 2)
  end.

(** List_Insert (part_000, lines 1077-1085). *)
Definition List_Insert (argv : list addr) (h : Heap) : Res :=
  with_list_index argv h (fun a0 v listIndex a2 =>
    Ok a0 (<[a0 := List (vector_insert listIndex a2 v)]> h)).

(** List_Pop (part_000, lines 1087-1106). EXPECT_ARG_COUNT_BETWEEN joins
    its two tests with [&&]; the index is read when [argc == 1]. *)
Definition List_Pop (argv : list addr) (h : Heap) : Res :=
  if (argc argv <? 0) && (argc argv >? 1)
  then Raises (InvalidArgumentCount (argc argv) (-1))
  else
    match argv !! 0%nat with
    | None => Undefined
    | Some a0 =>
        match h !! a0 with
        | None => Undefined
        | Some (List v) =>
            let pop (negIndex : Z) : Res :=
              let listIndex := ConvertNegativeIndex negIndex (size v) in
              if size v <=? listIndex then Raises (IndexOutOfRange 1)
              else match v !! Z.to_nat listIndex with
                   | Some popped =>
                       Ok popped
                          (<[a0 := List (vector_erase (Z.to_nat listIndex) v)]> h)
                   | None => Undefined
                   end in
            if argc argv =? 1 then
              match argv !! 1%nat with
              | None => Undefined
              | Some a1 =>
                  match h !! a1 with
                  | None => Undefined
                  | Some (Int i) => pop i
                  | Some _ => Raises (InvalidType 1 "int")
                  end
              end
            else pop (-1)
        | Some _ => Raises (InvalidType 0 "list")
        end
    end.

End Methods.

(** The element an index of the language names in a list of [len]
    elements: from the front for 0, 1, ..., from the back for -1, -2, ... *)
Definition position (idx : Z) (len : nat) : option nat :=
  if (0 <=? idx) && (idx <? Z.of_nat len) then Some (Z.to_nat idx)
  else if (- Z.of_nat len <=? idx) && (idx <? 0)
       then Some (Z.to_nat (Z.of_nat len + idx))
       else None.

(** A heap for the examples: the list [7; 8; 9] at 1 and the Int [idx]
    at 2. *)
Definition example_heap (idx : Z) : Heap :=
  <[1%positive := List [7; 8; 9]%positive]> (<[2%positive := Int idx]> ∅).

End ListBuiltins.

(** * Theorems *)

(** ** The garbage collector *)

Section Collector.

Lemma has_type_eq (o : Wg_Obj) (t : string) :
  has_type o t = true <-> type o = t.
Proof. unfold has_type. apply String.eqb_eq. Qed.

Lemma has_type_excl (o : Wg_Obj) (t1 t2 : string) :
  t1 <> t2 -> has_type o t1 = true -> has_type o t2 = false.
Proof.
  intros Hne H1. apply has_type_eq in H1.
  destruct (has_type o t2) eqn:H2; [|reflexivity].
  apply has_type_eq in H2. congruence.
Qed.

Lemma lookup_obj_In (m : list (addr * Wg_Obj)) (p : addr) (o : Wg_Obj) :
  lookup_obj m p = Some o -> In (p, o) m.
Proof.
  induction m as [|[q o'] m IH]; simpl; [discriminate|].
  destruct (Pos.eqb_spec q p) as [->|Hne].
  - intros [= ->]. now left.
  - intros Hl. right. auto.
Qed.

Lemma In_lookup_obj (m : list (addr * Wg_Obj)) (p : addr) :
  In p (map fst m) -> exists o, lookup_obj m p = Some o.
Proof.
  induction m as [|[q o'] m IH]; simpl; [tauto|].
  intros [->|Hin].
  - rewrite Pos.eqb_refl. eauto.
  - destruct (Pos.eqb q p); eauto.
Qed.

(** Every root of the specification is among the pointers the collector
    pushes first. *)
Lemma all_builtins_complete (b : Builtin) : In b all_builtins.
Proof.
  unfold all_builtins.
  destruct b as [| | | | | | | | | | | | | | | | |e];
    try (apply in_or_app; left; simpl; tauto).
  apply in_or_app. right. apply in_map. destruct e; simpl; tauto.
Qed.

Lemma root_in_roots (c : Wg_Context) (r : addr) : root c r -> In r (roots c).
Proof.
  unfold roots. intros [He|[n Hp]|module_ g var Hg Hv|Hk|b Hb|Ha].
  - apply in_or_app. left. rewrite He. now left.
  - apply in_or_app. right. apply in_or_app. left.
    apply in_map_iff. exists (r, n). split; [reflexivity|].
    apply list_elem_of_In, elem_of_map_to_list. exact Hp.
  - do 2 (apply in_or_app; right). apply in_or_app. left.
    apply in_flat_map. exists (module_, g). split.
    + apply list_elem_of_In, elem_of_map_to_list. exact Hg.
    + apply in_map_iff. exists (var, r). split; [reflexivity|].
      apply list_elem_of_In, elem_of_map_to_list. exact Hv.
  - do 3 (apply in_or_app; right). apply in_or_app. left.
    apply in_flat_map. exists (Some r). split; [|now left].
    apply in_rev. rewrite rev_involutive. exact Hk.
  - do 4 (apply in_or_app; right). apply in_or_app. left.
    apply in_flat_map. exists b. split; [apply all_builtins_complete|].
    rewrite Hb. now left.
  - do 5 (apply in_or_app; right). rewrite Ha. now left.
Qed.

(** Every edge of the specification out of an object is among the pointers
    the collector pushes for it. *)
Lemma edge_in_children (m : list (addr * Wg_Obj)) (a b : addr) (o : Wg_Obj)
  (l : list addr) :
  lookup_obj m a = Some o -> children o = Some l -> edge m a b -> In b l.
Proof.
  intros Ho Hc He. unfold children in Hc.
  destruct (payload_children o) as [pl|] eqn:Hp; [|discriminate].
  injection Hc as <-.
  assert (Hattr : forall n, In (n, b) (entries (attributes o)) ->
                            In b (pl ++ ForEach (attributes o) ++ references o)).
  { intros n Hn. apply in_or_app. right. apply in_or_app. left.
    unfold ForEach. apply in_map_iff. now exists (n, b). }
  assert (Hpl : In b pl -> In b (pl ++ ForEach (attributes o) ++ references o)).
  { intros Hb. apply in_or_app. now left. }
  destruct He as [o' v Ho' Ht Hd Hin|o' d x Ho' Ht Hd Hin|o' d k Ho' Ht Hd Hin
                 |o' s Ho' Ht Hd Hin|o' f Ho' Ht Hd Hs|o' k Ho' Ht Hd Hin
                 |o' k n Ho' Ht Hd Hin|o' n Ho' Hin|o' Ho' Hin];
    rewrite Ho in Ho'; injection Ho' as <-;
    unfold payload_children, IsTuple, IsList, IsDictionary, IsSet, IsFunction,
      IsClass, Get_vector, Get_dict, Get_set, Get_func, Get_class in *.
  - rewrite Ht, Hd in Hp. injection Hp as <-. auto.
  - assert (H1 : has_type o "__tuple" = false) by (eapply has_type_excl; [|exact Ht]; discriminate).
    assert (H2 : has_type o "__list" = false) by (eapply has_type_excl; [|exact Ht]; discriminate).
    rewrite H1, H2, Ht, Hd in Hp. simpl in Hp. injection Hp as <-.
    apply Hpl, in_flat_map. exists (b, x). split; [exact Hin|now left].
  - assert (H1 : has_type o "__tuple" = false) by (eapply has_type_excl; [|exact Ht]; discriminate).
    assert (H2 : has_type o "__list" = false) by (eapply has_type_excl; [|exact Ht]; discriminate).
    rewrite H1, H2, Ht, Hd in Hp. simpl in Hp. injection Hp as <-.
    apply Hpl, in_flat_map. exists (k, b). split; [exact Hin|right; now left].
  - assert (H1 : has_type o "__tuple" = false) by (eapply has_type_excl; [|exact Ht]; discriminate).
    assert (H2 : has_type o "__list" = false) by (eapply has_type_excl; [|exact Ht]; discriminate).
    assert (H3 : has_type o "__map" = false) by (eapply has_type_excl; [|exact Ht]; discriminate).
    rewrite H1, H2, H3, Ht, Hd in Hp. simpl in Hp. injection Hp as <-. auto.
  - assert (H1 : has_type o "__tuple" = false) by (eapply has_type_excl; [|exact Ht]; discriminate).
    assert (H2 : has_type o "__list" = false) by (eapply has_type_excl; [|exact Ht]; discriminate).
    assert (H3 : has_type o "__map" = false) by (eapply has_type_excl; [|exact Ht]; discriminate).
    assert (H4 : has_type o "__set" = false) by (eapply has_type_excl; [|exact Ht]; discriminate).
    rewrite H1, H2, H3, H4, Ht, Hd in Hp. simpl in Hp. injection Hp as <-.
    apply Hpl. rewrite Hs. now left.
  - assert (H1 : has_type o "__tuple" = false) by (eapply has_type_excl; [|exact Ht]; discriminate).
    assert (H2 : has_type o "__list" = false) by (eapply has_type_excl; [|exact Ht]; discriminate).
    assert (H3 : has_type o "__map" = false) by (eapply has_type_excl; [|exact Ht]; discriminate).
    assert (H4 : has_type o "__set" = false) by (eapply has_type_excl; [|exact Ht]; discriminate).
    assert (H5 : has_type o "__func" = false) by (eapply has_type_excl; [|exact Ht]; discriminate).
    rewrite H1, H2, H3, H4, H5, Ht, Hd in Hp. simpl in Hp. injection Hp as <-.
    apply Hpl, in_or_app. now left.
  - assert (H1 : has_type o "__tuple" = false) by (eapply has_type_excl; [|exact Ht]; discriminate).
    assert (H2 : has_type o "__list" = false) by (eapply has_type_excl; [|exact Ht]; discriminate).
    assert (H3 : has_type o "__map" = false) by (eapply has_type_excl; [|exact Ht]; discriminate).
    assert (H4 : has_type o "__set" = false) by (eapply has_type_excl; [|exact Ht]; discriminate).
    assert (H5 : has_type o "__func" = false) by (eapply has_type_excl; [|exact Ht]; discriminate).
    rewrite H1, H2, H3, H4, H5, Ht, Hd in Hp. simpl in Hp. injection Hp as <-.
    apply Hpl, in_or_app. right. unfold ForEach. apply in_map_iff. now exists (n, b).
  - eauto.
  - do 2 (apply in_or_app; right). exact Hin.
Qed.

Lemma mark_closed (m : list (addr * Wg_Obj)) (n : nat) :
  forall (inUse : list addr) (T T' : gset addr),
    mark n m inUse T = Done T' ->
    covered m T inUse ->
    T ⊆ T' /\ (forall x, In x inUse -> x ∈ T') /\ covered m T' [].
Proof.
  induction n as [|n IH]; intros inUse T T' Hm Hcov.
  - destruct inUse; simpl in Hm; [|discriminate].
    injection Hm as <-. repeat split; [set_solver|intros x []|exact Hcov].
  - destruct inUse as [|obj rest]; simpl in Hm.
    { injection Hm as <-. repeat split; [set_solver|intros x []|exact Hcov]. }
    destruct (decide (obj ∈ T)) as [Hin|Hnin].
    + apply IH in Hm as (Hsub & Hrest & Hclosed).
      * repeat split; [exact Hsub| |exact Hclosed].
        intros x [<-|Hx]; [set_solver|auto].
      * intros a b Ha He. destruct (Hcov a b Ha He) as [Hb|[<-|Hb]]; auto.
    + destruct (lookup_obj m obj) as [o|] eqn:Ho; [|discriminate].
      destruct (children o) as [l|] eqn:Hl; [|discriminate].
      apply IH in Hm as (Hsub & Hrest & Hclosed).
      * repeat split; [set_solver| |exact Hclosed].
        intros x [<-|Hx]; [set_solver|].
        apply Hrest, in_or_app. now right.
      * intros a b Ha He. apply elem_of_union in Ha as [Ha|Ha].
        -- apply elem_of_singleton in Ha as ->. right.
           apply in_or_app. left. apply in_rev. rewrite rev_involutive.
           eapply edge_in_children; eauto.
        -- destruct (Hcov a b Ha He) as [Hb|[<-|Hb]].
           ++ left. set_solver.
           ++ left. set_solver.
           ++ right. apply in_or_app. now right.
Qed.

Lemma mark_reachable (c : Wg_Context) (n : nat) (T : gset addr) :
  mark n (mem c) (rev (roots c)) ∅ = Done T ->
  forall v, reachable c v -> v ∈ T.
Proof.
  intros Hm. apply mark_closed in Hm as (_ & Hroots & Hclosed).
  - induction 1 as [r Hr|a b _ IHa He].
    + apply Hroots, in_rev. rewrite rev_involutive. now apply root_in_roots.
    + destruct (Hclosed a b IHa He) as [Hb|[]]. exact Hb.
  - intros a b Ha. set_solver.
Qed.

Lemma sweep_keeps (m : list (addr * Wg_Obj)) (T : gset addr) (v : addr) :
  v ∈ T -> In v (map fst m) -> In v (map fst (sweep m T)).
Proof.
  intros HT Hin. apply in_map_iff in Hin as ([p o] & <- & Hin).
  apply in_map_iff. exists (p, o). split; [reflexivity|].
  unfold sweep. apply filter_In. split; [exact Hin|].
  simpl. now apply bool_decide_eq_true.
Qed.

(** Fuel. *)
Lemma weight_mono (m : list (addr * Wg_Obj)) (T T' : gset addr) :
  T ⊆ T' -> (weight m T' <= weight m T)%nat.
Proof.
  intros Hsub. induction m as [|[p o] m IH]; simpl; [lia|].
  destruct (decide (p ∈ T')), (decide (p ∈ T)); try lia. set_solver.
Qed.

Lemma weight_traverse (m : list (addr * Wg_Obj)) (T : gset addr) (p : addr)
  (o : Wg_Obj) :
  lookup_obj m p = Some o -> p ∉ T ->
  (weight m ({[p]} ∪ T) + fanout o <= weight m T)%nat.
Proof.
  intros Ho Hnin. induction m as [|[q o'] m IH]; simpl in *; [discriminate|].
  destruct (Pos.eqb_spec q p) as [->|Hne].
  - injection Ho as ->.
    destruct (decide (p ∈ {[p]} ∪ T)) as [_|Hn]; [|set_solver].
    destruct (decide (p ∈ T)); [tauto|].
    assert (Hsub : T ⊆ {[p]} ∪ T) by set_solver.
    pose proof (weight_mono m T ({[p]} ∪ T) Hsub). lia.
  - specialize (IH Ho).
    destruct (decide (q ∈ {[p]} ∪ T)), (decide (q ∈ T)); try lia; set_solver.
Qed.

Lemma mark_fuel (m : list (addr * Wg_Obj)) (n : nat) :
  forall (inUse : list addr) (T : gset addr),
    (length inUse + weight m T <= n)%nat -> mark n m inUse T <> Exhausted.
Proof.
  induction n as [|n IH]; intros inUse T Hle.
  - destruct inUse; simpl in *; [discriminate|lia].
  - destruct inUse as [|obj rest]; simpl in *; [discriminate|].
    destruct (decide (obj ∈ T)) as [Hin|Hnin].
    + apply IH. lia.
    + destruct (lookup_obj m obj) as [o|] eqn:Ho; [|discriminate].
      destruct (children o) as [l|] eqn:Hl; [|discriminate].
      apply IH. pose proof (weight_traverse m T obj o Ho Hnin) as Hw.
      unfold fanout in Hw. rewrite Hl in Hw.
      rewrite length_app, length_rev. lia.
Qed.

(** No fault on a closed, well-typed arena. *)
Lemma in_arena_true (m : list (addr * Wg_Obj)) (p : addr) :
  in_arena m p = true <-> exists o, lookup_obj m p = Some o.
Proof.
  unfold in_arena. destruct (lookup_obj m p); split; eauto; try discriminate.
  intros [o [=]].
Qed.

Lemma mark_no_fault (m : list (addr * Wg_Obj)) (n : nat) :
  forallb (fun po =>
             match children (snd po) with
             | Some l => forallb (in_arena m) l
             | None => false
             end) m = true ->
  forall (inUse : list addr) (T : gset addr) (f : Fault),
    forallb (in_arena m) inUse = true -> mark n m inUse T <> Crashed f.
Proof.
  intros Hm. rewrite forallb_forall in Hm.
  induction n as [|n IH]; intros inUse T f Hin.
  - destruct inUse; simpl; discriminate.
  - destruct inUse as [|obj rest]; simpl in *; [discriminate|].
    apply andb_true_iff in Hin as [Hobj Hrest].
    destruct (decide (obj ∈ T)); [now apply IH|].
    apply in_arena_true in Hobj as [o Ho]. rewrite Ho.
    specialize (Hm (obj, o) (lookup_obj_In _ _ _ Ho)). simpl in Hm.
    destruct (children o) as [l|]; [|discriminate].
    apply IH. rewrite forallb_app, Hrest, andb_true_r.
    rewrite forallb_forall in *. intros x Hx. apply Hm, in_rev. exact Hx.
Qed.

(** C1. Every Value that is reachable from a root through the traversal
    edges when Wg_CollectGarbage is invoked is still in the arena when it
    returns. The collection returns whenever the arena is closed and
    well-typed and the fuel covers one round per pushed pointer. *)
Theorem collect_keeps_reachable (c : Wg_Context) (fuel : nat) :
  (forall c', Wg_CollectGarbage fuel c = Done (tt, c') ->
     forall v, reachable c v -> In v (arena c) -> In v (arena c'))
  /\ (heap_ok c = true -> (gc_bound c <= fuel)%nat ->
      exists c', Wg_CollectGarbage fuel c = Done (tt, c')).
Proof.
  unfold Wg_CollectGarbage. split.
  - intros c' Hgc v Hreach Hin.
    destruct (mark fuel (mem c) (rev (roots c)) ∅) as [T| |] eqn:Hm;
      try discriminate.
    injection Hgc as <-. unfold arena. simpl.
    apply sweep_keeps; [|exact Hin]. eapply mark_reachable; eauto.
  - intros Hok Hfuel. apply andb_true_iff in Hok as [Hroots Hobjs].
    destruct (mark fuel (mem c) (rev (roots c)) ∅) as [T|f|] eqn:Hm.
    + eauto.
    + exfalso. eapply mark_no_fault; [exact Hobjs| |exact Hm].
      rewrite forallb_forall in *. intros x Hx. apply Hroots, in_rev. exact Hx.
    + exfalso. eapply mark_fuel; [|exact Hm].
      rewrite length_rev. exact Hfuel.
Qed.

(** The self-referential dictionary and its key survive a collection; the
    unreferenced list does not, and its finalizer has run. *)
Lemma collect_keeps_reachable_witness :
  exists c',
    Wg_CollectGarbage 10 Examples.cyclic_context = Done (tt, c')
    /\ In 2%positive (arena c') /\ In 3%positive (arena c').
Proof.
  destruct (collect_keeps_reachable Examples.cyclic_context 10) as [Hkeep Hret].
  destruct Hret as [c' Hc']; [reflexivity|vm_compute; lia|].
  assert (Hd : reachable Examples.cyclic_context 2%positive).
  { apply reach_root.
    apply (root_global _ _ "__main__" {[ "d" := 2%positive ]} "d"); reflexivity. }
  exists c'. split; [exact Hc'|]. split.
  - apply (Hkeep c' Hc'); [exact Hd|]. simpl. tauto.
  - apply (Hkeep c' Hc').
    + apply (reach_edge _ 2%positive); [exact Hd|].
      eapply edge_key; [reflexivity|reflexivity|reflexivity|left; reflexivity].
    + simpl. tauto.
Defined.

Example collect_sweeps_cycle :
  Wg_CollectGarbage 10 Examples.cyclic_context
  = Done (tt, set_swept (firstn 3 Examples.cyclic_arena)
                        [(4%positive, FinHost 0)] Examples.cyclic_context).
Proof. vm_compute. reflexivity. Qed.

End Collector.

(** ** Running the monad *)

Lemma bind_done {A B : Type} (m : M A) (k : A -> M B) (c c' : Wg_Context) (a : A) :
  m c = Done (a, c') -> bind m k c = k a c'.
Proof. unfold bind. now intros ->. Qed.

Lemma bind_crashed {A B : Type} (m : M A) (k : A -> M B) (c : Wg_Context) (f : Fault) :
  m c = Crashed f -> bind m k c = Crashed f.
Proof. unfold bind. now intros ->. Qed.

Lemma bind_exhausted {A B : Type} (m : M A) (k : A -> M B) (c : Wg_Context) :
  m c = Exhausted -> bind m k c = Exhausted.
Proof. unfold bind. now intros ->. Qed.

Lemma deref_done (c : Wg_Context) (p : addr) (o : Wg_Obj) :
  lookup_obj (mem c) p = Some o -> deref p c = Done (o, c).
Proof. unfold deref. now intros ->. Qed.

Lemma store_done (c : Wg_Context) (p : addr) (o o' : Wg_Obj) :
  lookup_obj (mem c) p = Some o ->
  store p o' c = Done (tt, set_mem (replace_obj (mem c) p o') c).
Proof. unfold store. now intros ->. Qed.

Lemma lookup_replace_eq (m : list (addr * Wg_Obj)) (p : addr) (o o' : Wg_Obj) :
  lookup_obj m p = Some o -> lookup_obj (replace_obj m p o') p = Some o'.
Proof.
  induction m as [|[q x] m IH]; simpl; [discriminate|].
  destruct (Pos.eqb q p) eqn:E; simpl; rewrite E; auto.
Qed.

Lemma lookup_replace_ne (m : list (addr * Wg_Obj)) (p q : addr) (o' : Wg_Obj) :
  p <> q -> lookup_obj (replace_obj m p o') q = lookup_obj m q.
Proof.
  intros Hne. induction m as [|[r x] m IH]; simpl; [reflexivity|].
  destruct (Pos.eqb_spec r p) as [->|Hrp]; simpl.
  - destruct (Pos.eqb_spec p q); [contradiction|reflexivity].
  - destruct (Pos.eqb r q); auto.
Qed.

Lemma arena_replace (m : list (addr * Wg_Obj)) (p : addr) (o : Wg_Obj) :
  map fst (replace_obj m p o) = map fst m.
Proof.
  induction m as [|[q x] m IH]; simpl; [reflexivity|].
  destruct (Pos.eqb q p); simpl; congruence.
Qed.

Lemma keeps_ret {A X : Type} (f : Wg_Context -> X) (a : A) : keeps f (ret a).
Proof. intros c a' c' Heq. now inversion Heq. Qed.

Lemma keeps_crash {A X : Type} (f : Wg_Context -> X) (e : Fault) :
  keeps f (@crash A e).
Proof. intros c a' c' Heq. inversion Heq. Qed.

Lemma keeps_exhausted {A X : Type} (f : Wg_Context -> X) :
  keeps f (@exhausted A).
Proof. intros c a' c' Heq. inversion Heq. Qed.

Lemma keeps_bind {A B X : Type} (f : Wg_Context -> X) (m : M A) (k : A -> M B) :
  keeps f m -> (forall a, keeps f (k a)) -> keeps f (bind m k).
Proof.
  intros Hm Hk c b c' Heq. unfold bind in Heq.
  destruct (m c) as [[a c1]| |] eqn:Hmc; try discriminate.
  rewrite (Hk a _ _ _ Heq). eauto.
Qed.

Lemma keeps_get {X : Type} (f : Wg_Context -> X) : keeps f get.
Proof. intros c a' c' Heq. now inversion Heq. Qed.

Lemma keeps_gets {A X : Type} (f : Wg_Context -> X) (g : Wg_Context -> A) :
  keeps f (gets g).
Proof. intros c a' c' Heq. now inversion Heq. Qed.

Lemma keeps_modify {X : Type} (f : Wg_Context -> X) (g : Wg_Context -> Wg_Context) :
  (forall c, f (g c) = f c) -> keeps f (modify g).
Proof. intros Hg c a' c' Heq. inversion Heq. apply Hg. Qed.

Lemma keeps_deref {X : Type} (f : Wg_Context -> X) (p : addr) : keeps f (deref p).
Proof.
  intros c a' c' Heq. unfold deref in Heq.
  destruct (lookup_obj (mem c) p); now inversion Heq.
Qed.

Lemma keeps_nonnull {X : Type} (f : Wg_Context -> X) (p : ptr) : keeps f (nonnull p).
Proof. destruct p; [apply keeps_ret|apply keeps_crash]. Qed.

Lemma keeps_cast {A X : Type} (f : Wg_Context -> X) (x : option A) : keeps f (cast x).
Proof. destruct x; [apply keeps_ret|apply keeps_crash]. Qed.

Lemma keeps_assert {X : Type} (f : Wg_Context -> X) (b : bool) : keeps f (WG_ASSERT b).
Proof. destruct b; [apply keeps_ret|apply keeps_crash]. Qed.

Lemma keeps_if {A X : Type} (f : Wg_Context -> X) (b : bool) (m1 m2 : M A) :
  keeps f m1 -> keeps f m2 -> keeps f (if b then m1 else m2).
Proof. now destruct b. Qed.

(** A store changes the arena and nothing else. *)
Lemma keeps_store {X : Type} (f : Wg_Context -> X) (p : addr) (o : Wg_Obj) :
  (forall m c, f (set_mem m c) = f c) -> keeps f (store p o).
Proof.
  intros Hf c a' c' Heq. unfold store in Heq.
  destruct (lookup_obj (mem c) p); inversion Heq. apply Hf.
Qed.

Ltac keeps_step :=
  lazymatch goal with
  | |- keeps _ (ret _) => apply keeps_ret
  | |- keeps _ (crash _) => apply keeps_crash
  | |- keeps _ exhausted => apply keeps_exhausted
  | |- keeps _ get => apply keeps_get
  | |- keeps _ (gets _) => apply keeps_gets
  | |- keeps _ (deref _) => apply keeps_deref
  | |- keeps _ (nonnull _) => apply keeps_nonnull
  | |- keeps _ (cast _) => apply keeps_cast
  | |- keeps _ (WG_ASSERT _) => apply keeps_assert
  | |- keeps _ (bind _ _) => apply keeps_bind; [|intros ?]
  | |- keeps _ (if _ then _ else _) => apply keeps_if
  | |- keeps _ (match ?x with _ => _ end) => destruct x
  end.

Ltac keeps_auto := repeat keeps_step.

(** ** Attribute lookup binds methods *)

Section Binding.
Variable host : Host.
Variable fuel : nat.
Variable H : Handles.

Lemma bind_method_binds (c : Wg_Context) (obj m : addr) (mo : Wg_Obj) (f : Func) :
  lookup_obj (mem c) m = Some mo ->
  IsFunction mo = true -> Get_func mo = Some f -> isMethod f = true ->
  bind_method obj m c
  = Done (tt, set_mem (replace_obj (mem c) m (bound_to obj f mo)) c).
Proof.
  intros Hm Hfn Hf Hmeth. unfold bind_method.
  rewrite (bind_done _ _ _ _ _ (deref_done _ _ _ Hm)), Hfn, Hf. simpl.
  unfold bind, ret. rewrite Hmeth. now apply (store_done _ _ mo).
Qed.

Lemma bind_method_skips (c : Wg_Context) (obj m : addr) (mo : Wg_Obj) :
  lookup_obj (mem c) m = Some mo ->
  (IsFunction mo = false
   \/ exists f, Get_func mo = Some f /\ isMethod f = false) ->
  bind_method obj m c = Done (tt, c).
Proof.
  intros Hm Hcase. unfold bind_method.
  rewrite (bind_done _ _ _ _ _ (deref_done _ _ _ Hm)).
  destruct (IsFunction mo); [|reflexivity].
  destruct Hcase as [|(f & Hf & Hmeth)]; [discriminate|].
  rewrite Hf. simpl. unfold bind, ret. now rewrite Hmeth.
Qed.

Lemma run_lookup_found (l : Lookup) (c : Wg_Context) (obj : addr)
  (member : string) (m : addr) :
  IsValidIdentifier host member = true ->
  resolve l (mem c) obj member = Some m ->
  run_lookup host fuel H l obj member c
  = (bind_method obj m >> ret (Some m)) c.
Proof.
  intros Hid Hres. destruct l as [| |[b|]]; simpl in *.
  - unfold Wg_HasAttribute, WG_ASSERT. rewrite Hid.
    destruct (lookup_obj (mem c) obj) as [o|] eqn:Ho; [|discriminate].
    unfold bind at 1. simpl.
    rewrite (bind_done _ _ _ _ _ (deref_done _ _ _ Ho)). now rewrite Hres.
  - unfold Wg_GetAttribute, WG_ASSERT. rewrite Hid.
    destruct (lookup_obj (mem c) obj) as [o|] eqn:Ho; [|discriminate].
    unfold bind at 1. simpl.
    rewrite (bind_done _ _ _ _ _ (deref_done _ _ _ Ho)). now rewrite Hres.
  - unfold Wg_GetAttributeFromBase, WG_ASSERT. rewrite Hid.
    destruct (lookup_obj (mem c) b) as [bo|] eqn:Hb; [|discriminate].
    destruct (Get_class bo) as [k|] eqn:Hk; [|discriminate].
    unfold bind at 1. simpl. unfold bind at 1.
    rewrite (bind_done _ _ _ _ _ (deref_done _ _ _ Hb)), Hk. simpl.
    unfold bind at 1. simpl. now rewrite Hres.
  - unfold Wg_GetAttributeFromBase, WG_ASSERT. rewrite Hid.
    destruct (lookup_obj (mem c) obj) as [o|] eqn:Ho; [|discriminate].
    unfold bind at 1. simpl. unfold bind at 1.
    rewrite (bind_done _ _ _ _ _ (deref_done _ _ _ Ho)). simpl.
    now rewrite Hres.
Qed.

(** C8. When one of the three lookups finds a Function with [isMethod],
    the function's [self] is the receiver when the handle is returned;
    when it finds a Value that is not a function, or a function without
    [isMethod], the handle is returned and nothing is modified. *)
Theorem lookup_binds_method (l : Lookup) (c : Wg_Context) (obj : addr)
  (member : string) (m : addr) (mo : Wg_Obj) :
  IsValidIdentifier host member = true ->
  resolve l (mem c) obj member = Some m ->
  lookup_obj (mem c) m = Some mo ->
  (forall f, IsFunction mo = true -> Get_func mo = Some f -> isMethod f = true ->
     exists c',
       run_lookup host fuel H l obj member c = Done (Some m, c')
       /\ lookup_obj (mem c') m = Some (bound_to obj f mo)
       /\ Get_func (bound_to obj f mo) = Some (set_self (Some obj) f)
       /\ c' = set_mem (replace_obj (mem c) m (bound_to obj f mo)) c)
  /\ (IsFunction mo = false ->
      run_lookup host fuel H l obj member c = Done (Some m, c))
  /\ (forall f, Get_func mo = Some f -> isMethod f = false ->
      run_lookup host fuel H l obj member c = Done (Some m, c)).
Proof.
  intros Hid Hres Hm. rewrite (run_lookup_found l c obj member m Hid Hres).
  split; [|split].
  - intros f Hfn Hf Hmeth. eexists. split; [|split; [|split]].
    + rewrite (bind_done _ _ _ _ _ (bind_method_binds c obj m mo f Hm Hfn Hf Hmeth)).
      reflexivity.
    + simpl. eapply lookup_replace_eq; eauto.
    + reflexivity.
    + reflexivity.
  - intros Hfn.
    rewrite (bind_done _ _ _ _ _ (bind_method_skips c obj m mo Hm (or_introl Hfn))).
    reflexivity.
  - intros f Hf Hmeth.
    erewrite bind_done; [reflexivity|].
    apply (bind_method_skips c obj m mo Hm). right. eauto.
Qed.

End Binding.

(** Looking up [__next__] on the iterator 50 finds the method 41 and binds
    it to 50; looking up [__bases__] on the class 21 finds a tuple and
    changes nothing. *)
Lemma lookup_binds_method_witness :
  (exists c',
     run_lookup World.host 3 bottom ByGetAttribute 50%positive "__next__"
       World.context0 = Done (Some 41%positive, c')
     /\ lookup_obj (mem c') 41%positive
        = Some (World.plain "__func"
                  (DFunc (MkFunc (Some 50%positive) (NativeFn 3) VNull true
                            "__main__" "__next__"))))
  /\ run_lookup World.host 3 bottom ByHasAttribute 21%positive "__bases__"
       World.context0 = Done (Some 31%positive, World.context0).
Proof.
  split.
  - destruct (lookup_binds_method World.host 3 bottom ByGetAttribute
                World.context0 50%positive "__next__" 41%positive
                (World.function_obj 3 true "__next__")
                eq_refl eq_refl eq_refl) as [Hbind _].
    destruct (Hbind (MkFunc None (NativeFn 3) VNull true "__main__" "__next__")
                eq_refl eq_refl eq_refl) as (c' & Hrun & Hm & _).
    exists c'. split; [exact Hrun|exact Hm].
  - destruct (lookup_binds_method World.host 3 bottom ByHasAttribute
                World.context0 21%positive "__bases__" 31%positive
                (World.plain "__tuple" (DVector [20%positive]))
                eq_refl eq_refl eq_refl) as (_ & Hskip & _).
    apply Hskip. reflexivity.
Defined.

(** ** The call machinery *)

Section Calls.
Variable host : Host.
Variable fuel : nat.
Variable H : Handles.

Lemma protect_all_done (objs : list addr) (c : Wg_Context) :
  protect_all objs c = Done (tt, protect_list objs c).
Proof.
  revert c. induction objs as [|o objs IH]; intros c; simpl; [reflexivity|].
  unfold bind, Wg_ProtectObject, modify. apply IH.
Qed.

(** The checks of the keyword dictionary read the state and leave it. *)
Lemma has_nonstring_key_pure (d : list (addr * addr)) :
  keeps (fun c => c) (has_nonstring_key d).
Proof.
  induction d as [|[k v] d IH]; simpl; [apply keeps_ret|].
  unfold Wg_IsString. keeps_auto. exact IH.
Qed.

Lemma check_kwargs_pure (kw : ptr) : keeps (fun c => c) (check_kwargs kw).
Proof.
  unfold check_kwargs, Wg_IsDictionary. keeps_auto.
  apply has_nonstring_key_pure.
Qed.

(** A keyword argument that is not a dictionary, or a dictionary with a key
    that is not a string, is refused when the callable is a Function or a
    Class: the function pointer is not run. *)
Lemma call_refuses_kwargs (c : Wg_Context) (callee : addr) (co : Wg_Obj)
  (argv_ : list addr) (kw : ptr) (msg : string) :
  lookup_obj (mem c) callee = Some co ->
  IsFunction co || IsClass co = true ->
  check_kwargs kw c = Done (Some msg, c) ->
  Wg_Call host fuel H (Some callee) argv_ kw c
  = (Wg_RaiseException host fuel H WG_EXC_TYPEERROR msg >> ret None) c.
Proof.
  intros Hco Hty Hck. unfold Wg_Call.
  unfold bind at 1. simpl. unfold bind at 1.
  rewrite (deref_done _ _ _ Hco), Hty.
  unfold bind at 1. now rewrite Hck.
Qed.


End Calls.



(** C6, at the failing input. An object (51) whose [__call__] is a method
    is called with a keyword argument that is an Int (52), not a
    dictionary: the call goes through, [__call__] runs and its value (the
    None singleton) is returned, with no exception. The same keyword
    argument given to a Function (40) is refused with a TypeError (the
    instance 63 of the class 21). *)
Theorem call_object_drops_kwargs :
  lookup_obj (mem World.context0) 52%positive
  = Some (World.plain "__int" (DInt 7))
  /\ observe (Wg_Call World.host 6 (level World.host 6) (Some 51%positive) []
                (Some 52%positive) World.context0)
     = Done (Some 1%positive, None)
  /\ observe (Wg_Call World.host 6 (level World.host 6) (Some 40%positive) []
                (Some 52%positive) World.context0)
     = Done (None, Some 63%positive).
Proof. repeat split; vm_compute; reflexivity. Qed.

(** For every callable that is neither a Function nor a Class, the keyword
    argument of Wg_Call is dropped: it does not reach [__call__]. *)
Lemma call_object_ignores_kwargs (host : Host) (fuel : nat) (H : Handles)
  (c : Wg_Context) (callee : addr) (co : Wg_Obj) (argv_ : list addr) (kw : ptr) :
  lookup_obj (mem c) callee = Some co ->
  IsFunction co || IsClass co = false ->
  Wg_Call host fuel H (Some callee) argv_ kw c
  = Wg_CallMethod host fuel H callee "__call__" argv_ None c.
Proof.
  intros Hco Hty. unfold Wg_Call.
  unfold bind at 1. simpl. unfold bind at 1.
  now rewrite (deref_done _ _ _ Hco), Hty.
Qed.

(** ** Comparison operators *)

(** A comparison whose dunder call returns null hands the null result to
    Wg_IsBool, whose assertion fails. *)
Lemma BinaryOp_bool_null (host : Host) (fuel : nat) (H : Handles)
  (c c1 : Wg_Context) (method : string) (lhs rhs : addr) :
  Wg_CallMethod host fuel H lhs method [rhs] None c = Done (None, c1) ->
  BinaryOp_bool host fuel H method lhs rhs c = Crashed AssertFailed.
Proof.
  intros Hcall. unfold BinaryOp_bool.
  now rewrite (bind_done _ _ _ _ _ Hcall).
Qed.

(** C9, at the failing input. [__eq__] of the object 53 raises ValueError
    and returns null; Wg_BinaryOp then leaves defined behaviour instead of
    returning null. *)
Theorem compare_follows_null_result :
  observe (Wg_CallMethod World.host 6 (level World.host 6) 53%positive "__eq__"
             [52%positive] None World.context0)
  = Done (None, Some 63%positive)
  /\ Wg_BinaryOp World.host 6 (level World.host 6) WG_BOP_EQ 53%positive
       52%positive World.context0
     = Crashed AssertFailed.
Proof. split; vm_compute; reflexivity. Qed.

(** The other two cases of a comparison: a Bool result is returned, any
    other result raises TypeError. *)
Lemma BinaryOp_bool_result (host : Host) (fuel : nat) (H : Handles)
  (c c1 : Wg_Context) (method : string) (lhs rhs r : addr) :
  Wg_CallMethod host fuel H lhs method [rhs] None c = Done (Some r, c1) ->
  BinaryOp_bool host fuel H method lhs rhs c
  = if bool_decide (Some r = builtins c1 B_true)
       || bool_decide (Some r = builtins c1 B_false)
    then Done (Some r, c1)
    else (Wg_RaiseException host fuel H WG_EXC_TYPEERROR
            (method +:+ "() returned a non bool type") >> ret None) c1.
Proof.
  intros Hcall. unfold BinaryOp_bool.
  rewrite (bind_done _ _ _ _ _ Hcall).
  unfold Wg_IsBool, bind, nonnull, ret, get. cbn beta iota.
  now destruct (bool_decide _ || bool_decide _).
Qed.

(** ** Module loading *)

Section Modules.
Variable host : Host.
Variable fuel : nat.
Variable H : Handles.

Lemma LoadModule_loaded (name_ : string) (c : Wg_Context) (g : gmap string addr) :
  globals c !! name_ = Some g -> LoadModule host fuel H name_ c = Done (true, c).
Proof. intros Hg. unfold LoadModule, bind, get. cbn beta iota. now rewrite Hg. Qed.

Lemma LoadModule_unfold (name_ : string) (c : Wg_Context) :
  LoadModule host fuel H name_ c
  = match globals c !! name_ with
    | Some _ => Done (true, c)
    | None =>
        match run_loader host fuel H name_ (enter_module name_ c) with
        | Done (ok, c1) =>
            Done (ok, if ok then leave_module c1
                      else unregister name_ (leave_module c1))
        | Crashed f => Crashed f
        | Exhausted => Exhausted
        end
    end.
Proof.
  unfold LoadModule, run_loader, enter_module, leave_module, unregister.
  unfold bind, get, modify, ret. cbn beta iota.
  destruct (globals c !! name_); [reflexivity|].
  destruct (negb (name_ =? "__builtins__")%string).
  - destruct (h_importAll H "__builtins__" _) as [[b c2]| |]; try reflexivity.
    destruct (moduleLoaders c2 !! name_).
    + destruct (loader host n H c2) as [[[] c3]| |]; reflexivity.
    + destruct (LoadFileModule host fuel H name_ c2) as [[[] c3]| |]; reflexivity.
  - destruct (moduleLoaders _ !! name_).
    + destruct (loader host n H _) as [[[] c3]| |]; reflexivity.
    + destruct (LoadFileModule host fuel H name_ _) as [[[] c3]| |]; reflexivity.
Qed.


End Modules.


(** ** Wg_IsInstance *)

Lemma bind_inv {A B : Type} (m : M A) (k : A -> M B) (c c' : Wg_Context) (b : B) :
  bind m k c = Done (b, c') ->
  exists a c1, m c = Done (a, c1) /\ k a c1 = Done (b, c').
Proof.
  unfold bind. destruct (m c) as [[a c1]| |]; try discriminate. eauto.
Qed.

Lemma ret_inv {A : Type} (a b : A) (c c' : Wg_Context) :
  ret a c = Done (b, c') -> b = a /\ c' = c.
Proof. intros Heq. now inversion Heq. Qed.

Lemma deref_inv (p : addr) (c c' : Wg_Context) (o : Wg_Obj) :
  deref p c = Done (o, c') -> lookup_obj (mem c) p = Some o /\ c' = c.
Proof.
  unfold deref. destruct (lookup_obj (mem c) p); intros Heq; now inversion Heq.
Qed.

Section Instances.
Variable host : Host.
Variable fuel : nat.

(** What a lookup leaves alone. *)
Lemma keeps_protect {X : Type} (f : Wg_Context -> X) (p : addr) :
  outside_protection f -> keeps f (Wg_ProtectObject p).
Proof. intros Hp. apply keeps_modify. intros c. apply Hp. Qed.

Lemma keeps_unprotect {X : Type} (f : Wg_Context -> X) (p : addr) :
  outside_protection f -> keeps f (Wg_UnprotectObject p).
Proof.
  intros Hp. unfold Wg_UnprotectObject.
  apply keeps_bind; [apply keeps_get|intros c].
  destruct (protectedObjects c !! p); [|apply keeps_crash].
  destruct (Pos.eqb _ _); apply keeps_modify; intros c0; apply Hp.
Qed.

Lemma keeps_protect_all {X : Type} (f : Wg_Context -> X) (ps : list addr) :
  outside_protection f -> keeps f (protect_all ps).
Proof.
  intros Hf. induction ps as [|p ps IH]; simpl; [apply keeps_ret|].
  apply keeps_bind; [now apply keeps_protect|intros _; exact IH].
Qed.

Lemma keeps_unprotect_all {X : Type} (f : Wg_Context -> X) (ps : list addr) :
  outside_protection f -> keeps f (unprotect_all ps).
Proof.
  intros Hf. induction ps as [|p ps IH]; simpl; [apply keeps_ret|].
  apply keeps_bind; [now apply keeps_unprotect|intros _; exact IH].
Qed.

Lemma keeps_with_refs {A X : Type} (f : Wg_Context -> X) (ps : list addr)
  (body : M A) :
  outside_protection f -> keeps f body -> keeps f (with_refs ps body).
Proof.
  intros Hf Hb. unfold with_refs.
  apply keeps_bind; [now apply keeps_protect_all|intros _].
  apply keeps_bind; [exact Hb|intros r].
  apply keeps_bind; [now apply keeps_unprotect_all|intros _; apply keeps_ret].
Qed.

Lemma keeps_bind_method {X : Type} (f : Wg_Context -> X) (obj m : addr) :
  outside_heap f -> keeps f (bind_method obj m).
Proof.
  intros [Hm _]. unfold bind_method. keeps_auto.
  now apply keeps_store.
Qed.

Lemma keeps_HasAttribute {X : Type} (f : Wg_Context -> X) (obj : addr)
  (member : string) :
  outside_heap f -> keeps f (Wg_HasAttribute host obj member).
Proof.
  intros Hf. unfold Wg_HasAttribute. keeps_auto.
  now apply keeps_bind_method.
Qed.

Lemma keeps_IsInstance_loop {X : Type} (f : Wg_Context -> X) (n : nat)
  (types : list addr) :
  outside_heap f ->
  forall toCheck, keeps f (IsInstance_loop host n types toCheck).
Proof.
  intros Hf. induction n as [|n IH]; intros [|front rest]; simpl;
    try apply keeps_ret; try apply keeps_exhausted.
  destruct (existsb (Pos.eqb front) types).
  - apply keeps_bind;
      [exact (keeps_unprotect_all f (front :: rest) (proj2 Hf))
      |intros _; apply keeps_ret].
  - apply keeps_bind; [now apply keeps_HasAttribute|intros b].
    apply keeps_bind; [keeps_auto|intros new].
    apply keeps_bind; [apply keeps_protect_all, Hf|intros _].
    apply keeps_bind; [apply keeps_unprotect, Hf|intros _]. apply IH.
Qed.

Lemma keeps_assert_classes {X : Type} (f : Wg_Context -> X) (types : list ptr) :
  keeps f (assert_classes types).
Proof.
  induction types as [|t ts IH]; simpl; [apply keeps_ret|].
  unfold Wg_IsClass. keeps_auto. exact IH.
Qed.

(** Wg_IsInstance changes nothing outside the arena and the protection
    multiset: the current exception and the trace are as they were. *)
Lemma keeps_IsInstance {X : Type} (f : Wg_Context -> X) (v : addr)
  (types : list ptr) :
  outside_heap f -> keeps f (Wg_IsInstance host fuel v types).
Proof.
  intros Hf. unfold Wg_IsInstance.
  apply keeps_bind; [apply keeps_assert_classes|intros ts].
  apply keeps_bind; [apply keeps_deref|intros o].
  destruct (Get (attributes o) "__class__"); [|apply keeps_ret].
  apply keeps_with_refs; [apply Hf|].
  apply keeps_bind; [apply keeps_protect, Hf|intros _].
  now apply keeps_IsInstance_loop.
Qed.

End Instances.

(** The loop of Wg_IsInstance against [subclass]. *)
Section InstanceOf.
Variable host : Host.

Lemma bases_of_replace (m : list (addr * Wg_Obj)) (p : addr) (mo mo' : Wg_Obj) :
  lookup_obj m p = Some mo ->
  type mo' = type mo -> attributes mo' = attributes mo ->
  IsTuple mo = false ->
  forall k, bases_of (replace_obj m p mo') k = bases_of m k.
Proof.
  intros Hp Hty Hat Htu k.
  assert (Htu' : IsTuple mo' = false).
  { unfold IsTuple, has_type in *. now rewrite Hty. }
  assert (Hlook : forall q,
            match lookup_obj (replace_obj m p mo') q with
            | Some bo => if IsTuple bo
                         then match Get_vector bo with Some v => v | None => [] end
                         else []
            | None => []
            end
            = match lookup_obj m q with
              | Some bo => if IsTuple bo
                           then match Get_vector bo with Some v => v | None => [] end
                           else []
              | None => []
              end).
  { intros q. destruct (Pos.eq_dec p q) as [<-|Hne].
    - rewrite (lookup_replace_eq _ _ _ _ Hp), Hp. now rewrite Htu, Htu'.
    - now rewrite lookup_replace_ne. }
  unfold bases_of. destruct (Pos.eq_dec p k) as [<-|Hne].
  - rewrite (lookup_replace_eq _ _ _ _ Hp), Hp, Hat.
    destruct (Get (attributes mo) "__bases__"); [apply Hlook|reflexivity].
  - rewrite lookup_replace_ne by exact Hne.
    destruct (lookup_obj m k) as [o|]; [|reflexivity].
    destruct (Get (attributes o) "__bases__"); [apply Hlook|reflexivity].
Qed.

Lemma bind_method_inv (obj m : addr) (c c' : Wg_Context) :
  bind_method obj m c = Done (tt, c') ->
  exists mo,
    lookup_obj (mem c) m = Some mo
    /\ (c' = c
        \/ (IsFunction mo = true
            /\ exists f, Get_func mo = Some f
                         /\ c' = set_mem (replace_obj (mem c) m (bound_to obj f mo)) c)).
Proof.
  unfold bind_method. intros Hrun.
  apply bind_inv in Hrun as (mo & c1 & Hd & Hrun).
  apply deref_inv in Hd as [Hmo ->]. exists mo. split; [exact Hmo|].
  destruct (IsFunction mo) eqn:Hfn.
  - apply bind_inv in Hrun as (f & c1 & Hf & Hrun).
    destruct (Get_func mo) as [f'|] eqn:Hgf; [|discriminate].
    apply ret_inv in Hf as [-> ->].
    destruct (isMethod f').
    + right. split; [reflexivity|]. exists f'. split; [reflexivity|].
      rewrite (store_done _ _ mo _ Hmo) in Hrun. now inversion Hrun.
    + left. now inversion Hrun.
  - left. now inversion Hrun.
Qed.

Lemma bind_method_bases (obj m : addr) (c c' : Wg_Context) :
  bind_method obj m c = Done (tt, c') ->
  forall k, bases_of (mem c') k = bases_of (mem c) k.
Proof.
  intros Hrun k. apply bind_method_inv in Hrun as (mo & Hmo & [->|(Hfn & f & Hf & ->)]);
    [reflexivity|].
  simpl. apply (bases_of_replace _ _ mo); auto.
  unfold IsFunction, IsTuple in *. eapply has_type_excl; [|exact Hfn]. discriminate.
Qed.

Lemma HasAttribute_inv (obj : addr) (member : string) (c c' : Wg_Context) (r : ptr) :
  Wg_HasAttribute host obj member c = Done (r, c') ->
  exists o,
    lookup_obj (mem c) obj = Some o
    /\ r = Get (attributes o) member
    /\ match r with
       | Some m => bind_method obj m c = Done (tt, c')
       | None => c' = c
       end.
Proof.
  unfold Wg_HasAttribute. intros Hrun.
  apply bind_inv in Hrun as ([] & c1 & Ha & Hrun).
  assert (c1 = c) as -> by (eapply (keeps_assert (fun c => c)); eauto).
  apply bind_inv in Hrun as (o & c1 & Hd & Hrun).
  apply deref_inv in Hd as [Ho ->]. exists o. split; [exact Ho|].
  destruct (Get (attributes o) member) as [m|].
  - apply bind_inv in Hrun as ([] & c1 & Hb & Hrun).
    apply ret_inv in Hrun as [-> ->]. auto.
  - apply ret_inv in Hrun as [-> ->]. auto.
Qed.

Lemma subclass_ext (m m' : list (addr * Wg_Obj)) :
  (forall k, bases_of m' k = bases_of m k) ->
  forall a b, subclass m a b -> subclass m' a b.
Proof.
  intros Hb a b. induction 1 as [k|k x t Hin _ IH]; [constructor|].
  apply (subclass_step _ k x t); [now rewrite Hb|exact IH].
Qed.

Lemma subclass_trans (m : list (addr * Wg_Obj)) (a b t : addr) :
  subclass m a b -> subclass m b t -> subclass m a t.
Proof.
  induction 1 as [k|k x y Hin _ IH]; [auto|].
  intros Hbt. eapply subclass_step; eauto.
Qed.

(** One round of the loop: the pointers it queues are the direct bases of
    the front of the queue, and the classes keep their bases. *)
Lemma IsInstance_round (front : addr) (c c1 c2 : Wg_Context) (bases_ : ptr)
  (new : list addr) :
  Wg_HasAttribute host front "__bases__" c = Done (bases_, c1) ->
  match bases_ with
  | None => ret []
  | Some b => let* bo := deref b in
              if IsTuple bo then cast (Get_vector bo) else ret []
  end c1 = Done (new, c2) ->
  new = bases_of (mem c) front
  /\ (forall k, bases_of (mem c2) k = bases_of (mem c) k).
Proof.
  intros Hhas Hnew.
  apply HasAttribute_inv in Hhas as (o & Ho & -> & Hb).
  unfold bases_of at 1. rewrite Ho.
  destruct (Get (attributes o) "__bases__") as [b|].
  - apply bind_inv in Hnew as (bo & c3 & Hd & Hnew).
    apply deref_inv in Hd as [Hbo ->].
    assert (c2 = c1) as ->.
    { destruct (IsTuple bo); [eapply (keeps_cast (fun c => c)); eauto|].
      now apply ret_inv in Hnew. }
    split; [|now apply (bind_method_bases front b)].
    apply bind_method_inv in Hb as (mo & Hmo & [->|(Hfn & f & Hf & ->)]).
    + rewrite Hbo. destruct (IsTuple bo).
      * destruct (Get_vector bo); [now apply ret_inv in Hnew|discriminate].
      * now apply ret_inv in Hnew.
    + simpl in Hbo. rewrite (lookup_replace_eq _ _ _ _ Hmo) in Hbo.
      injection Hbo as <-. rewrite Hmo.
      assert (Htu : IsTuple mo = false).
      { unfold IsFunction, IsTuple in *. eapply has_type_excl; [|exact Hfn].
        discriminate. }
      unfold bound_to, IsTuple, has_type in *. simpl in Hnew.
      rewrite Htu in *. now apply ret_inv in Hnew.
  - apply ret_inv in Hnew as [-> ->]. subst c1. auto.
Qed.

Lemma IsInstance_loop_spec (types : list addr) (k0 : addr) (n : nat) :
  forall (toCheck : list addr) (c c' : Wg_Context) (r : ptr),
    IsInstance_loop host n types toCheck c = Done (r, c') ->
    (forall q, In q toCheck -> subclass (mem c) k0 q) ->
    (forall t, In t types -> subclass (mem c) k0 t ->
               exists q, In q toCheck /\ subclass (mem c) q t) ->
    match r with
    | Some t => In t types /\ subclass (mem c) k0 t
    | None => forall t, In t types -> ~ subclass (mem c) k0 t
    end.
Proof.
  induction n as [|n IH]; intros toCheck c c' r Hrun Hsound Hcompl.
  - destruct toCheck; simpl in Hrun; [|discriminate].
    apply ret_inv in Hrun as [-> _]. intros t Ht Hsub.
    destruct (Hcompl t Ht Hsub) as (q & [] & _).
  - destruct toCheck as [|front rest]; simpl in Hrun.
    { apply ret_inv in Hrun as [-> _]. intros t Ht Hsub.
      destruct (Hcompl t Ht Hsub) as (q & [] & _). }
    destruct (existsb (Pos.eqb front) types) eqn:Hfound.
    + apply bind_inv in Hrun as ([] & c1 & _ & Hrun).
      apply ret_inv in Hrun as [-> _].
      apply existsb_exists in Hfound as (t & Ht & Heq).
      apply Pos.eqb_eq in Heq as <-. split; [exact Ht|].
      apply Hsound. now left.
    + apply bind_inv in Hrun as (bases_ & c1 & Hhas & Hrun).
      apply bind_inv in Hrun as (new & c2 & Hnew & Hrun).
      destruct (IsInstance_round front c c1 c2 bases_ new Hhas Hnew)
        as [-> Hbases].
      apply bind_inv in Hrun as ([] & c3 & Hp & Hrun).
      apply bind_inv in Hrun as ([] & c4 & Hu & Hrun).
      assert (Hmem : mem c4 = mem c2).
      { rewrite (keeps_unprotect mem front (fun _ _ => eq_refl) _ _ _ Hu).
        exact (keeps_protect_all mem _ (fun _ _ => eq_refl) _ _ _ Hp). }
      assert (Hfwd : forall a b, subclass (mem c) a b -> subclass (mem c4) a b).
      { rewrite Hmem. now apply subclass_ext. }
      assert (Hbwd : forall a b, subclass (mem c4) a b -> subclass (mem c) a b).
      { rewrite Hmem. apply subclass_ext. intros k. now rewrite Hbases. }
      specialize (IH _ _ _ _ Hrun).
      assert (Hr : match r with
                   | Some t => In t types /\ subclass (mem c4) k0 t
                   | None => forall t, In t types -> ~ subclass (mem c4) k0 t
                   end).
      { apply IH.
        - intros q Hq. apply Hfwd. apply in_app_or in Hq as [Hq|Hq].
          + apply Hsound. now right.
          + eapply subclass_trans; [apply Hsound; now left|].
            eapply subclass_step; [exact Hq|constructor].
        - intros t Ht Hsub. destruct (Hcompl t Ht (Hbwd _ _ Hsub))
            as (q & [<-|Hq] & Hqt).
          + inversion Hqt as [k|k b t' Hb Hbt]; subst.
            * exfalso. assert (existsb (Pos.eqb t) types = true).
              { apply existsb_exists. exists t. split; [exact Ht|].
                apply Pos.eqb_refl. }
              congruence.
            * exists b. split; [apply in_or_app; now right|now apply Hfwd].
          + exists q. split; [apply in_or_app; now left|now apply Hfwd]. }
      destruct r as [t|].
      * destruct Hr as [Ht Hsub]. split; [exact Ht|now apply Hbwd].
      * intros t Ht Hsub. apply (Hr t Ht). now apply Hfwd.
Qed.

End InstanceOf.

Section RaiseObject.
Variable host : Host.
Variable fuel : nat.
Variable H : Handles.

Lemma assert_classes_inv (types : list ptr) (c c' : Wg_Context) (ts : list addr) :
  assert_classes types c = Done (ts, c') -> c' = c /\ map Some ts = types.
Proof.
  revert ts c'. induction types as [|t types IH]; intros ts c' Hrun; simpl in Hrun.
  - apply ret_inv in Hrun as [-> ->]. auto.
  - apply bind_inv in Hrun as (b & c1 & Hb & Hrun).
    assert (c1 = c) as ->.
    { unfold Wg_IsClass in Hb.
      refine (_ : (fun c => c) c1 = (fun c => c) c).
      revert Hb. generalize c b c1. change (keeps (fun c => c)
        (let* p := nonnull t in let* o := deref p in ret (IsClass o))).
      keeps_auto. }
    apply bind_inv in Hrun as ([] & c1 & Ha & Hrun).
    assert (c1 = c) as -> by (eapply (keeps_assert (fun c => c)); eauto).
    apply bind_inv in Hrun as (p & c1 & Hp & Hrun).
    destruct t as [t|]; [|discriminate].
    apply ret_inv in Hp as [-> ->].
    apply bind_inv in Hrun as (ps & c1 & Hps & Hrun).
    apply IH in Hps as [-> <-].
    apply ret_inv in Hrun as [-> ->]. auto.
Qed.

(** Wg_IsInstance returns a class of [types] that the Value is an instance
    of, and null only when it is an instance of none of them. *)
Lemma IsInstance_spec (v : addr) (types : list ptr) (c c' : Wg_Context) (r : ptr) :
  Wg_IsInstance host fuel v types c = Done (r, c') ->
  match r with
  | Some t => In (Some t) types /\ instance_of (mem c) v t
  | None => forall t, In (Some t) types -> ~ instance_of (mem c) v t
  end.
Proof.
  unfold Wg_IsInstance. intros Hrun.
  apply bind_inv in Hrun as (ts & c1 & Hts & Hrun).
  apply assert_classes_inv in Hts as [-> <-].
  apply bind_inv in Hrun as (o & c1 & Hd & Hrun).
  apply deref_inv in Hd as [Ho ->].
  destruct (Get (attributes o) "__class__") as [klass|] eqn:Hk.
  - unfold with_refs in Hrun.
    apply bind_inv in Hrun as ([] & c1 & Hp1 & Hrun).
    apply bind_inv in Hrun as (r' & c2 & Hloop & Hrun).
    apply bind_inv in Hrun as ([] & c3 & _ & Hrun).
    apply ret_inv in Hrun as [-> _].
    apply bind_inv in Hloop as ([] & c4 & Hp2 & Hloop).
    assert (Hmem : mem c4 = mem c).
    { rewrite (keeps_protect mem klass (fun _ _ => eq_refl) _ _ _ Hp2).
      exact (keeps_protect_all mem [klass] (fun _ _ => eq_refl) _ _ _ Hp1). }
    pose proof (IsInstance_loop_spec host ts klass fuel [klass] c4 c2 r' Hloop)
      as Hspec.
    rewrite Hmem in Hspec.
    assert (Hr : match r' with
                 | Some t => In t ts /\ subclass (mem c) klass t
                 | None => forall t, In t ts -> ~ subclass (mem c) klass t
                 end).
    { apply Hspec.
      - intros q [<-|[]]. constructor.
      - intros t _ Hsub. exists klass. split; [now left|exact Hsub]. }
    destruct r' as [t|].
    + destruct Hr as [Ht Hsub]. split; [now apply in_map|].
      exists o, klass. auto.
    + intros t Ht (o' & k' & Ho' & Hk' & Hsub).
      rewrite Ho in Ho'. injection Ho' as <-. rewrite Hk in Hk'.
      injection Hk' as <-. apply (Hr t); [|exact Hsub].
      apply in_map_iff in Ht as (t' & [= ->] & Ht). exact Ht.
  - apply ret_inv in Hrun as [-> _].
    intros t _ (o' & k' & Ho' & Hk' & _). congruence.
Qed.


End RaiseObject.


Example raise_string_sets_TypeError :
  observe (Wg_RaiseExceptionObject World.host 6 (level World.host 6) 60%positive
             World.context0) = Done (tt, Some 63%positive)
  /\ instance_of
       (mem (final (Wg_RaiseExceptionObject World.host 6 (level World.host 6)
                      60%positive World.context0) World.context0))
       63%positive 21%positive.
Proof.
  split; [vm_compute; reflexivity|].
  eexists _, 21%positive. split; [vm_compute; reflexivity|].
  split; [reflexivity|constructor].
Qed.

(** ** Iteration *)

Section Iteration.
Variable host : Host.
Variable fuel : nat.
Variable H : Handles.

Lemma Iterate_loop_rounds (iter : addr) (callback : addr -> M bool) (k : nat)
  (c ck : Wg_Context) :
  rounds host fuel H iter callback k c ck ->
  forall n,
    Iterate_loop host fuel H (k + n) iter callback c
    = Iterate_loop host fuel H n iter callback ck.
Proof.
  induction 1 as [c|k c c1 c2 c3 c' y Hnext Hexc Hcb Hun _ IH]; intros n;
    [reflexivity|].
  simpl. rewrite (bind_done _ _ _ _ _ Hnext).
  unfold bind at 1, Wg_GetCurrentException at 1, gets at 1. cbn beta iota.
  rewrite Hexc. unfold bind at 1, nonnull at 1, ret at 1. cbn beta iota.
  unfold bind at 1, Wg_ProtectObject at 1, modify at 1. cbn beta iota.
  rewrite (bind_done _ _ _ _ _ Hcb). simpl.
  rewrite (bind_done _ _ _ _ _ Hun). apply IH.
Qed.

(** The round in which [__next__] leaves an exception pending. *)
Lemma Iterate_loop_stop (iter : addr) (callback : addr -> M bool) (n : nat)
  (c c1 c2 : Wg_Context) (yielded r : ptr) (exc : addr) :
  Wg_CallMethod host fuel H iter "__next__" [] None c = Done (yielded, c1) ->
  currentException c1 = Some exc ->
  Wg_IsInstance host fuel exc [builtins c1 (B_exc WG_EXC_STOPITERATION)] c1
  = Done (r, c2) ->
  Iterate_loop host fuel H (S n) iter callback c
  = match r with
    | Some _ => Done (true, set_exception None [] "" c2)
    | None => Done (false, c2)
    end.
Proof.
  intros Hnext Hexc Hinst. simpl. rewrite (bind_done _ _ _ _ _ Hnext).
  unfold bind at 1, Wg_GetCurrentException at 1, gets at 1. cbn beta iota.
  rewrite Hexc. unfold bind at 1, get at 1. cbn beta iota.
  rewrite (bind_done _ _ _ _ _ Hinst). now destruct r.
Qed.


End Iteration.


Lemma bind_assoc {A B C : Type} (m : M A) (f : A -> M B) (g : B -> M C)
  (c : Wg_Context) :
  bind (bind m f) g c = bind m (fun x => bind (f x) g) c.
Proof. unfold bind. now destruct (m c) as [[a c']| |]. Qed.

Lemma ret_bind {A B : Type} (a : A) (k : A -> M B) (c : Wg_Context) :
  bind (ret a) k c = k a c.
Proof. reflexivity. Qed.

(** [mret]: a [ret] at the head of the goal. *)
Ltac mret := rewrite ?bind_assoc; unfold bind at 1, ret at 1; cbn beta iota.

(** [mrun Hm]: run the computation at the head of the goal, whose result
    [Hm] gives. *)
Ltac mrun Hm :=
  rewrite ?bind_assoc; rewrite (bind_done _ _ _ _ _ Hm); cbn beta iota.

(** ** Construction of instances *)

Section Construction.
Variable host : Host.
Variable fuel : nat.
Variable H : Handles.

Lemma replace_replace (m : list (addr * Wg_Obj)) (p : addr) (o1 o2 : Wg_Obj) :
  replace_obj (replace_obj m p o1) p o2 = replace_obj m p o2.
Proof.
  induction m as [|[q x] m IH]; simpl; [reflexivity|].
  destruct (Pos.eqb q p) eqn:E; simpl; rewrite E; [reflexivity|now rewrite IH].
Qed.

Lemma lookup_app_fresh (m : list (addr * Wg_Obj)) (p : addr) (o : Wg_Obj) :
  ~ In p (map fst m) -> lookup_obj (m ++ [(p, o)]) p = Some o.
Proof.
  induction m as [|[q x] m IH]; simpl; intros Hnin.
  - now rewrite Pos.eqb_refl.
  - destruct (Pos.eqb_spec q p) as [->|_]; [tauto|]. apply IH. tauto.
Qed.

Lemma fresh_addr_fresh (m : list (addr * Wg_Obj)) :
  ~ In (fresh_addr m) (map fst m).
Proof.
  unfold fresh_addr.
  assert (Hle : forall p, In p (map fst m) ->
                          (p <= fold_right Pos.max 1 (map fst m))%positive).
  { induction (map fst m) as [|q l IH]; simpl; [tauto|].
    intros p [->|Hp]; [lia|]. specialize (IH p Hp). lia. }
  intros Hin. apply Hle in Hin. lia.
Qed.

(** Allocation registers a default-initialized Value at an address no live
    Value has. *)
Lemma Alloc_inv (c c1 : Wg_Context) (p : addr) :
  Alloc fuel H c = Done (Some p, c1) ->
  exists m0,
    mem c1 = m0 ++ [(p, default_obj)]
    /\ ~ In p (map fst m0)
    /\ lookup_obj (mem c1) p = Some default_obj.
Proof.
  unfold Alloc. intros Hrun.
  apply bind_inv in Hrun as (c0 & c0' & Hget & Hrun).
  apply ret_inv in Hget as [-> ->].
  destruct (maxAlloc (config c) <=? Z.of_nat (length (mem c))).
  { apply bind_inv in Hrun as (? & ? & _ & Hrun). now apply ret_inv in Hrun. }
  apply bind_inv in Hrun as ([] & c2 & _ & Hrun).
  apply bind_inv in Hrun as (c3 & c3' & Hget & Hrun).
  apply ret_inv in Hget as [-> ->].
  apply bind_inv in Hrun as ([] & c4 & Hmod & Hrun).
  apply ret_inv in Hrun as [Hp ->]. injection Hp as ->.
  inversion Hmod; subst c4. simpl.
  exists (mem c2). split; [reflexivity|]. split; [apply fresh_addr_fresh|].
  apply lookup_app_fresh, fresh_addr_fresh.
Qed.

(** The constructor up to the lookup of [__init__]. *)
Lemma class_ctor_allocates (c c1 : Wg_Context) (klass inst : addr)
  (us : list voidp) (kw0 : ptr) (ks : list ptr) (ko : Wg_Obj) (k : Class)
  (argv_ : list addr) :
  userdata c = VObj klass :: us ->
  kwargs c = kw0 :: ks ->
  Alloc fuel H c = Done (Some inst, c1) ->
  lookup_obj (mem c1) klass = Some ko ->
  Get_class ko = Some k ->
  class_ctor host fuel H argv_ c
  = (let* r :=
       (let* init := Wg_HasAttribute host inst "__init__" in
        match init with
        | None => ret (Some inst)
        | Some i =>
            let* isfn := Wg_IsFunction init in
            if isfn then
              let* kw := Wg_GetKwargs host fuel H in
              match kw with
              | None => ret None
              | Some _ =>
                  let* r := h_call H init argv_ kw in
                  match r with
                  | None => ret None
                  | Some _ =>
                      let* isnone := Wg_IsNone r in
                      if negb isnone then
                        Wg_RaiseException host fuel H WG_EXC_TYPEERROR
                          "__init__() returned a non NoneType type" >>
                        ret None
                      else ret (Some inst)
                  end
              end
            else ret (Some inst)
        end) in
     unprotect_all [inst] >> ret r) (with_instance inst k c1).
Proof.
  intros Hud Hkw Halloc Hko Hk.
  destruct (Alloc_inv c c1 inst Halloc) as (m0 & _ & _ & Hinst).
  assert (Hgud : Wg_GetFunctionUserdata c = Done (VObj klass, c)).
  { unfold Wg_GetFunctionUserdata, bind, get, WG_ASSERT. cbn beta iota.
    now rewrite Hkw, Hud. }
  unfold class_ctor.
  mrun Hgud. unfold userdata_obj. mret. mrun Halloc.
  unfold with_refs. mrun (protect_all_done [inst] c1).
  change (protect_list [inst] c1) with (protect inst c1).
  assert (Hko' : lookup_obj (mem (protect inst c1)) klass = Some ko) by exact Hko.
  assert (Hinst' : lookup_obj (mem (protect inst c1)) inst = Some default_obj)
    by exact Hinst.
  rewrite !bind_assoc. mrun (deref_done _ _ _ Hko').
  rewrite Hk. unfold cast. mret.
  mrun (deref_done _ _ _ Hinst').
  mrun (store_done _ _ _ (set_attributes (Copy (instanceAttributes k)) default_obj) Hinst').
  set (c2 := set_mem _ (protect inst c1)).
  assert (Hinst2 : lookup_obj (mem c2) inst
                   = Some (set_attributes (Copy (instanceAttributes k)) default_obj)).
  { subst c2. simpl. eapply lookup_replace_eq; eauto. }
  mrun (deref_done _ _ _ Hinst2).
  mrun (store_done _ _ _ (set_type (name k) (set_attributes (Copy (instanceAttributes k)) default_obj)) Hinst2).
  subst c2. simpl mem. rewrite replace_replace.
  fold (with_instance inst k c1).
  unfold bind.
  destruct (Wg_HasAttribute host inst "__init__" _) as [[init c3]| |];
    reflexivity.
Qed.

(** The keyword arguments the constructor forwards are those of the call
    in progress, when the caller gave a dictionary. *)
Lemma GetKwargs_given (c : Wg_Context) (d : addr) (ks : list ptr) :
  kwargs c = Some d :: ks -> Wg_GetKwargs host fuel H c = Done (Some d, c).
Proof. intros Hkw. unfold Wg_GetKwargs, bind, get. now rewrite Hkw. Qed.


End Construction.


(** ** The integer methods *)

Section IntegerMethods.
Import IntBuiltins.
Variable F : Type.
Variable float_of_wint : Z -> F.
Variable float_is_zero : F -> bool.
Variable float_fmod : F -> F -> F.

Lemma floored_mod_mod (a b : Z) : floored_mod a b = a mod b.
Proof. unfold floored_mod. pose proof (Z_div_mod_eq_full a b). lia. Qed.

Lemma wint_wrap_id (z : Z) : in_wint z -> wint_wrap z = z.
Proof.
  unfold in_wint, wint_min, wint_max, wint_wrap, wint_bits. intros Hz.
  rewrite Z.mod_small; lia.
Qed.

Lemma wint_wrap_below (z : Z) :
  - 2 ^ 64 <= z < - 2 ^ 63 -> wint_wrap z = z + 2 ^ 64.
Proof.
  unfold wint_wrap, wint_bits. intros Hz.
  replace (z + 2 ^ (64 - 1)) with (z + 2 ^ 64 + 2 ^ 63 + -1 * 2 ^ 64) by lia.
  rewrite Z.mod_add by lia. rewrite Z.mod_small; lia.
Qed.

(** For a positive divisor Int_Mod is the floored remainder. *)
Lemma Int_Mod_positive_divisor (a b : Z) :
  float_is_zero (float_of_wint b) = false ->
  in_wint b -> 0 < b ->
  Int_Mod F float_of_wint float_is_zero float_fmod [WInt a; WInt b]
  = Created (WInt (floored_mod a b)).
Proof.
  intros Hz Hb Hpos. unfold Int_Mod. cbn. rewrite Hz. cbn.
  do 2 f_equal. unfold cpp_rem. rewrite floored_mod_mod.
  pose proof (Z.quot_rem' a b) as Hqr.
  pose proof (Z.rem_bound_abs a b ltac:(lia)) as Habs.
  destruct (Z.ltb_spec (Z.rem a b) 0) as [Hneg|Hnn].
  - rewrite wint_wrap_id.
    + apply Z.mod_unique_pos with (q := Z.quot a b - 1); lia.
    + unfold in_wint, wint_min, wint_max, wint_bits in *. lia.
  - apply Z.mod_unique_pos with (q := Z.quot a b); lia.
Qed.

(** For a negative divisor that does not divide the dividend it is not:
    the remainder keeps the sign of the dividend, or leaves the range
    between the divisor and zero. *)
Lemma Int_Mod_negative_divisor (a b : Z) :
  float_is_zero (float_of_wint b) = false ->
  in_wint b -> b < 0 -> Z.rem a b <> 0 ->
  exists m : Z,
    Int_Mod F float_of_wint float_is_zero float_fmod [WInt a; WInt b]
    = Created (WInt m)
    /\ m <> floored_mod a b.
Proof.
  intros Hz Hb Hneg Hrem. unfold Int_Mod. cbn. rewrite Hz. cbn.
  eexists. split; [reflexivity|]. unfold cpp_rem. rewrite floored_mod_mod.
  pose proof (Z.mod_neg_bound a b Hneg) as Hmod.
  pose proof (Z.rem_bound_abs a b ltac:(lia)) as Habs.
  destruct (Z.ltb_spec (Z.rem a b) 0) as [Hlt|Hge]; [|lia].
  unfold in_wint, wint_min, wint_max, wint_bits in Hb.
  destruct (Z.lt_ge_cases (Z.rem a b + b) (- 2 ^ 63)) as [Hlow|Hin].
  - rewrite wint_wrap_below by lia. lia.
  - rewrite wint_wrap_id; [lia|].
    unfold in_wint, wint_min, wint_max, wint_bits. lia.
Qed.

End IntegerMethods.

(** C4. The integer modulo and floor division are not the floored ones of
    the specification. For 5 and -3 Int_Mod creates 2 where the floored
    remainder a - b * floor(a / b) is -1: the remainder of C++ is brought
    into range by adding the divisor, which is right only for a positive
    divisor. Int_FloorDiv divides as floats: for 2^53 + 1 and 1 it creates
    2^53, which is not floor(a / b). *)
Theorem Int_Mod_FloorDiv_not_floored :
  IntBuiltins.Double.Int_Mod [IntBuiltins.WInt 5; IntBuiltins.WInt (-3)]
  = IntBuiltins.Created (IntBuiltins.WInt 2)
  /\ IntBuiltins.floored_mod 5 (-3) = -1
  /\ IntBuiltins.Double.Int_FloorDiv
       [IntBuiltins.WInt (2 ^ 53 + 1); IntBuiltins.WInt 1]
     = IntBuiltins.Created (IntBuiltins.WInt (2 ^ 53))
  /\ IntBuiltins.floored_div (2 ^ 53 + 1) 1 = 2 ^ 53 + 1.
Proof. repeat split; vm_compute; reflexivity. Qed.

(** Where the methods agree with the specification: a positive divisor,
    and quotients that a float holds exactly. *)
Example Int_Mod_FloorDiv_floored :
  IntBuiltins.Double.Int_Mod [IntBuiltins.WInt (-5); IntBuiltins.WInt 3]
  = IntBuiltins.Created (IntBuiltins.WInt (IntBuiltins.floored_mod (-5) 3))
  /\ IntBuiltins.Double.Int_FloorDiv [IntBuiltins.WInt 5; IntBuiltins.WInt (-3)]
     = IntBuiltins.Created (IntBuiltins.WInt (IntBuiltins.floored_div 5 (-3)))
  /\ IntBuiltins.Double.Int_FloorDiv [IntBuiltins.WInt (-7); IntBuiltins.WInt 2]
     = IntBuiltins.Created (IntBuiltins.WInt (IntBuiltins.floored_div (-7) 2))
  /\ IntBuiltins.Double.Int_Mod [IntBuiltins.WInt 5; IntBuiltins.WInt 0]
     = IntBuiltins.Raised IntBuiltins.DivisionByZero.
Proof. repeat split; vm_compute; reflexivity. Qed.

(** * Further properties of the code *)

(** ** The collector removes exactly the unreachable objects *)

Section CollectorExact.

(** Every pointer the collector starts from is a root. *)
Lemma roots_root (c : Wg_Context) (r : addr) : In r (roots c) -> root c r.
Proof.
  unfold roots. intros Hin.
  apply in_app_or in Hin as [Hin|Hin].
  { destruct (currentException c) as [e|] eqn:He; simpl in Hin; [|tauto].
    destruct Hin as [<-|[]]. now apply root_exception. }
  apply in_app_or in Hin as [Hin|Hin].
  { apply in_map_iff in Hin as ([p n] & <- & Hin).
    apply list_elem_of_In, elem_of_map_to_list in Hin.
    apply root_protected. simpl. eauto. }
  apply in_app_or in Hin as [Hin|Hin].
  { apply in_flat_map in Hin as ([module_ g] & Hg & Hin).
    apply in_map_iff in Hin as ([var v] & <- & Hv).
    apply list_elem_of_In, elem_of_map_to_list in Hg, Hv.
    eapply root_global; eauto. }
  apply in_app_or in Hin as [Hin|Hin].
  { apply in_flat_map in Hin as (k & Hk & Hin).
    apply in_rev in Hk.
    destruct k as [k|]; simpl in Hin; [|tauto].
    destruct Hin as [<-|[]]. now apply root_kwargs. }
  apply in_app_or in Hin as [Hin|Hin].
  { apply in_flat_map in Hin as (b & _ & Hin).
    destruct (builtins c b) as [p|] eqn:Hb; simpl in Hin; [|tauto].
    destruct Hin as [<-|[]]. eapply root_builtin; eauto. }
  destruct (argv c) as [a|] eqn:Ha; simpl in Hin; [|tauto].
  destruct Hin as [<-|[]]. now apply root_argv.
Qed.

(** Every pointer the collector pushes for an object is the end of an edge
    out of it. *)
Lemma children_edge (m : list (addr * Wg_Obj)) (a b : addr) (o : Wg_Obj)
  (l : list addr) :
  lookup_obj m a = Some o -> children o = Some l -> In b l -> edge m a b.
Proof.
  intros Ho Hc Hin. unfold children in Hc.
  destruct (payload_children o) as [pl|] eqn:Hp; [|discriminate].
  injection Hc as <-.
  apply in_app_or in Hin as [Hin|Hin].
  - unfold payload_children in Hp.
    destruct (IsTuple o || IsList o) eqn:Htl.
    { unfold Get_vector in Hp. destruct (data o) as [| | | | |v| | | | |] eqn:Hd;
        try discriminate.
      injection Hp as <-. eapply edge_element; eauto. }
    destruct (IsDictionary o) eqn:Hdict.
    { unfold Get_dict in Hp. destruct (data o) as [| | | | | |d| | | |] eqn:Hd;
        try discriminate.
      injection Hp as <-. apply in_flat_map in Hin as ([k v] & Hkv & Hin).
      simpl in Hin. destruct Hin as [<-|[<-|[]]].
      - eapply edge_key; eauto.
      - eapply edge_value; eauto. }
    destruct (IsSet o) eqn:Hset.
    { unfold Get_set in Hp. destruct (data o) as [| | | | | | |s| | |] eqn:Hd;
        try discriminate.
      injection Hp as <-. eapply edge_set_element; eauto. }
    destruct (IsFunction o) eqn:Hfn.
    { unfold Get_func in Hp. destruct (data o) as [| | | | | | | |f| |] eqn:Hd;
        try discriminate.
      injection Hp as <-.
      destruct (self f) as [s|] eqn:Hs; simpl in Hin; [|tauto].
      destruct Hin as [<-|[]]. eapply edge_self; eauto. }
    destruct (IsClass o) eqn:Hcl.
    { unfold Get_class in Hp. destruct (data o) as [| | | | | | | | |k|] eqn:Hd;
        try discriminate.
      injection Hp as <-. apply in_app_or in Hin as [Hin|Hin].
      - eapply edge_base; eauto.
      - unfold ForEach in Hin. apply in_map_iff in Hin as ([n x] & <- & Hin).
        eapply edge_template; eauto. }
    injection Hp as <-. destruct Hin.
  - apply in_app_or in Hin as [Hin|Hin].
    + unfold ForEach in Hin. apply in_map_iff in Hin as ([n x] & <- & Hin).
      eapply edge_attribute; eauto.
    + eapply edge_reference; eauto.
Qed.

(** The marking loop traverses reachable objects only. *)
Lemma mark_sound (c : Wg_Context) (n : nat) :
  forall (inUse : list addr) (T T' : gset addr),
    mark n (mem c) inUse T = Done T' ->
    (forall x, In x inUse -> reachable c x) ->
    (forall x, x ∈ T -> reachable c x) ->
    forall x, x ∈ T' -> reachable c x.
Proof.
  induction n as [|n IH]; intros inUse T T' Hm Hin HT.
  - destruct inUse; simpl in Hm; [|discriminate]. now injection Hm as <-.
  - destruct inUse as [|obj rest]; simpl in Hm.
    { now injection Hm as <-. }
    destruct (decide (obj ∈ T)) as [Hobj|Hobj].
    + eapply IH; [exact Hm| |exact HT]. intros x Hx. apply Hin. now right.
    + destruct (lookup_obj (mem c) obj) as [o|] eqn:Ho; [|discriminate].
      destruct (children o) as [l|] eqn:Hl; [|discriminate].
      eapply IH; [exact Hm| |].
      * intros x Hx. apply in_app_or in Hx as [Hx|Hx].
        -- apply in_rev in Hx. apply (reach_edge c obj x).
           ++ apply Hin. now left.
           ++ eapply children_edge; eauto.
        -- apply Hin. now right.
      * intros x Hx. apply elem_of_union in Hx as [Hx|Hx]; [|auto].
        apply elem_of_singleton in Hx as ->. apply Hin. now left.
Qed.

(** The marking loop traverses objects of the arena only. *)
Lemma mark_in_arena (m : list (addr * Wg_Obj)) (n : nat) :
  forall (inUse : list addr) (T T' : gset addr),
    mark n m inUse T = Done T' ->
    (forall x, x ∈ T -> In x (map fst m)) ->
    forall x, x ∈ T' -> In x (map fst m).
Proof.
  induction n as [|n IH]; intros inUse T T' Hm HT.
  - destruct inUse; simpl in Hm; [|discriminate]. now injection Hm as <-.
  - destruct inUse as [|obj rest]; simpl in Hm.
    { now injection Hm as <-. }
    destruct (decide (obj ∈ T)) as [Hobj|Hobj].
    + eapply IH; eauto.
    + destruct (lookup_obj m obj) as [o|] eqn:Ho; [|discriminate].
      destruct (children o) as [l|] eqn:Hl; [|discriminate].
      eapply IH; [exact Hm|].
      intros x Hx. apply elem_of_union in Hx as [Hx|Hx]; [|auto].
      apply elem_of_singleton in Hx as ->.
      apply lookup_obj_In in Ho. apply in_map_iff. now exists (obj, o).
Qed.

(** The set the marking loop returns is the set of reachable objects. *)
Lemma mark_exact (c : Wg_Context) (n : nat) (T : gset addr) :
  mark n (mem c) (rev (roots c)) ∅ = Done T ->
  forall x, x ∈ T <-> reachable c x.
Proof.
  intros Hm x. split.
  - eapply mark_sound; [exact Hm| |set_solver].
    intros r Hr. apply in_rev in Hr. apply reach_root. now apply roots_root.
  - now apply (mark_reachable c n T Hm).
Qed.

Lemma sweep_sublist (m : list (addr * Wg_Obj)) (T : gset addr) :
  sublist (sweep m T) m.
Proof.
  unfold sweep. induction m as [|po m IH]; simpl; [constructor|].
  destruct (bool_decide (fst po ∈ T)); now constructor.
Qed.

(** X1. Wg_CollectGarbage removes exactly the unreachable objects: an
    object is in the arena afterwards if and only if it was in the arena
    and was reachable from a root; the survivors are unchanged and keep
    their order, and the live count recorded for the next collection is
    their number. *)
Theorem collect_sweeps_exactly (c c' : Wg_Context) (fuel : nat) :
  Wg_CollectGarbage fuel c = Done (tt, c') ->
  (forall v o, In (v, o) (mem c') <-> In (v, o) (mem c) /\ reachable c v)
  /\ sublist (mem c') (mem c)
  /\ lastObjectCountAfterGC c' = length (mem c').
Proof.
  unfold Wg_CollectGarbage. intros Hgc.
  destruct (mark fuel (mem c) (rev (roots c)) ∅) as [T| |] eqn:Hm;
    try discriminate.
  injection Hgc as <-. simpl. split; [|split; [|reflexivity]].
  - intros v o. unfold sweep. rewrite filter_In. simpl.
    rewrite bool_decide_eq_true. now rewrite (mark_exact c fuel T Hm).
  - apply sweep_sublist.
Qed.

(** X2. The finalizers the collection calls are those of the unreachable
    objects that have one, and no other: no finalizer of a survivor runs. *)
Theorem collect_finalizes_unreachable (c c' : Wg_Context) (fuel : nat) :
  Wg_CollectGarbage fuel c = Done (tt, c') ->
  exists calls,
    finalized c' = finalized c ++ calls
    /\ forall v f,
         In (v, f) calls <->
         exists o, In (v, o) (mem c) /\ fin_fptr (finalizer o) = Some f
                   /\ ~ reachable c v.
Proof.
  unfold Wg_CollectGarbage. intros Hgc.
  destruct (mark fuel (mem c) (rev (roots c)) ∅) as [T| |] eqn:Hm;
    try discriminate.
  injection Hgc as <-. simpl. eexists. split; [reflexivity|].
  intros v f. unfold finalizer_calls. rewrite in_flat_map. split.
  - intros ([p o] & Hin & Hcall). simpl in Hcall.
    destruct (fin_fptr (finalizer o)) as [g|] eqn:Hg; [|destruct Hcall].
    destruct (decide (p ∈ T)) as [HT|HT]; [destruct Hcall|].
    destruct Hcall as [[= -> ->]|[]].
    exists o. repeat split; [exact Hin|exact Hg|].
    now rewrite <- (mark_exact c fuel T Hm).
  - intros (o & Hin & Hg & Hnr). exists (v, o). split; [exact Hin|].
    simpl. rewrite Hg.
    destruct (decide (v ∈ T)) as [HT|HT]; [|now left].
    now apply (mark_exact c fuel T Hm) in HT.
Qed.

(** The marking loop looks at traversed objects only: it runs the same on
    any arena that agrees on them. *)
Lemma mark_agree (m m' : list (addr * Wg_Obj)) (n : nat) :
  forall (inUse : list addr) (T T' : gset addr),
    mark n m inUse T = Done T' ->
    (forall x, x ∈ T' -> lookup_obj m' x = lookup_obj m x) ->
    mark n m' inUse T = Done T'.
Proof.
  induction n as [|n IH]; intros inUse T T' Hm Hag.
  - destruct inUse; simpl in *; [exact Hm|discriminate].
  - destruct inUse as [|obj rest]; simpl in *; [exact Hm|].
    destruct (decide (obj ∈ T)) as [Hobj|Hobj]; [now apply IH|].
    destruct (lookup_obj m obj) as [o|] eqn:Ho; [|discriminate].
    destruct (children o) as [l|] eqn:Hl; [|discriminate].
    assert (Hin : obj ∈ T').
    { assert (Hsub : forall k inUse0 T0 T1,
                 mark k m inUse0 T0 = Done T1 -> T0 ⊆ T1).
      { clear. induction k as [|k IHk]; intros inUse0 T0 T1 Hk.
        - destruct inUse0; simpl in Hk; [|discriminate]. now injection Hk as <-.
        - destruct inUse0 as [|x r]; simpl in Hk; [now injection Hk as <-|].
          destruct (decide (x ∈ T0)); [eauto|].
          destruct (lookup_obj m x) as [ox|]; [|discriminate].
          destruct (children ox) as [lx|]; [|discriminate].
          apply IHk in Hk. set_solver. }
      apply Hsub in Hm. set_solver. }
    rewrite (Hag obj Hin), Ho, Hl. now apply IH.
Qed.

Lemma lookup_sweep (m : list (addr * Wg_Obj)) (T : gset addr) (x : addr) :
  x ∈ T -> lookup_obj (sweep m T) x = lookup_obj m x.
Proof.
  intros Hx. unfold sweep. induction m as [|[p o] m IH]; simpl; [reflexivity|].
  destruct (bool_decide_reflect (p ∈ T)) as [Hp|Hp]; simpl.
  - now rewrite IH.
  - destruct (Pos.eqb_spec p x) as [->|Hne]; [tauto|exact IH].
Qed.

Lemma sweep_sweep (m : list (addr * Wg_Obj)) (T : gset addr) :
  sweep (sweep m T) T = sweep m T.
Proof.
  unfold sweep. induction m as [|[p o] m IH]; simpl; [reflexivity|].
  destruct (bool_decide (p ∈ T)) eqn:Hp; simpl; [|exact IH].
  now rewrite Hp, IH.
Qed.

Lemma finalizer_calls_sweep (m : list (addr * Wg_Obj)) (T : gset addr) :
  finalizer_calls (sweep m T) T = [].
Proof.
  unfold finalizer_calls, sweep. induction m as [|[p o] m IH]; simpl; [reflexivity|].
  destruct (bool_decide_reflect (p ∈ T)) as [Hp|Hp]; simpl; [|exact IH].
  rewrite IH. destruct (fin_fptr (finalizer o)); [|reflexivity].
  now destruct (decide (p ∈ T)).
Qed.

(** X3. A collection right after a collection changes nothing: it returns
    on the same fuel, removes no object and calls no finalizer. *)
Theorem collect_twice (c c' : Wg_Context) (fuel : nat) :
  Wg_CollectGarbage fuel c = Done (tt, c') ->
  Wg_CollectGarbage fuel c' = Done (tt, c').
Proof.
  unfold Wg_CollectGarbage. intros Hgc.
  destruct (mark fuel (mem c) (rev (roots c)) ∅) as [T| |] eqn:Hm;
    try discriminate.
  injection Hgc as <-.
  change (roots (set_swept (sweep (mem c) T) (finalizer_calls (mem c) T) c))
    with (roots c).
  change (mem (set_swept (sweep (mem c) T) (finalizer_calls (mem c) T) c))
    with (sweep (mem c) T).
  rewrite (mark_agree (mem c) (sweep (mem c) T) fuel _ _ _ Hm)
    by (intros x Hx; now apply lookup_sweep).
  rewrite sweep_sweep, finalizer_calls_sweep.
  unfold set_swept. simpl. now rewrite app_nil_r.
Qed.

End CollectorExact.

Lemma collect_sweeps_exactly_witness :
  ~ reachable Examples.cyclic_context 4%positive.
Proof.
  destruct (collect_sweeps_exactly Examples.cyclic_context
              (set_swept (firstn 3 Examples.cyclic_arena)
                 [(4%positive, FinHost 0)] Examples.cyclic_context) 10)
    as (Hiff & _ & _); [vm_compute; reflexivity|].
  intros Hr.
  destruct (lookup_obj Examples.cyclic_arena 4%positive) as [o|] eqn:Ho;
    [|discriminate].
  assert (Hin : In (4%positive, o) (mem (set_swept (firstn 3 Examples.cyclic_arena)
                 [(4%positive, FinHost 0)] Examples.cyclic_context))).
  { apply Hiff. split; [|exact Hr]. now apply lookup_obj_In. }
  simpl in Hin. unfold Examples.cyclic_arena in Hin. simpl in Hin.
  repeat (destruct Hin as [Hin|Hin]; [discriminate Hin|]). exact Hin.
Defined.

Lemma collect_finalizes_unreachable_witness :
  exists calls,
    finalized (final (Wg_CollectGarbage 10 Examples.cyclic_context)
                 Examples.cyclic_context) = calls
    /\ In (4%positive, FinHost 0) calls.
Proof.
  destruct (collect_finalizes_unreachable Examples.cyclic_context
              (final (Wg_CollectGarbage 10 Examples.cyclic_context)
                 Examples.cyclic_context) 10)
    as (calls & Hfin & Hiff); [vm_compute; reflexivity|].
  vm_compute in Hfin. subst calls.
  eexists. split; [vm_compute; reflexivity|now left].
Defined.

Lemma collect_twice_witness :
  Wg_CollectGarbage 10
    (final (Wg_CollectGarbage 10 Examples.cyclic_context) Examples.cyclic_context)
  = Done (tt, final (Wg_CollectGarbage 10 Examples.cyclic_context)
                Examples.cyclic_context).
Proof. apply (collect_twice Examples.cyclic_context). vm_compute. reflexivity. Defined.

(** ** Protection is counted *)

Lemma protection_ext (P Q : gmap addr positive) :
  (forall x, match P !! x with Some n => Pos.to_nat n | None => O end
             = match Q !! x with Some n => Pos.to_nat n | None => O end) ->
  P = Q.
Proof.
  intros Heq. apply map_eq. intros x. specialize (Heq x).
  destruct (P !! x) as [n|], (Q !! x) as [k|]; try reflexivity.
  - f_equal. now apply Pos2Nat.inj.
  - pose proof (Pos2Nat.is_pos n). lia.
  - pose proof (Pos2Nat.is_pos k). lia.
Qed.

Lemma set_protectedObjects_id (c : Wg_Context) :
  set_protectedObjects (protectedObjects c) c = c.
Proof. now destruct c. Qed.

Lemma set_protectedObjects_twice (P Q : gmap addr positive) (c : Wg_Context) :
  set_protectedObjects P (set_protectedObjects Q c) = set_protectedObjects P c.
Proof. reflexivity. Qed.

Lemma protection_protect (c : Wg_Context) (o x : addr) :
  protection (protect o c) x
  = (protection c x + one_if (Pos.eqb x o))%nat.
Proof.
  unfold protection, protect. simpl.
  destruct (Pos.eqb_spec x o) as [->|Hne].
  - rewrite lookup_insert_eq. destruct (protectedObjects c !! o); simpl; lia.
  - rewrite lookup_insert_ne by congruence. simpl. lia.
Qed.

Lemma unprotect_inv (c c' : Wg_Context) (o : addr) :
  Wg_UnprotectObject o c = Done (tt, c') ->
  (0 < protection c o)%nat
  /\ (forall x, protection c' x
                = (protection c x - one_if (Pos.eqb x o))%nat)
  /\ c' = set_protectedObjects (protectedObjects c') c.
Proof.
  unfold Wg_UnprotectObject, bind, get, protection.
  destruct (protectedObjects c !! o) as [n|] eqn:Hn; [|discriminate].
  destruct (Pos.eqb_spec n 1) as [->|Hn1]; intros [= <-]; simpl.
  - split; [lia|]. split; [|reflexivity]. intros x.
    destruct (Pos.eqb_spec x o) as [->|Hne].
    + rewrite lookup_delete_eq, Hn. reflexivity.
    + rewrite lookup_delete_ne by congruence. simpl. lia.
  - split; [lia|]. split; [|reflexivity]. intros x.
    destruct (Pos.eqb_spec x o) as [->|Hne].
    + rewrite lookup_insert_eq, Hn. simpl. rewrite Pos2Nat.inj_pred by lia. lia.
    + rewrite lookup_insert_ne by congruence. simpl. lia.
Qed.

Lemma unprotect_done (c : Wg_Context) (o : addr) :
  (0 < protection c o)%nat ->
  exists c', Wg_UnprotectObject o c = Done (tt, c').
Proof.
  unfold Wg_UnprotectObject, bind, get, protection.
  destruct (protectedObjects c !! o) as [n|]; [|lia]. intros _.
  destruct (Pos.eqb n 1); eauto.
Qed.

Lemma protection_protect_list (l : list addr) :
  forall (c : Wg_Context) (x : addr),
    protection (protect_list l c) x
    = (protection c x + count_occ Pos.eq_dec l x)%nat.
Proof.
  unfold protect_list.
  induction l as [|o l IH]; intros c x; simpl; [lia|].
  rewrite IH, protection_protect.
  destruct (Pos.eq_dec o x) as [->|Hne].
  - rewrite Pos.eqb_refl. simpl. lia.
  - destruct (Pos.eqb_spec x o); [congruence|simpl; lia].
Qed.

Lemma protect_list_frame (l : list addr) :
  forall c, protect_list l c
            = set_protectedObjects (protectedObjects (protect_list l c)) c.
Proof.
  unfold protect_list.
  induction l as [|o l IH]; intros c; simpl.
  - now rewrite set_protectedObjects_id.
  - rewrite (IH (protect o c)) at 1. reflexivity.
Qed.

Lemma unprotect_all_done (l : list addr) :
  forall c,
    (forall x, (count_occ Pos.eq_dec l x <= protection c x)%nat) ->
    exists c',
      unprotect_all l c = Done (tt, c')
      /\ (forall x, protection c' x
                    = (protection c x - count_occ Pos.eq_dec l x)%nat)
      /\ c' = set_protectedObjects (protectedObjects c') c.
Proof.
  induction l as [|o l IH]; intros c Hle; simpl.
  - exists c. repeat split; [intros x; lia|].
    now rewrite set_protectedObjects_id.
  - destruct (unprotect_done c o) as [c1 Hc1].
    { specialize (Hle o). simpl in Hle.
      destruct (Pos.eq_dec o o); [lia|congruence]. }
    destruct (unprotect_inv c c1 o Hc1) as (_ & Hcnt & Hframe).
    destruct (IH c1) as (c2 & Hc2 & Hcnt2 & Hframe2).
    { intros x. rewrite Hcnt. specialize (Hle x). simpl in Hle.
      destruct (Pos.eq_dec o x) as [->|Hne].
      - rewrite Pos.eqb_refl. simpl. lia.
      - destruct (Pos.eqb_spec x o); [congruence|simpl; lia]. }
    exists c2. unfold bind. rewrite Hc1. split; [exact Hc2|]. split.
    + intros x. rewrite Hcnt2, Hcnt.
      destruct (Pos.eq_dec o x) as [->|Hne].
      * rewrite Pos.eqb_refl. simpl. lia.
      * destruct (Pos.eqb_spec x o); [congruence|simpl; lia].
    + rewrite Hframe2, Hframe. reflexivity.
Qed.

(** X4. Protection is counted: protecting a list of objects and then
    unprotecting the same objects, in any order, leaves the context as it
    was. *)
Theorem protect_unprotect_cancel (c : Wg_Context) (l1 l2 : list addr) :
  Permutation l1 l2 ->
  (protect_all l1 >> unprotect_all l2) c = Done (tt, c).
Proof.
  intros Hperm. unfold bind. rewrite protect_all_done.
  destruct (unprotect_all_done l2 (protect_list l1 c)) as (c' & Hrun & Hcnt & Hframe).
  { intros x. rewrite protection_protect_list.
    rewrite (Permutation_count_occ Pos.eq_dec l1 l2) in Hperm.
    rewrite Hperm. lia. }
  rewrite Hrun. do 2 f_equal.
  assert (HP : protectedObjects c' = protectedObjects c).
  { apply protection_ext. intros x.
    fold (protection c' x). fold (protection c x).
    rewrite Hcnt, protection_protect_list.
    rewrite (Permutation_count_occ Pos.eq_dec l1 l2) in Hperm.
    rewrite Hperm. lia. }
  rewrite Hframe, HP, (protect_list_frame l1 c).
  rewrite set_protectedObjects_twice. apply set_protectedObjects_id.
Qed.

Lemma protect_unprotect_cancel_witness :
  (protect_all [2%positive; 3%positive; 2%positive] >>
   unprotect_all [3%positive; 2%positive; 2%positive]) Examples.cyclic_context
  = Done (tt, Examples.cyclic_context).
Proof.
  apply protect_unprotect_cancel.
  apply perm_trans with [3%positive; 2%positive; 2%positive];
    [apply perm_swap|reflexivity].
Defined.

Section InstanceBalance.
Variable host : Host.
Variable fuel : nat.

Lemma unprotect_inv_add (c c' : Wg_Context) (o : addr) :
  Wg_UnprotectObject o c = Done (tt, c') ->
  forall x, protection c x = (protection c' x + one_if (Pos.eqb x o))%nat.
Proof.
  intros Hu x. apply unprotect_inv in Hu as (Hpos & Hcnt & _).
  rewrite Hcnt. destruct (Pos.eqb_spec x o) as [->|Hne]; unfold one_if; lia.
Qed.

Lemma one_if_count (o x : addr) :
  one_if (Pos.eqb x o) = count_occ Pos.eq_dec [o] x.
Proof.
  simpl. destruct (Pos.eq_dec o x) as [->|Hne].
  - now rewrite Pos.eqb_refl.
  - destruct (Pos.eqb_spec x o); [congruence|reflexivity].
Qed.

Lemma unprotect_all_inv (l : list addr) :
  forall c c',
    unprotect_all l c = Done (tt, c') ->
    forall x, protection c x = (protection c' x + count_occ Pos.eq_dec l x)%nat.
Proof.
  induction l as [|o l IH]; intros c c' Hrun x.
  - simpl in Hrun. apply ret_inv in Hrun as [_ ->]. simpl. lia.
  - cbn [unprotect_all] in Hrun.
    apply bind_inv in Hrun as ([] & c1 & Hu & Hrun).
    rewrite (unprotect_inv_add _ _ _ Hu x), (IH _ _ Hrun x), one_if_count.
    change (o :: l) with ([o] ++ l). rewrite count_occ_app.
    unfold addr in *. lia.
Qed.

Lemma keeps_bind_method_protection (obj m : addr) :
  keeps protectedObjects (bind_method obj m).
Proof. unfold bind_method. keeps_auto. now apply keeps_store. Qed.

Lemma keeps_HasAttribute_protection (obj : addr) (member : string) :
  keeps protectedObjects (Wg_HasAttribute host obj member).
Proof.
  unfold Wg_HasAttribute. keeps_auto. apply keeps_bind_method_protection.
Qed.

Lemma IsInstance_loop_balance (types : list addr) (n : nat) :
  forall (toCheck : list addr) (c c' : Wg_Context) (r : ptr),
    IsInstance_loop host n types toCheck c = Done (r, c') ->
    forall x, protection c x
              = (protection c' x + count_occ Pos.eq_dec toCheck x)%nat.
Proof.
  induction n as [|n IH]; intros toCheck c c' r Hrun x.
  - destruct toCheck; simpl in Hrun; [|discriminate].
    apply ret_inv in Hrun as [_ ->]. simpl. lia.
  - destruct toCheck as [|front rest]; cbn [IsInstance_loop] in Hrun.
    { apply ret_inv in Hrun as [_ ->]. simpl. lia. }
    destruct (existsb (Pos.eqb front) types).
    + apply bind_inv in Hrun as ([] & c1 & Hu & Hrun).
      apply ret_inv in Hrun as [_ ->].
      exact (unprotect_all_inv (front :: rest) _ _ Hu x).
    + apply bind_inv in Hrun as (bases_ & c1 & Hhas & Hrun).
      apply bind_inv in Hrun as (new & c2 & Hnew & Hrun).
      apply bind_inv in Hrun as ([] & c3 & Hp & Hrun).
      apply bind_inv in Hrun as ([] & c4 & Hu & Hrun).
      assert (H1 : protectedObjects c1 = protectedObjects c)
        by exact (keeps_HasAttribute_protection _ _ _ _ _ Hhas).
      assert (H2 : protectedObjects c2 = protectedObjects c1).
      { revert Hnew. generalize c1 new c2.
        change (keeps protectedObjects
                  (match bases_ with
                   | Some b => let* bo := deref b in
                               if IsTuple bo then cast (Get_vector bo) else ret []
                   | None => ret []
                   end)).
        keeps_auto. }
      rewrite protect_all_done in Hp. injection Hp as <-.
      specialize (IH _ _ _ _ Hrun x).
      pose proof (unprotect_inv_add _ _ _ Hu x) as H4.
      rewrite protection_protect_list in H4.
      assert (Hpc : protection c2 x = protection c x)
        by (unfold protection; now rewrite H2, H1).
      rewrite count_occ_app in IH. rewrite one_if_count in H4.
      change (front :: rest) with ([front] ++ rest). rewrite count_occ_app.
      unfold addr in *. lia.
Qed.

(** X5. Wg_IsInstance releases every protection it takes: on return the
    reference counts of all objects are as before the call, whatever the
    shape of the class hierarchy it walked. *)
Theorem IsInstance_releases_protection (v : addr) (types : list ptr)
  (c c' : Wg_Context) (r : ptr) :
  Wg_IsInstance host fuel v types c = Done (r, c') ->
  protectedObjects c' = protectedObjects c.
Proof.
  unfold Wg_IsInstance. intros Hrun.
  apply bind_inv in Hrun as (ts & c1 & Hts & Hrun).
  apply (keeps_assert_classes (fun c => c)) in Hts. subst c1.
  apply bind_inv in Hrun as (o & c1 & Hd & Hrun).
  apply deref_inv in Hd as [Ho ->].
  destruct (Get (attributes o) "__class__") as [klass|].
  - unfold with_refs in Hrun.
    apply bind_inv in Hrun as ([] & c1 & Hp1 & Hrun).
    apply bind_inv in Hrun as (r' & c2 & Hloop & Hrun).
    apply bind_inv in Hrun as ([] & c3 & Hu & Hrun).
    apply ret_inv in Hrun as [_ ->].
    apply bind_inv in Hloop as ([] & c4 & Hp2 & Hloop).
    rewrite protect_all_done in Hp1. injection Hp1 as <-.
    injection Hp2 as <-.
    apply protection_ext. intros x.
    fold (protection c3 x). fold (protection c x).
    pose proof (IsInstance_loop_balance ts fuel _ _ _ _ Hloop x) as H1.
    pose proof (unprotect_all_inv _ _ _ Hu x) as H2.
    change (protect_list [klass] c) with (protect klass c) in H1.
    rewrite !protection_protect in H1.
    rewrite one_if_count in H1. unfold addr in *. lia.
  - now apply ret_inv in Hrun as [_ ->].
Qed.


End InstanceBalance.

Lemma IsInstance_releases_protection_witness :
  protectedObjects
    (final (Wg_IsInstance World.host 6 61%positive [Some 20%positive]
              World.context0) World.context0)
  = protectedObjects World.context0.
Proof.
  apply (IsInstance_releases_protection World.host 6 61%positive
           [Some 20%positive] World.context0 _ (Some 20%positive)).
  vm_compute. reflexivity.
Defined.


(** ** Globals and imports *)

Section Globals.
Variable host : Host.
Variable fuel : nat.
Variable H : Handles.

Lemma current_globals_done (c : Wg_Context) (module_ : string)
  (ms : list string) (g : gmap string addr) :
  currentModule c = module_ :: ms -> globals c !! module_ = Some g ->
  current_globals c = Done ((module_, g), c).
Proof.
  intros Hm Hg. unfold current_globals, bind, get. now rewrite Hm, Hg.
Qed.

Lemma SetGlobal_done (c : Wg_Context) (module_ : string) (ms : list string)
  (g : gmap string addr) (name_ : string) (value : addr) :
  IsValidIdentifier host name_ = true ->
  currentModule c = module_ :: ms -> globals c !! module_ = Some g ->
  Wg_SetGlobal host name_ value c
  = Done (tt, set_globals (<[module_ := <[name_ := value]> g]> (globals c)) c).
Proof.
  intros Hid Hm Hg. unfold Wg_SetGlobal, bind, WG_ASSERT. rewrite Hid.
  unfold ret. now rewrite (current_globals_done c module_ ms g Hm Hg).
Qed.

Lemma GetGlobal_done (c : Wg_Context) (module_ : string) (ms : list string)
  (g : gmap string addr) (name_ : string) :
  IsValidIdentifier host name_ = true ->
  currentModule c = module_ :: ms -> globals c !! module_ = Some g ->
  Wg_GetGlobal host name_ c = Done (g !! name_, c).
Proof.
  intros Hid Hm Hg. unfold Wg_GetGlobal, bind, WG_ASSERT. rewrite Hid.
  unfold ret. now rewrite (current_globals_done c module_ ms g Hm Hg).
Qed.

(** X7. A global that is set is the one read back: after Wg_SetGlobal,
    Wg_GetGlobal of the same name in the same module returns the value,
    every other name of the module reads as before, and the globals of the
    other modules are untouched. A name that was never set reads as null. *)
Theorem SetGlobal_GetGlobal (c : Wg_Context) (module_ : string)
  (ms : list string) (g : gmap string addr) (name_ other : string)
  (value : addr) :
  IsValidIdentifier host name_ = true ->
  IsValidIdentifier host other = true ->
  currentModule c = module_ :: ms ->
  globals c !! module_ = Some g ->
  exists c',
    Wg_SetGlobal host name_ value c = Done (tt, c')
    /\ Wg_GetGlobal host name_ c' = Done (Some value, c')
    /\ (other <> name_ -> Wg_GetGlobal host other c' = Done (g !! other, c'))
    /\ (forall m, m <> module_ -> globals c' !! m = globals c !! m).
Proof.
  intros Hid Hid' Hm Hg. eexists. split; [now apply (SetGlobal_done c module_ ms g)|].
  split; [|split].
  - rewrite (GetGlobal_done _ module_ ms (<[name_ := value]> g)); trivial.
    + now rewrite lookup_insert_eq.
    + simpl. now rewrite lookup_insert_eq.
  - intros Hne.
    rewrite (GetGlobal_done _ module_ ms (<[name_ := value]> g)); trivial.
    + now rewrite lookup_insert_ne by congruence.
    + simpl. now rewrite lookup_insert_eq.
  - intros m Hne. simpl. now rewrite lookup_insert_ne by congruence.
Qed.

(** The globals of the current module after a run of Wg_SetGlobal over a
    list of bindings. *)
Lemma SetGlobal_all_done (vars : list (string * addr)) :
  forall (c : Wg_Context) (module_ : string) (ms : list string)
         (g : gmap string addr),
    (forall var val, In (var, val) vars -> IsValidIdentifier host var = true) ->
    currentModule c = module_ :: ms -> globals c !! module_ = Some g ->
    SetGlobal_all host vars c
    = Done (tt, set_globals
                  (<[module_ := foldl (fun acc kv => <[fst kv := snd kv]> acc) g vars]>
                     (globals c)) c).
Proof.
  induction vars as [|[var val] vars IH]; intros c module_ ms g Hid Hm Hg.
  - simpl. unfold ret. rewrite insert_id by exact Hg. now destruct c.
  - cbn [SetGlobal_all]. unfold bind.
    rewrite (SetGlobal_done c module_ ms g) by (eauto using in_eq).
    rewrite (IH _ module_ ms (<[var := val]> g)).
    + simpl. now rewrite insert_insert_eq.
    + intros v' x' Hin. eapply Hid. right. exact Hin.
    + exact Hm.
    + simpl. now rewrite lookup_insert_eq.
Qed.

Lemma foldl_insert_lookup (vars : list (string * addr)) :
  forall (g : gmap string addr) (k : string),
    NoDup (vars.*1) ->
    foldl (fun acc kv => <[fst kv := snd kv]> acc) g vars !! k
    = match (list_to_map vars : gmap string addr) !! k with
      | Some v => Some v
      | None => g !! k
      end.
Proof.
  induction vars as [|[var val] vars IH]; intros g k Hnd; simpl.
  - now rewrite lookup_empty.
  - inversion Hnd as [|? ? Hnotin Hnd']; subst.
    rewrite IH by exact Hnd'.
    destruct (decide (var = k)) as [->|Hne].
    + rewrite lookup_insert_eq.
      destruct ((list_to_map vars : gmap string addr) !! k) eqn:Hk.
      * exfalso. apply Hnotin. apply elem_of_list_to_map_2 in Hk.
        apply list_elem_of_fmap. now exists (k, a).
      * now rewrite lookup_insert_eq.
    + rewrite !lookup_insert_ne by congruence. reflexivity.
Qed.

(** X8. Importing all names of a module that is loaded copies every
    global of the module into the current module, over the names that exist
    there, and leaves the rest of the current module and every other module
    alone. *)
Theorem ImportAll_copies (c : Wg_Context) (module_ current : string)
  (ms : list string) (mod_ g : gmap string addr) :
  IsValidIdentifier host module_ = true ->
  (forall var val, mod_ !! var = Some val -> IsValidIdentifier host var = true) ->
  globals c !! module_ = Some mod_ ->
  currentModule c = current :: ms ->
  globals c !! current = Some g ->
  Wg_ImportAllFromModule host fuel H module_ c
  = Done (true, set_globals (<[current := mod_ ∪ g]> (globals c)) c).
Proof.
  intros Hid Hvars Hmod Hcur Hg.
  unfold Wg_ImportAllFromModule, bind, WG_ASSERT. rewrite Hid. unfold ret.
  unfold LoadModule, bind, get. rewrite Hmod. unfold ret. simpl.
  rewrite Hmod.
  rewrite (SetGlobal_all_done (map_to_list mod_) c current ms g); trivial.
  - do 3 f_equal. f_equal. apply map_eq. intros k.
    rewrite foldl_insert_lookup by apply NoDup_fst_map_to_list.
    rewrite list_to_map_to_list, lookup_union.
    destruct (mod_ !! k), (g !! k); reflexivity.
  - intros var val Hin. apply (Hvars var val).
    apply elem_of_map_to_list, list_elem_of_In. exact Hin.
Qed.

End Globals.

Lemma SetGlobal_GetGlobal_witness :
  exists c',
    Wg_SetGlobal World.host "x" 52%positive World.context0 = Done (tt, c')
    /\ Wg_GetGlobal World.host "x" c' = Done (Some 52%positive, c')
    /\ Wg_GetGlobal World.host "y" c' = Done (None, c').
Proof.
  destruct (SetGlobal_GetGlobal World.host World.context0 "__main__" [] ∅
              "x" "y" 52%positive)
    as (c' & H1 & H2 & H3 & _); [reflexivity ..|].
  exists c'. repeat split; [exact H1|exact H2|]. now apply H3.
Defined.

Lemma ImportAll_copies_witness :
  observe ((let* _ := Wg_ImportAllFromModule World.host 3 (level World.host 3) "lib" in
           let* f := Wg_GetGlobal World.host "f" in
           let* g := Wg_GetGlobal World.host "g" in
           let* a := Wg_GetGlobal World.host "answer" in
           ret (f, g, a)) with_library)
  = Done ((Some 40%positive, Some 2%positive, Some 52%positive), None).
Proof.
  unfold bind at 1.
  rewrite (ImportAll_copies World.host 3 (level World.host 3) with_library
             "lib" "__main__" []
             {[ "answer" := 52%positive; "f" := 40%positive ]}
             {[ "f" := 1%positive; "g" := 2%positive ]});
    [vm_compute; reflexivity|reflexivity| |reflexivity..].
  intros var val Hl.
  apply lookup_insert_Some in Hl as [[<- _]|[_ Hl]]; [reflexivity|].
  apply lookup_singleton_Some in Hl as [<- _]. reflexivity.
Defined.

(** ** Calls keep the stacks balanced *)

Section CallFrames.
Variable host : Host.
Variable fuel : nat.
Variable H : Handles.

(** The call of a Function, in two halves. *)
Lemma Wg_Call_function (c : Wg_Context) (callee : addr)
  (co : Wg_Obj) (func : Func) (argv_ : list addr) (kw : ptr) :
  lookup_obj (mem c) callee = Some co ->
  IsFunction co = true ->
  Get_func co = Some func ->
  check_kwargs kw c = Done (None, c) ->
  Wg_Call host fuel H (Some callee) argv_ kw c
  = (let* r := invoke host fuel H (fptr func) (option_list (self func) ++ argv_) in
     leave_call callee func argv_ r) (enter_call callee func argv_ kw c).
Proof.
  intros Hco Hfn Hf Hck. unfold Wg_Call.
  unfold bind at 1. simpl. unfold bind at 1.
  rewrite (deref_done _ _ _ Hco), Hfn. simpl.
  unfold bind at 1. rewrite Hck.
  unfold with_refs at 1. unfold bind at 1. rewrite protect_all_done.
  rewrite Hf. simpl.
  unfold enter_call, leave_call, with_refs, bind, modify, ret.
  rewrite protect_all_done. simpl.
  destruct (invoke host fuel H (fptr func) (option_list (self func) ++ argv_) _)
    as [[r c1]|f|]; try reflexivity.
  destruct (Wg_IsFunction (Some callee) (pop_call c1)) as [[isfn c2]|f|];
    try reflexivity.
  destruct isfn;
    (destruct (unprotect_all (option_list (self func)) _) as [[[] c3]|f|];
     try reflexivity;
     unfold bind;
     destruct (Wg_UnprotectObject callee c3) as [[[] c4]|f|]; try reflexivity;
     now destruct (unprotect_all argv_ c4) as [[[] c5]|f|]).
Qed.

Lemma enter_call_frames (c : Wg_Context) (callee : addr) (func : Func)
  (argv_ : list addr) (kw : ptr) :
  currentModule (enter_call callee func argv_ kw c)
  = fn_module func :: currentModule c
  /\ userdata (enter_call callee func argv_ kw c)
     = fn_userdata func :: userdata c
  /\ kwargs (enter_call callee func argv_ kw c) = kw :: kwargs c
  /\ currentTrace (enter_call callee func argv_ kw c)
     = MkFrame None "" (fn_module func) (prettyName func) false
       :: currentTrace c.
Proof.
  unfold enter_call.
  rewrite (protect_list_frame (option_list (self func))).
  rewrite (protect_list_frame (callee :: argv_)).
  repeat split.
Qed.

(** X9. A call of a Function is transparent to the call stacks: when the
    function pointer returns with the stacks and the protection counts as
    it was entered with, Wg_Call returns its result with the module stack,
    the userdata stack, the keyword argument stack, the trace and the
    protection counts as they were before the call; the frame it pushed
    and the references it took are gone. *)
Theorem call_restores_frames (c c1 : Wg_Context) (callee : addr)
  (co co' : Wg_Obj) (func : Func) (argv_ : list addr) (kw r : ptr) :
  lookup_obj (mem c) callee = Some co ->
  IsFunction co = true ->
  Get_func co = Some func ->
  check_kwargs kw c = Done (None, c) ->
  invoke host fuel H (fptr func) (option_list (self func) ++ argv_)
    (enter_call callee func argv_ kw c) = Done (r, c1) ->
  same_frames (enter_call callee func argv_ kw c) c1 ->
  lookup_obj (mem c1) callee = Some co' ->
  IsFunction co' = true ->
  exists c2,
    Wg_Call host fuel H (Some callee) argv_ kw c = Done (r, c2)
    /\ same_frames c c2
    /\ mem c2 = mem c1
    /\ globals c2 = globals c1
    /\ currentException c2 = currentException c1.
Proof.
  intros Hco Hfn Hf Hck Hinv (Hmod & Hud & Hkw & Htr & Hprot) Hco' Hfn'.
  rewrite (Wg_Call_function c callee co func argv_ kw Hco Hfn Hf Hck).
  rewrite (bind_done _ _ _ _ _ Hinv).
  unfold leave_call.
  assert (Hisfn : Wg_IsFunction (Some callee) (pop_call c1)
                  = Done (true, pop_call c1)).
  { unfold Wg_IsFunction, bind, nonnull, ret.
    rewrite (deref_done (pop_call c1) callee co') by exact Hco'.
    now rewrite Hfn'. }
  unfold bind at 1, modify at 1. rewrite (bind_done _ _ _ _ _ Hisfn).
  unfold bind at 1, modify at 1.
  set (c3 := set_currentTrace _ (pop_call c1)).
  assert (Hcount : forall x,
             protection c3 x
             = (protection c x
                + count_occ Pos.eq_dec (callee :: argv_) x
                + count_occ Pos.eq_dec (option_list (self func)) x)%nat).
  { intros x.
    transitivity (protection (enter_call callee func argv_ kw c) x).
    { unfold protection. subst c3.
      change (protectedObjects (set_currentTrace (tail (currentTrace (pop_call c1)))
                                  (pop_call c1)))
        with (protectedObjects c1).
      now rewrite Hprot. }
    unfold enter_call.
    change (protection (push_call ?m ?u ?k ?c0) x) with (protection c0 x).
    rewrite protection_protect_list.
    change (protection (set_currentTrace ?t ?c0) x) with (protection c0 x).
    now rewrite protection_protect_list. }
  destruct (unprotect_all_done (option_list (self func)) c3)
    as (c4 & Hu4 & Hcnt4 & Hframe4).
  { intros x. rewrite Hcount. lia. }
  destruct (unprotect_all_done (callee :: argv_) c4)
    as (c5 & Hu5 & Hcnt5 & Hframe5).
  { intros x. rewrite Hcnt4, Hcount. unfold addr in *. lia. }
  rewrite (bind_done _ _ _ _ _ Hu4), (bind_done _ _ _ _ _ Hu5).
  exists c5. split; [reflexivity|].
  destruct (enter_call_frames c callee func argv_ kw) as (Em & Eu & Ek & Et).
  split; [|rewrite Hframe5, Hframe4; subst c3; repeat split].
  unfold same_frames. rewrite Hframe5, Hframe4. subst c3.
  repeat split.
  - change (tail (currentModule c1) = currentModule c). now rewrite Hmod, Em.
  - change (tail (userdata c1) = userdata c). now rewrite Hud, Eu.
  - change (tail (kwargs c1) = kwargs c). now rewrite Hkw, Ek.
  - change (tail (currentTrace c1) = currentTrace c). now rewrite Htr, Et.
  - change (protectedObjects c5 = protectedObjects c).
    apply protection_ext. intros x.
    fold (protection c5 x). fold (protection c x).
    rewrite Hcnt5, Hcnt4, Hcount. unfold addr in *. lia.
Qed.

End CallFrames.

Lemma call_restores_frames_witness :
  exists c2,
    Wg_Call World.host 5 (level World.host 5) (Some 40%positive) [] None
      World.context0 = Done (Some 1%positive, c2)
    /\ same_frames World.context0 c2.
Proof.
  destruct (call_restores_frames World.host 5 (level World.host 5)
              World.context0
              (enter_call 40%positive
                 (MkFunc None (NativeFn 0) VNull false "__main__" "f") [] None
                 World.context0)
              40%positive (World.function_obj 0 false "f")
              (World.function_obj 0 false "f")
              (MkFunc None (NativeFn 0) VNull false "__main__" "f") [] None
              (Some 1%positive))
    as (c2 & Hrun & Hsame & _);
    [reflexivity | reflexivity | reflexivity | reflexivity | reflexivity
    | repeat split | reflexivity | reflexivity |].
  exists c2. now split.
Defined.

(** ** Linked references *)

Lemma erase_first_app (x : addr) (l : list addr) :
  erase_first x (l ++ [x])
  = if existsb (Pos.eqb x) l then erase_first x l ++ [x] else l.
Proof.
  induction l as [|y l IH]; simpl.
  - now rewrite Pos.eqb_refl.
  - rewrite (Pos.eqb_sym x y). destruct (Pos.eqb y x); simpl; [reflexivity|].
    rewrite IH. now destruct (existsb (Pos.eqb x) l).
Qed.

Lemma erase_first_perm (x : addr) (l : list addr) :
  existsb (Pos.eqb x) l = true -> Permutation (x :: erase_first x l) l.
Proof.
  induction l as [|y l IH]; simpl; [discriminate|].
  rewrite (Pos.eqb_sym x y).
  destruct (Pos.eqb_spec y x) as [->|Hne]; simpl; [reflexivity|].
  intros Hex. rewrite perm_swap. now rewrite (IH Hex).
Qed.

Lemma replace_obj_same (m : list (addr * Wg_Obj)) (p : addr) (o : Wg_Obj) :
  lookup_obj m p = Some o -> replace_obj m p o = m.
Proof.
  induction m as [|[q x] m IH]; simpl; [reflexivity|].
  destruct (Pos.eqb_spec q p) as [->|Hne].
  - now intros [= ->].
  - intros Hl. now rewrite IH.
Qed.

Lemma set_mem_id (c : Wg_Context) : set_mem (mem c) c = c.
Proof. now destruct c. Qed.

Lemma replace_obj_twice (m : list (addr * Wg_Obj)) (p : addr) (o o' : Wg_Obj) :
  replace_obj (replace_obj m p o) p o' = replace_obj m p o'.
Proof.
  induction m as [|[q x] m IH]; simpl; [reflexivity|].
  destruct (Pos.eqb q p) eqn:E; simpl; rewrite E; [reflexivity|now rewrite IH].
Qed.

(** X10. Unlinking undoes linking: after Wg_LinkReference and
    Wg_UnlinkReference of the same child the parent holds the same
    references, up to their order; when the child was not linked before,
    the context is exactly as it was. Unlinking removes one occurrence
    only. *)
Theorem link_unlink (c : Wg_Context) (p ch : addr) (o : Wg_Obj) :
  lookup_obj (mem c) p = Some o ->
  exists refs,
    (Wg_LinkReference (Some p) (Some ch) >>
     Wg_UnlinkReference (Some p) (Some ch)) c
    = Done (tt, set_mem (replace_obj (mem c) p (set_references refs o)) c)
    /\ Permutation refs (references o)
    /\ (~ In ch (references o) ->
        (Wg_LinkReference (Some p) (Some ch) >>
         Wg_UnlinkReference (Some p) (Some ch)) c = Done (tt, c)).
Proof.
  intros Ho.
  assert (Hrun : (Wg_LinkReference (Some p) (Some ch) >>
                  Wg_UnlinkReference (Some p) (Some ch)) c
                 = Done (tt, set_mem (replace_obj (mem c) p
                           (set_references
                              (erase_first ch (references o ++ [ch])) o)) c)).
  { unfold Wg_LinkReference, Wg_UnlinkReference, bind, nonnull, ret.
    rewrite (deref_done _ _ _ Ho).
    rewrite (store_done _ _ o) by exact Ho.
    assert (Ho' : lookup_obj
                    (mem (set_mem (replace_obj (mem c) p
                            (set_references (references o ++ [ch]) o)) c)) p
                  = Some (set_references (references o ++ [ch]) o)).
    { simpl. eapply lookup_replace_eq. exact Ho. }
    rewrite (deref_done _ _ _ Ho'). simpl references.
    rewrite existsb_app. simpl. rewrite Pos.eqb_refl, orb_true_r. simpl.
    unfold store. rewrite Ho'. simpl. now rewrite replace_obj_twice. }
  exists (erase_first ch (references o ++ [ch])).
  split; [exact Hrun|split].
  - rewrite erase_first_app.
    destruct (existsb (Pos.eqb ch) (references o)) eqn:Hex; [|reflexivity].
    rewrite <- (erase_first_perm ch (references o) Hex) at 2.
    now rewrite Permutation_app_comm.
  - intros Hnin. rewrite Hrun, erase_first_app.
    destruct (existsb (Pos.eqb ch) (references o)) eqn:Hex.
    { exfalso. apply Hnin. apply existsb_exists in Hex as (y & Hy & Heq).
      apply Pos.eqb_eq in Heq. now subst y. }
    replace (set_references (references o) o) with o by now destruct o.
    now rewrite (replace_obj_same _ _ _ Ho), set_mem_id.
Qed.

(** X11. A linked child lives as long as its parent: after
    Wg_LinkReference, a collection that finds the parent reachable keeps the
    child in the arena. *)
Theorem linked_child_survives (c c1 c2 : Wg_Context) (p ch : addr)
  (fuel : nat) :
  Wg_LinkReference (Some p) (Some ch) c = Done (tt, c1) ->
  reachable c1 p ->
  In ch (arena c1) ->
  Wg_CollectGarbage fuel c1 = Done (tt, c2) ->
  In ch (arena c2).
Proof.
  intros Hlink Hreach Hin Hgc.
  assert (Hedge : edge (mem c1) p ch).
  { unfold Wg_LinkReference, bind, nonnull, ret in Hlink.
    destruct (deref p c) as [[o c0]| |] eqn:Hd; try discriminate.
    apply deref_inv in Hd as [Ho ->].
    rewrite (store_done _ _ o) in Hlink by exact Ho.
    injection Hlink as <-.
    apply (edge_reference _ p ch (set_references (references o ++ [ch]) o)).
    - simpl. eapply lookup_replace_eq. exact Ho.
    - simpl. apply in_or_app. right. now left. }
  unfold Wg_CollectGarbage in Hgc.
  destruct (mark fuel (mem c1) (rev (roots c1)) ∅) as [T| |] eqn:Hm;
    try discriminate.
  injection Hgc as <-. unfold arena. simpl.
  apply sweep_keeps; [|exact Hin].
  apply (mark_reachable c1 fuel T Hm). eapply reach_edge; eauto.
Qed.

Lemma link_unlink_witness :
  (Wg_LinkReference (Some 52%positive) (Some 60%positive) >>
   Wg_UnlinkReference (Some 52%positive) (Some 60%positive)) World.context0
  = Done (tt, World.context0).
Proof.
  destruct (link_unlink World.context0 52%positive 60%positive
              (World.plain "__int" (DInt 7)) eq_refl)
    as (refs & _ & _ & Hsame).
  apply Hsame. simpl. tauto.
Defined.

(** The unreferenced list of the example arena, linked to the dictionary
    that a global holds, is not collected. *)
Lemma linked_child_survives_witness :
  In 4%positive
    (arena (final (Wg_CollectGarbage 10
                     (final (Wg_LinkReference (Some 2%positive) (Some 4%positive)
                               Examples.cyclic_context)
                        Examples.cyclic_context))
              Examples.cyclic_context)).
Proof.
  eapply (linked_child_survives Examples.cyclic_context _ _ 2%positive
            4%positive 10).
  - vm_compute. reflexivity.
  - apply reach_root.
    apply (root_global _ _ "__main__" {[ "d" := 2%positive ]} "d"); reflexivity.
  - vm_compute. tauto.
  - vm_compute. reflexivity.
Defined.

(** ** Operators *)

Section Operators.
Variable host : Host.
Variable fuel : nat.
Variable H : Handles.

(** X12. [not in] through Wg_BinaryOp never yields a value: the negation is
    asked of Wg_UnaryOp with WG_UOP_NOT, which it has no case for. When
    the [in] test gives a Bool the run ends in WG_UNREACHABLE; the only
    result Wg_BinaryOp can return for WG_BOP_NOTIN is null. *)
Theorem notin_never_yields (lhs rhs : addr) (c : Wg_Context) :
  (forall r c', Wg_BinaryOp host fuel H WG_BOP_NOTIN lhs rhs c = Done (r, c') ->
                r = None)
  /\ (forall i c1,
        Wg_BinaryOp host fuel H WG_BOP_IN lhs rhs c = Done (Some i, c1) ->
        Wg_BinaryOp host fuel H WG_BOP_NOTIN lhs rhs c = Crashed Unreachable).
Proof.
  unfold Wg_BinaryOp. cbn [OP_METHOD_NAMES]. split.
  - intros r c' Hrun.
    apply bind_inv in Hrun as (in_ & c1 & _ & Hrun).
    destruct in_ as [i|].
    + unfold Wg_UnaryOp, bind, get in Hrun. discriminate.
    + now apply ret_inv in Hrun as [-> _].
  - intros i c1 Hin. unfold cast, bind at 1, ret at 1 in Hin.
    now rewrite (bind_done _ _ _ _ _ Hin).
Qed.

(** X13. The keyword dictionary of a call is created once: when Wg_GetKwargs
    has returned a dictionary, the next Wg_GetKwargs in the same call
    returns the same dictionary and changes nothing. *)
Theorem GetKwargs_cached (c c1 : Wg_Context) (d : addr) :
  Wg_GetKwargs host fuel H c = Done (Some d, c1) ->
  Wg_GetKwargs host fuel H c1 = Done (Some d, c1).
Proof.
  unfold Wg_GetKwargs at 1. intros Hrun.
  apply bind_inv in Hrun as (c0 & c0' & Hget & Hrun).
  apply ret_inv in Hget as [-> ->].
  destruct (kwargs c) as [|[k|] rest] eqn:Hkw.
  - discriminate.
  - apply ret_inv in Hrun as [[= ->] ->].
    unfold Wg_GetKwargs, bind, get. now rewrite Hkw.
  - apply bind_inv in Hrun as (d' & c2 & _ & Hrun).
    apply bind_inv in Hrun as (c3 & c3' & Hget & Hrun).
    apply ret_inv in Hget as [-> ->].
    destruct (kwargs c2) as [|k' rest'] eqn:Hkw2; [discriminate|].
    apply bind_inv in Hrun as ([] & c4 & Hmod & Hrun).
    apply ret_inv in Hrun as [Hd ->]. subst d'. injection Hmod as <-.
    unfold Wg_GetKwargs, bind, get. reflexivity.
Qed.

End Operators.

Lemma notin_never_yields_witness :
  Wg_BinaryOp World.host 6 (level World.host 6) WG_BOP_NOTIN 52%positive
    2%positive
    (final (Wg_SetAttribute World.host 2%positive "__contains__" 42%positive
              World.context0) World.context0)
  = Crashed Unreachable.
Proof.
  eapply (proj2 (notin_never_yields World.host 6 (level World.host 6)
                   52%positive 2%positive _) 2%positive).
  vm_compute. reflexivity.
Defined.

Lemma GetKwargs_cached_witness :
  exists d c1,
    Wg_GetKwargs World.host 6 (level World.host 6)
      (World.constructing 54%positive None) = Done (Some d, c1)
    /\ Wg_GetKwargs World.host 6 (level World.host 6) c1 = Done (Some d, c1).
Proof.
  eexists _, _. split; [vm_compute; reflexivity|].
  apply (GetKwargs_cached World.host 6 (level World.host 6)
           (World.constructing 54%positive None)).
  vm_compute. reflexivity.
Defined.

(** ** Reading integers back *)

Section StrInt.
Import Stdlib.Strings.Ascii StrBuiltins.

Lemma decimal_digit (k : N) :
  (k < 10)%N ->
  isDigit (pretty_N_char k) Base10 = true
  /\ (code (pretty_N_char k) =? 0) = false
  /\ digitValueOf (pretty_N_char k) Base10 = Z.of_N k
  /\ (0 < k -> pretty_N_char k <> "0"%char)%N.
Proof.
  intros Hk.
  assert (Hcases : (k = 0 \/ k = 1 \/ k = 2 \/ k = 3 \/ k = 4 \/ k = 5 \/ k = 6
                    \/ k = 7 \/ k = 8 \/ k = 9)%N) by lia.
  destruct Hcases as [->|[->|[->|[->|[->|[->|[->|[->|[->| ->]]]]]]]]];
    (split; [reflexivity|split; [reflexivity|split; [reflexivity|intros H0; try lia; discriminate]]]).
Qed.

(** Reading the digits of [x] from zero gives [x]. *)
Lemma read_digits_pretty (x : N) :
  (0 < x)%N -> Z.of_N x < 2 ^ 64 ->
  forall s, read_digits Base10 (pretty_N_go x s) 0
            = read_digits Base10 s (Z.of_N x).
Proof.
  induction (N.lt_wf_0 x) as [x _ IH]. intros Hpos Hlt s.
  rewrite pretty_N_go_step by exact Hpos.
  destruct (decimal_digit (x mod 10)%N) as (Hd & Hn & Hv & _);
    [apply N.mod_lt; lia|].
  assert (Hdm : Z.of_N x = 10 * Z.of_N (x / 10)%N + Z.of_N (x mod 10)%N).
  { rewrite (N.div_mod x 10) at 1 by lia. lia. }
  assert (Hm : (x mod 10 < 10)%N) by (apply N.mod_lt; lia).
  destruct (N.eq_dec (x / 10)%N 0%N) as [Hz|Hnz].
  - rewrite Hz, pretty_N_go_0. cbn [read_digits at_end]. rewrite Hd, Hn, Hv. cbn [negb andb].
    rewrite Hz in Hdm. unfold uintmax_wrap, radix.
    rewrite Z.mod_small by lia. f_equal. lia.
  - rewrite IH.
    + cbn [read_digits at_end]. rewrite Hd, Hn, Hv. cbn [negb andb]. unfold uintmax_wrap, radix.
      rewrite Z.mod_small by lia. f_equal. lia.
    + apply N.div_lt; lia.
    + lia.
    + pose proof (N2Z.is_nonneg (x mod 10)). lia.
Qed.

(** The decimal digits of a positive number do not start with a zero. *)
Lemma pretty_leading (x : N) :
  (0 < x)%N ->
  forall s, exists c r, pretty_N_go x s = String c r /\ c <> "0"%char
                        /\ announced_base (String c r) = Base10.
Proof.
  induction (N.lt_wf_0 x) as [x _ IH]. intros Hpos s.
  rewrite pretty_N_go_step by exact Hpos.
  destruct (N.eq_dec (x / 10)%N 0%N) as [Hz|Hnz].
  - rewrite Hz, pretty_N_go_0.
    assert (Hsmall : (x < 10)%N).
    { apply N.div_small_iff in Hz; [exact Hz|discriminate]. }
    rewrite N.mod_small by exact Hsmall.
    destruct (decimal_digit x Hsmall) as (_ & _ & _ & Hne).
    exists (pretty_N_char x), s. split; [reflexivity|]. split; [auto|].
    assert (Hcases : (x = 1 \/ x = 2 \/ x = 3 \/ x = 4 \/ x = 5 \/ x = 6
                      \/ x = 7 \/ x = 8 \/ x = 9)%N) by lia.
    destruct Hcases as [->|[->|[->|[->|[->|[->|[->|[->| ->]]]]]]]]; reflexivity.
  - apply IH; [apply N.div_lt; lia|apply N.neq_0_lt_0, Hnz].
Qed.

(** X14. An integer printed and read back: for every non-negative Int,
    Str_Int of its decimal string ([std::to_string]) creates the same Int.
    The string of a negative Int is refused: the minus sign is not a digit,
    and Str_Int raises "Invalid integer string". *)
Theorem Str_Int_to_string (F : Type) (n : Z) :
  (0 <= n <= IntBuiltins.wint_max ->
   Str_Int (F := F) [IntBuiltins.WString (to_string n)]
   = Ok (IntBuiltins.WInt n))
  /\ (n < 0 ->
      Str_Int (F := F) [IntBuiltins.WString (to_string n)]
      = Raises (Error "Invalid integer string")).
Proof.
  unfold to_string. split.
  - intros [Hnn Hmax]. destruct n as [|p|p]; [reflexivity| |lia].
    unfold IntBuiltins.wint_max, IntBuiltins.wint_bits in Hmax.
    change (pretty (Z.pos p)) with (pretty_N_go (N.pos p) "").
    destruct (pretty_leading (N.pos p) ltac:(lia) "") as (c & r & Heq & Hc & Hb).
    unfold Str_Int. rewrite Heq, Hb. cbn [andb].
    rewrite <- Heq. rewrite read_digits_pretty by (simpl; lia).
    cbn [read_digits at_end negb]. change (Z.of_N (N.pos p)) with (Z.pos p).
    replace (Z.pos p >? wuint_max) with false
      by (symmetry; rewrite Z.gtb_ltb; apply Z.ltb_ge; unfold wuint_max, IntBuiltins.wint_bits; lia).
    rewrite wint_wrap_id; [reflexivity|].
    unfold IntBuiltins.in_wint, IntBuiltins.wint_min, IntBuiltins.wint_max,
      IntBuiltins.wint_bits. lia.
  - intros Hneg. destruct n as [|p|p]; try lia. reflexivity.
Qed.

Lemma Str_Int_to_string_witness :
  Str_Int (F := unit) [IntBuiltins.WString (to_string 1234)]
  = Ok (IntBuiltins.WInt 1234)
  /\ Str_Int (F := unit) [IntBuiltins.WString (to_string (-5))]
     = Raises (Error "Invalid integer string").
Proof.
  split.
  - apply (proj1 (Str_Int_to_string unit 1234)).
    unfold IntBuiltins.wint_max, IntBuiltins.wint_bits. lia.
  - apply (proj2 (Str_Int_to_string unit (-5))). lia.
Defined.

End StrInt.

(** ** The integer modulo, for every divisor *)

Section IntegerModulo.
Import IntBuiltins.
Variable F : Type.
Variable float_of_wint : Z -> F.
Variable float_is_zero : F -> bool.
Variable float_fmod : F -> F -> F.


End IntegerModulo.


(** ** The list methods *)

Section ListMethods.
Import ListBuiltins.
Variable slice : list addr -> Heap -> Res.

(** GET_LIST_INDEX accepts the indices from [-len] to [len - 1]: the
    wrap-around of [size_t] turns an index below [-len] into one that is
    too large. *)
Lemma list_index_position (idx : Z) (v : list addr) :
  IntBuiltins.in_wint idx -> size v < 2 ^ 63 ->
  match position idx (length v) with
  | Some k =>
      (size v <=? ConvertNegativeIndex idx (size v)) = false
      /\ Z.to_nat (ConvertNegativeIndex idx (size v)) = k
      /\ (k < length v)%nat
  | None => (size v <=? ConvertNegativeIndex idx (size v)) = true
  end.
Proof.
  unfold IntBuiltins.in_wint, IntBuiltins.wint_min, IntBuiltins.wint_max,
    IntBuiltins.wint_bits, position, ConvertNegativeIndex, size_wrap, size.
  intros Hidx Hlen.
  destruct (Z.leb_spec 0 idx) as [Hnn|Hneg]; cbn [andb].
  - replace (idx <? 0) with false by (symmetry; apply Z.ltb_ge; lia).
    rewrite andb_false_r.
    destruct (Z.ltb_spec idx (Z.of_nat (length v))) as [Hin|Hout].
    + split; [apply Z.leb_gt; lia|]. split; [reflexivity|lia].
    + apply Z.leb_le; lia.
  - replace (idx <? 0) with true by (symmetry; apply Z.ltb_lt; lia).
    rewrite andb_true_r.
    destruct (Z.leb_spec (- Z.of_nat (length v)) idx) as [Hin|Hout].
    + rewrite Z.mod_small by lia.
      split; [apply Z.leb_gt; lia|]. split; [reflexivity|lia].
    + apply Z.leb_le.
      replace ((Z.of_nat (length v) + idx) mod 2 ^ 64)
        with (Z.of_nat (length v) + idx + 2 ^ 64); [lia|].
      apply Z.mod_unique_pos with (q := -1); lia.
Qed.

(** X16. The indices a list accepts: TupleList_GetItem returns the element
    an index between [-len] and [len - 1] names, counting from the back
    for a negative index, and leaves the heap as it is; for every other
    index it raises the index error for argument 2. *)
Theorem GetItem_index (h : Heap) (l i : addr) (v : list addr) (idx : Z) :
  h !! l = Some (List v) -> h !! i = Some (Int idx) ->
  IntBuiltins.in_wint idx -> size v < 2 ^ 63 ->
  TupleList_GetItem slice true [l; i] h
  = match position idx (length v) with
    | Some k => match v !! k with Some x => Ok x h | None => Undefined end
    | None => Raises (IndexOutOfRange 1)
    end
  /\ (forall k, position idx (length v) = Some k -> is_Some (v !! k))
  /\ (position idx (length v) = None <->
      idx < - Z.of_nat (length v) \/ Z.of_nat (length v) <= idx).
Proof.
  intros Hl Hi Hidx Hlen.
  pose proof (list_index_position idx v Hidx Hlen) as Hpos.
  split; [|split].
  - unfold TupleList_GetItem. rewrite Hl, Hi.
    destruct (position idx (length v)) as [k|].
    + destruct Hpos as (-> & -> & _). reflexivity.
    + rewrite Hpos. reflexivity.
  - intros k Hk. rewrite Hk in Hpos. destruct Hpos as (_ & _ & Hlt).
    apply lookup_lt_is_Some_2. exact Hlt.
  - unfold position.
    destruct (Z.leb_spec 0 idx), (Z.ltb_spec idx (Z.of_nat (length v))),
      (Z.leb_spec (- Z.of_nat (length v)) idx), (Z.ltb_spec idx 0);
      cbn [andb]; split; intros; try discriminate; try reflexivity; lia.
Qed.



(** X19. List_Pop with an index does not use it: called with the list and
    any second argument, an Int or not, it removes and returns the last
    element, and raises the index error on an empty list. Called with the
    list alone it reads the argument that is not there. *)
Theorem Pop_ignores_index (h : Heap) (l : addr) (v : list addr) :
  h !! l = Some (List v) -> size v < 2 ^ 63 ->
  (forall a1,
     List_Pop [l; a1] h
     = match v with
       | [] => Raises (IndexOutOfRange 1)
       | _ => match last v with
              | Some y => Ok y (<[l := List (removelast v)]> h)
              | None => Undefined
              end
       end)
  /\ List_Pop [l] h = Undefined.
Proof.
  intros Hl Hlen. split.
  - intros a1. unfold List_Pop. cbn [argc length]. cbn - [size ConvertNegativeIndex vector_erase].
    rewrite Hl.
    induction v as [|y v' _] using rev_ind.
    + reflexivity.
    + assert (Hpos := list_index_position (-1) (v' ++ [y])
                        ltac:(unfold IntBuiltins.in_wint, IntBuiltins.wint_min,
                                IntBuiltins.wint_max, IntBuiltins.wint_bits; lia)
                        Hlen).
      assert (Hk : position (-1) (length (v' ++ [y])) = Some (length v')).
      { unfold position. rewrite length_app. cbn [length].
        replace (0 <=? -1) with false by reflexivity. cbn [andb].
        replace (- Z.of_nat (length v' + 1) <=? -1) with true
          by (symmetry; apply Z.leb_le; lia).
        cbn. f_equal. lia. }
      rewrite Hk in Hpos. destruct Hpos as (Hle & Hto & _).
      rewrite Hle, Hto.
      rewrite lookup_app_r, Nat.sub_diag by lia. cbn [lookup list_lookup].
      rewrite last_snoc. unfold vector_erase.
      rewrite removelast_last.
      rewrite take_app_length.
      rewrite drop_ge by (rewrite length_app; cbn; lia).
      rewrite app_nil_r.
      destruct (v' ++ [y]) eqn:Hv; [destruct v'; discriminate|reflexivity].
  - unfold List_Pop. cbn. rewrite Hl. reflexivity.
Qed.

End ListMethods.

Section ListExamples.
Import ListBuiltins.

Lemma GetItem_index_witness :
  TupleList_GetItem (fun _ _ => Undefined) true [1; 2]%positive
    (example_heap (-1))
  = Ok 9%positive (example_heap (-1)).
Proof.
  unshelve epose proof
    (GetItem_index (fun _ _ => Undefined) (example_heap (-1))
       1%positive 2%positive [7; 8; 9]%positive (-1) _ _ _ _) as (H & _);
    [reflexivity|reflexivity|
     unfold IntBuiltins.in_wint, IntBuiltins.wint_min, IntBuiltins.wint_max,
       IntBuiltins.wint_bits; lia|
     unfold size; simpl; lia|].
  exact H.
Defined.



Lemma Pop_ignores_index_witness :
  List_Pop [1; 2]%positive (example_heap 0)
  = Ok 9%positive
      (<[1%positive := List [7; 8]%positive]> (example_heap 0)).
Proof.
  unshelve epose proof
    (Pop_ignores_index (example_heap 0) 1%positive [7; 8; 9]%positive _ _)
    as (H & _);
    [reflexivity|unfold size; simpl; lia|].
  exact (H 2%positive).
Defined.

End ListExamples.
